(** * MadFS (uLayFS): a shallow embedding of the persistent layout, the
    allocator, the block table, the memory table and the file object,
    together with the properties of the specification that they decide.

    Part I embeds the C++ sources; Part II states and proves the properties. *)

From Stdlib Require Import ZArith Lia Bool.
From stdpp Require Import base list sorting gmap strings.

Local Open Scope Z_scope.

(** ** Fixed-width integers

    C++ unsigned arithmetic wraps modulo 2^w; the wrap-around is written out
    with these helpers.  A signed 32-bit [int] is represented by its value in
    [-2^31, 2^31). *)

Definition wrap32 (x : Z) : Z := x mod 2 ^ 32.
Definition wrap64 (x : Z) : Z := x mod 2 ^ 64.
Definition wrap16 (x : Z) : Z := x mod 2 ^ 16.

(** Value of the [int] whose two's complement representation is [x mod 2^32]. *)
Definition to_int32 (x : Z) : Z :=
  let u := wrap32 x in if u <? 2 ^ 31 then u else u - 2 ^ 32.

(** Value of the [ssize_t] whose two's complement representation is
    [x mod 2^64]. *)
Definition to_int64 (x : Z) : Z :=
  let u := wrap64 x in if u <? 2 ^ 63 then u else u - 2 ^ 64.

(** Bitwise complement of a [uint64_t]. *)
Definition not64 (x : Z) : Z := Z.lxor x (2 ^ 64 - 1).

(** [a << idx] where [a] is an [int]: the result is an [int]; shifting by the
    width of the type or more is undefined, which is [None] here. *)
Definition shl_int (a idx : Z) : option Z :=
  if (0 <=? idx) && (idx <? 32) then Some (to_int32 (Z.shiftl a idx)) else None.

(** [std::countr_zero] on a [uint64_t]: the number of consecutive zero bits
    starting from the least significant one; 64 for the word zero. *)
Fixpoint countr_zero_from (n : nat) (i : Z) (b : Z) : Z :=
  match n with
  | O => i
  | S n' => if Z.testbit b i then i else countr_zero_from n' (i + 1) b
  end.

Definition countr_zero (b : Z) : Z := countr_zero_from 64 0 b.

(** [std::countl_zero] on a [uint32_t]. *)
Definition countl_zero32 (x : Z) : Z :=
  if x =? 0 then 32 else 32 - (Z.log2 x + 1).

(** ** Layout constants (layout.h part of tools/from_ulayfs.cpp) *)

Module Layout.

Definition BLOCK_SHIFT : Z := 12.
Definition BLOCK_SIZE : Z := 4096.
Definition CACHELINE_SIZE : Z := 64.
Definition sizeof_Bitmap : Z := 8.
Definition sizeof_TxEntry : Z := 8.
Definition sizeof_LogEntry : Z := 16.
Definition sizeof_BlockIdx : Z := 4.

Definition NUM_BITMAP : Z := BLOCK_SIZE / sizeof_Bitmap.
Definition NUM_TX_ENTRY : Z := (BLOCK_SIZE - 2 * sizeof_BlockIdx) / sizeof_TxEntry.
Definition NUM_LOG_ENTRY : Z := BLOCK_SIZE / sizeof_LogEntry.
Definition NUM_CL_BITMAP_IN_META : Z := 2.
Definition NUM_CL_TX_ENTRY_IN_META : Z :=
  ((BLOCK_SIZE / CACHELINE_SIZE) - 2) - NUM_CL_BITMAP_IN_META.
Definition NUM_INLINE_BITMAP : Z :=
  NUM_CL_BITMAP_IN_META * (CACHELINE_SIZE / sizeof_Bitmap).
Definition NUM_INLINE_TX_ENTRY : Z :=
  NUM_CL_TX_ENTRY_IN_META * (CACHELINE_SIZE / sizeof_TxEntry).

End Layout.

(** ** Alignment macros *)

(** Modelled from the spec: [IS_ALIGNED], [ALIGN_DOWN] and [ALIGN_UP] are
    declared in [utils.h], which is not part of the sources.  Their uses
    ([ALIGN_UP(n, BLOCK_SIZE) >> BLOCK_SHIFT], [ALIGN_UP(idx, 2)] to round an
    index up to 2) are those of the usual mask macros for a power-of-two
    alignment. *)
Definition IS_ALIGNED (x a : Z) : bool := Z.land x (a - 1) =? 0.
Definition ALIGN_DOWN (x a : Z) : Z := Z.land x (Z.lnot (a - 1)).
Definition ALIGN_UP (x a : Z) : Z := Z.land (x + a - 1) (Z.lnot (a - 1)).

(** Modelled from the spec: [BLOCK_SIZE_TO_IDX] is declared in the same
    header; it is the block that holds byte [x]. *)
Definition BLOCK_SIZE_TO_IDX (x : Z) : Z := Z.shiftr x Layout.BLOCK_SHIFT.

(** ** Atomic words

    The persistent words are accessed with [__atomic_load_n] and
    [__atomic_compare_exchange_n].  A word is its current value; the
    compare-exchange returns the new value of the word and whether it
    succeeded. *)

Definition compare_exchange (word expected desired : Z) : Z * bool :=
  if word =? expected then (desired, true) else (word, false).

(** ** Outcomes

    A call returns a value, stops at an [assert] whose condition is false, or
    runs into undefined behaviour. *)

Inductive result (A : Type) : Type :=
  | Ok (a : A)
  | AssertionFailed (what : string)
  | Undefined.
Arguments Ok {A} a.
Arguments AssertionFailed {A} what.
Arguments Undefined {A}.

(** ** class Bitmap *)

Module Bitmap.

Definition BITMAP_ALL_USED : Z := 0xffffffffffffffff.

(** [int alloc_one()]: one pass of the [retry:] loop per unit of fuel.  The
    result is the new word and the returned index. *)
Fixpoint alloc_one_retry (fuel : nat) (bitmap : Z) : option (Z * Z) :=
  match fuel with
  | O => None
  | S fuel' =>
      let b := bitmap in
      if b =? BITMAP_ALL_USED then Some (bitmap, -1)
      else
        let allocated := Z.land (not64 b) (wrap64 (b + 1)) in
        let '(bitmap', ok) := compare_exchange bitmap b (Z.land b allocated) in
        if negb ok then alloc_one_retry fuel' bitmap'
        else Some (bitmap', countr_zero b)
  end.

(** Without interference the compare-exchange succeeds at once. *)
Definition alloc_one (bitmap : Z) : option (Z * Z) := alloc_one_retry 1 bitmap.

(** [int alloc_all()]. *)
Definition alloc_all (bitmap : Z) : Z * Z :=
  let expected := 0 in
  if negb (bitmap =? 0) then (bitmap, -1)
  else
    let '(bitmap', ok) := compare_exchange bitmap expected BITMAP_ALL_USED in
    if negb ok then (bitmap', -1) else (bitmap', 0).

(** [void set_allocated(uint32_t idx) { bitmap |= (1 << idx); }]: the literal
    [1] is an [int], so the mask is computed in 32 bits and then converted to
    [uint64_t] for the [|=]. *)
Definition set_allocated (bitmap idx : Z) : option Z :=
  match shl_int 1 idx with
  | Some mask => Some (Z.lor bitmap (wrap64 mask))
  | None => None
  end.

End Bitmap.

(** ** class BitmapBlock *)

Module BitmapBlock.

(** The loop of [alloc_batch]: bitmaps [idx], [idx+1], ... are tried in turn
    with [alloc_all]; the first that succeeds ends the loop. *)
Fixpoint alloc_batch_from (bitmaps : list Z) (idx : Z) : list Z * Z :=
  match bitmaps with
  | [] => ([], -1)
  | w :: rest =>
      let '(w', ret) := Bitmap.alloc_all w in
      if ret <? 0 then
        let '(rest', r) := alloc_batch_from rest (idx + 1) in (w' :: rest', r)
      else (w' :: rest, Z.shiftl idx 6)
  end.

(** [int alloc_batch(int hint)] over the array [bitmaps], whose length stands
    for the bound [NUM_BITMAP] of the loop: the new array and the index of the
    first block of the batch, [-1] when no word is free. *)
Definition alloc_batch (bitmaps : list Z) (hint : Z) : list Z * Z :=
  let start := Z.to_nat (Z.shiftr hint 6) in
  let '(ws, r) := alloc_batch_from (drop start bitmaps) (Z.shiftr hint 6) in
  (take start bitmaps ++ ws, r).

(** The loop of [alloc_one]: bitmaps [idx], [idx+1], ... are tried in turn
    with [Bitmap::alloc_one]; [None] when a retry loop does not end. *)
Fixpoint alloc_one_from (bitmaps : list Z) (idx : Z) : option (list Z * Z) :=
  match bitmaps with
  | [] => Some ([], -1)
  | w :: rest =>
      '(w', ret) ← Bitmap.alloc_one w;
      if ret <? 0 then
        '(rest', r) ← alloc_one_from rest (idx + 1);
        Some (w' :: rest', r)
      else Some (w' :: rest, to_int32 (Z.shiftl idx 6 + ret))
  end.

(** [int alloc_one(int hint)] over the array [bitmaps], whose length stands
    for the bound [NUM_BITMAP] of the loop. *)
Definition alloc_one (bitmaps : list Z) (hint : Z) : option (list Z * Z) :=
  let start := Z.to_nat (Z.shiftr hint 6) in
  '(ws, r) ← alloc_one_from (drop start bitmaps) (Z.shiftr hint 6);
  Some (take start bitmaps ++ ws, r).

(** [static BlockIdx get_block_idx(BlockIdx bitmap_block_idx,
    int in_bitmap_idx)], in 32-bit unsigned arithmetic. *)
Definition get_block_idx (bitmap_block_idx in_bitmap_idx : Z) : Z :=
  if bitmap_block_idx =? 0 then wrap32 in_bitmap_idx
  else
    wrap32
      (wrap32 (Z.shiftl
                 (wrap32 (Layout.NUM_INLINE_BITMAP +
                          wrap32 (wrap32 (bitmap_block_idx - 1) *
                                  Layout.NUM_BITMAP))) 6) +
       in_bitmap_idx).

End BitmapBlock.

(** ** class MetaBlock *)

Module MetaBlock.

(** The loop of [inline_alloc_batch], [n] iterations from [idx] on, over the
    array [inline_bitmaps]; indexing the array past its end is undefined. *)
Fixpoint inline_alloc_batch_loop (n : nat) (idx : Z) (inline_bitmaps : list Z)
    : result (list Z * Z) :=
  match n with
  | O => Ok (inline_bitmaps, -1)
  | S n' =>
      match inline_bitmaps !! Z.to_nat idx with
      | None => Undefined
      | Some w =>
          let '(w', ret) := Bitmap.alloc_all w in
          let inline_bitmaps' := <[Z.to_nat idx := w']> inline_bitmaps in
          if ret <? 0 then inline_alloc_batch_loop n' (idx + 1) inline_bitmaps'
          else Ok (inline_bitmaps', Z.shiftl idx 6)
      end
  end.

(** [int inline_alloc_batch(int hint = 0)]: the loop runs while
    [idx < NUM_INLINE_TX_ENTRY]. *)
Definition inline_alloc_batch (inline_bitmaps : list Z) (hint : Z)
    : result (list Z * Z) :=
  inline_alloc_batch_loop
    (Z.to_nat (Layout.NUM_INLINE_TX_ENTRY - Z.shiftr hint 6))
    (Z.shiftr hint 6) inline_bitmaps.

End MetaBlock.

(** ** class TxLogBlock *)

Module TxLogBlock.

(** The body of the [for] loop of [try_commit], [n] iterations starting at
    [idx].  The slot array is [tx_entries]; the result is the new array and
    the returned index. *)
Fixpoint try_commit_loop (n : nat) (idx : Z) (tx_entries : list Z)
    (commit_entry : Z) : list Z * Z :=
  match n with
  | O => (tx_entries, -1)
  | S n' =>
      let slot := default 0 (tx_entries !! Z.to_nat idx) in
      if negb (slot =? 0) then
        try_commit_loop n' (idx + 1) tx_entries commit_entry
      else
        let '(slot', ok) := compare_exchange slot 0 commit_entry in
        if ok then (<[Z.to_nat idx := slot']> tx_entries, idx)
        else try_commit_loop n' (idx + 1) tx_entries commit_entry
  end.

(** [int try_commit(TxCommitEntry commit_entry, uint32_t hint_tail = 0)]:
    the loop runs while [idx < NUM_LOG_ENTRY]. *)
Definition try_commit (tx_entries : list Z) (commit_entry hint_tail : Z)
    : list Z * Z :=
  try_commit_loop (Z.to_nat (Layout.NUM_LOG_ENTRY - hint_tail)) hint_tail
    tx_entries commit_entry.

End TxLogBlock.

(** ** class Allocator (src/alloc.cpp) *)

Module Allocator.

(** Modelled from the spec: [BITMAP_CAPACITY] is declared in a header that is
    not part of the sources; a bitmap word is a 64-bit allocation unit
    covering 64 logical blocks. *)
Definition BITMAP_CAPACITY : Z := 64.

(** [operator<] of [std::pair<uint32_t, LogicalBlockIdx>]: lexicographic. *)
Definition pair_lt (x y : Z * Z) : Prop :=
  x.1 < y.1 ∨ (¬ y.1 < x.1 ∧ x.2 < y.2).

(** [!(y < x)], the order in which [std::sort] leaves its range. *)
Definition pair_le (x y : Z * Z) : Prop := ¬ pair_lt y x.

#[export] Instance pair_lt_dec x y : Decision (pair_lt x y).
Proof. unfold pair_lt. apply _. Defined.

#[export] Instance pair_le_dec x y : Decision (pair_le x y).
Proof. unfold pair_le. apply _. Defined.

(** [std::sort(first, last)] with the default comparison.  [pair_le] is a
    total order, so the sorted arrangement of a range is unique and the
    algorithm that produces it does not matter. *)
Definition std_sort (l : list (Z * Z)) : list (Z * Z) := merge_sort pair_le l.

(** [std::lower_bound(first, last, val)]: the furthermost position such that
    every element before it compares less than [val]. *)
Fixpoint lower_bound (l : list (Z * Z)) (val : Z * Z) : nat :=
  match l with
  | [] => O
  | x :: l' => if decide (pair_lt x val) then S (lower_bound l' val) else O
  end.

Record t := mk {
  free_list : list (Z * Z);       (* (count, start_lidx) *)
  recent_bitmap_idx : Z;
  bitmap : list Z                 (* the bitmap words the allocator points to *)
}.

(** Modelled from the spec: the static [Bitmap::alloc_batch(bitmap, NUM_BITMAP,
    hint)] is declared in a header that is not part of the sources.  The batch
    allocator atomically claims a full 64-block run, searching from the hint,
    and returns its first index; this is [BitmapBlock::alloc_batch] over the
    allocator's words. *)
Definition Bitmap_alloc_batch (bitmap : list Z) (hint : Z) : list Z * Z :=
  BitmapBlock.alloc_batch bitmap hint.

(** The second half of [alloc]: "then we have to allocate from global
    bitmaps". *)
Definition alloc_from_bitmap (a : t) (num_blocks : Z) : result (t * Z) :=
  let '(bitmap', r) := Bitmap_alloc_batch (bitmap a) (recent_bitmap_idx a) in
  let recent := r in
  if negb (0 <=? recent) then AssertionFailed "recent_bitmap_idx >= 0"
  else
    let allocated_idx := wrap32 recent in
    let fl :=
      if num_blocks <? BITMAP_CAPACITY then
        std_sort (free_list a ++
                  [(wrap32 (BITMAP_CAPACITY - num_blocks),
                    wrap32 (allocated_idx + num_blocks))])
      else free_list a in
    Ok (mk fl (recent + 1) bitmap', allocated_idx).

(** [LogicalBlockIdx Allocator::alloc(uint32_t num_blocks)]. *)
Definition alloc (a : t) (num_blocks : Z) : result (t * Z) :=
  if negb (num_blocks <=? BITMAP_CAPACITY) then
    AssertionFailed "num_blocks <= BITMAP_CAPACITY"
  else
    let it := lower_bound (free_list a) (num_blocks, 0) in
    match free_list a !! it with
    | Some (first, second) =>
        let idx := second in
        if idx =? 0 then AssertionFailed "idx != 0"
        else if first =? num_blocks then
          Ok (mk (delete it (free_list a)) (recent_bitmap_idx a) (bitmap a), idx)
        else if num_blocks <? first then
          let fl := <[it := (wrap32 (first - num_blocks),
                             wrap32 (second + num_blocks))]> (free_list a) in
          Ok (mk (std_sort (take (S it) fl) ++ drop (S it) fl)
                 (recent_bitmap_idx a) (bitmap a), idx)
        else alloc_from_bitmap a num_blocks
    | None => alloc_from_bitmap a num_blocks
    end.

(** [void Allocator::free(LogicalBlockIdx block_idx, uint32_t num_blocks)]. *)
Definition free (a : t) (block_idx num_blocks : Z) : t :=
  if block_idx =? 0 then a
  else mk (std_sort (free_list a ++ [(num_blocks, block_idx)]))
          (recent_bitmap_idx a) (bitmap a).

(** The [for] loop of [free(recycle_image, image_size)]: [image] is what is
    left of the array from position [curr] on. *)
Fixpoint free_image_loop (image : list Z) (curr group_begin group_begin_lidx : Z)
    (fl : list (Z * Z)) : Z * Z * list (Z * Z) :=
  match image with
  | [] => (group_begin, group_begin_lidx, fl)
  | x :: rest =>
      if group_begin_lidx =? 0 then
        if x =? 0 then
          free_image_loop rest (curr + 1) group_begin group_begin_lidx fl
        else free_image_loop rest (curr + 1) curr x fl
      else if x =? wrap32 (group_begin_lidx + wrap32 (curr - group_begin)) then
        free_image_loop rest (curr + 1) group_begin group_begin_lidx fl
      else
        let fl' := fl ++ [(wrap32 (curr - group_begin), group_begin_lidx)] in
        let group_begin_lidx' := x in
        let group_begin' :=
          if negb (group_begin_lidx' =? 0) then curr else group_begin in
        free_image_loop rest (curr + 1) group_begin' group_begin_lidx' fl'
  end.

(** [void Allocator::free(const LogicalBlockIdx recycle_image[],
    uint32_t image_size)]; the array is the list [recycle_image] and
    [image_size] its length. *)
Definition free_image (a : t) (recycle_image : list Z) : t :=
  let image_size := Z.of_nat (length recycle_image) in
  if image_size =? 0 then a
  else
    let '(group_begin, group_begin_lidx, fl) :=
      free_image_loop recycle_image 0 0 0 (free_list a) in
    let fl' :=
      if negb (group_begin_lidx =? 0) then
        fl ++ [(wrap32 (image_size - group_begin), group_begin_lidx)]
      else fl in
    mk (std_sort fl') (recent_bitmap_idx a) (bitmap a).

End Allocator.

(** ** class BlkTable (src/btable.cpp) *)

Module BlkTable.

(** Modelled from the spec: the transaction entries are decoded by [entry.h]
    and read through [TxMgr::get_entry_from_block], [advance_tx_idx],
    [handle_idx_overflow] and [LogMgr::get_coverage], none of which is part of
    the sources.  An entry slot is valid once its word is non-zero; an inline
    commit entry carries [num_blocks], [begin_vidx] and [begin_lidx]; an
    indirect one points to a log-entry chain whose coverage is a first virtual
    index, a number of blocks and the [begin_lidxs] of its runs.  The log is
    the sequence of slots in log order and the cursor an index into it. *)
Inductive TxEntry : Type :=
  | TxInvalid
  | TxCommitInline (num_blocks begin_virtual_idx begin_logical_idx : Z)
  | TxCommitIndirect (begin_virtual_idx num_blocks : Z) (begin_logical_idxs : list Z).

Definition is_valid (e : TxEntry) : bool :=
  match e with TxInvalid => false | _ => true end.

Record t := mk {
  table : list Z;          (* std::vector<LogicalBlockIdx> *)
  tail_tx_idx : nat;       (* how much of the log has been replayed *)
  marked : list Z          (* arguments of file->set_allocated, in call order *)
}.

Definition init : t := mk [] O [].

(** [std::vector::resize]: new elements are value-initialised. *)
Definition resize (n : nat) (l : list Z) : list Z :=
  take n l ++ replicate (n - length l)%nat 0.

(** [table[i] = x]; an index outside the vector is undefined ([None]). *)
Definition store (table : list Z) (i x : Z) : option (list Z) :=
  if (0 <=? i) && (i <? Z.of_nat (length table)) then
    Some (<[Z.to_nat i := x]> table)
  else None.

(** [void BlkTable::resize_to_fit(VirtualBlockIdx idx)]: [1 << ...] is an
    [int]; an undefined shift or a negative size is [None]. *)
Definition resize_to_fit (table : list Z) (idx : Z) : option (list Z) :=
  if idx <? Z.of_nat (length table) then Some table
  else
    next_pow2 ← shl_int 1 (32 - countl_zero32 idx);
    if next_pow2 <? 0 then None else Some (resize (Z.to_nat next_pow2) table).

(** [for (i = 0; i < n; ++i) table[vidx + i] = lidx + i;], from [i] on. *)
Fixpoint write_run (n : nat) (i : Z) (table : list Z) (vidx lidx : Z)
    : option (list Z) :=
  match n with
  | O => Some table
  | S n' =>
      table' ← store table (wrap32 (vidx + i)) (wrap32 (lidx + i));
      write_run n' (i + 1) table' vidx lidx
  end.

(** The values [begin_lidx + i] for [i < n]. *)
Definition run_lidxs (lidx : Z) (n : nat) : list Z :=
  (λ i, wrap32 (lidx + Z.of_nat i)) <$> seq 0 n.

(** [apply_tx(pmem::TxCommitInlineEntry, bool init_bitmap)]. *)
Definition apply_tx_inline (st : t) (num_blocks begin_vidx begin_lidx : Z)
    (init_bitmap : bool) : option t :=
  let end_vidx := wrap32 (begin_vidx + num_blocks) in
  tbl ← resize_to_fit (table st) end_vidx;
  tbl' ← write_run (Z.to_nat num_blocks) 0 tbl begin_vidx begin_lidx;
  Some (mk tbl' (tail_tx_idx st)
          (marked st ++
           if init_bitmap then run_lidxs begin_lidx (Z.to_nat num_blocks)
           else [])).

Section Indirect.

(** [MAX_BLOCKS_PER_BODY] is declared in a header that is not part of the
    sources. *)
Variable MAX_BLOCKS_PER_BODY : Z.

(** The [while (now_virtual_idx < end_virtual_idx)] loop of the indirect
    [apply_tx]; [lidxs] is [begin_logical_idxs] from [now_logical_idx_off] on,
    and reading past its end is undefined ([None]). *)
Fixpoint apply_chunks (lidxs : list Z) (now_virtual_idx end_virtual_idx : Z)
    (table : list Z) : option (list Z) :=
  match lidxs with
  | [] => if now_virtual_idx <? end_virtual_idx then None else Some table
  | lidx :: rest =>
      if now_virtual_idx <? end_virtual_idx then
        let chunk_blocks :=
          wrap16 (if wrap32 (now_virtual_idx + MAX_BLOCKS_PER_BODY) <? end_virtual_idx
                  then MAX_BLOCKS_PER_BODY
                  else wrap32 (end_virtual_idx - now_virtual_idx)) in
        table' ← write_run (Z.to_nat chunk_blocks) 0 table now_virtual_idx lidx;
        apply_chunks rest (wrap32 (now_virtual_idx + chunk_blocks))
          end_virtual_idx table'
      else Some table
  end.

(** [apply_tx(pmem::TxCommitEntry, LogMgr*, bool init_bitmap)]; the three
    values that [get_coverage] returns are the arguments. *)
Definition apply_tx_indirect (st : t) (begin_virtual_idx num_blocks : Z)
    (begin_logical_idxs : list Z) : option t :=
  let end_virtual_idx := wrap32 (begin_virtual_idx + num_blocks) in
  tbl ← resize_to_fit (table st) end_virtual_idx;
  tbl' ← apply_chunks begin_logical_idxs begin_virtual_idx end_virtual_idx tbl;
  Some (mk tbl' (tail_tx_idx st) (marked st)).

(** The [while (true)] loop of [update] over the slots from the cursor on. *)
Fixpoint replay (entries : list TxEntry) (st : t) (init_bitmap : bool)
    : option t :=
  match entries with
  | [] => Some st
  | tx_entry :: rest =>
      if negb (is_valid tx_entry) then Some st
      else
        st' ← match tx_entry with
              | TxCommitInline n v l => apply_tx_inline st n v l init_bitmap
              | TxCommitIndirect v n ls => apply_tx_indirect st v n ls
              | TxInvalid => Some st
              end;
        replay rest (mk (table st') (S (tail_tx_idx st')) (marked st'))
          init_bitmap
  end.

(** [void BlkTable::update(...)]: replays the log from the cursor, then marks
    all live data blocks when [init_bitmap] is set. *)
Definition update (log : list TxEntry) (st : t) (init_bitmap : bool)
    : option t :=
  st' ← replay (drop (tail_tx_idx st) log) st init_bitmap;
  Some (if init_bitmap
        then mk (table st') (tail_tx_idx st') (marked st' ++ table st')
        else st').

End Indirect.

(** Modelled from the spec: [BlkTable::get] is declared in a header that is
    not part of the sources; it reads [table[v]], and a virtual block that the
    table does not reach maps to 0. *)
Definition get (st : t) (virtual_block_idx : Z) : Z :=
  if (0 <=? virtual_block_idx) then
    default 0 (table st !! Z.to_nat virtual_block_idx)
  else 0.

End BlkTable.

(** ** class MemTable (mtable.h) *)

Module MemTable.

(** [LayoutParams] and [BuildOptions] are declared in [config.h], which is not
    part of the sources; their values are parameters of the model. *)
Record LayoutParams := mkLayoutParams {
  grow_unit_shift : Z;
  grow_unit_size : Z;
  prealloc_size : Z
}.

Record BuildOptions := mkBuildOptions { use_hugepage : bool }.

(** The host calls that [init] issues, in order. *)
Inductive Syscall : Type :=
  | Ftruncate (fd length : Z)
  | Mmap (length prot flags fd offset : Z).

(** What the host answers: the return value of [ftruncate] and the address
    returned by [mmap] ([-1] for [MAP_FAILED]). *)
Record Host := mkHost {
  ftruncate_ret : Z → Z → Z;
  mmap_ret : Z → Z → Z → Z → Z → Z
}.

Inductive outcome (A : Type) : Type :=
  | Returns (a : A)
  | Throws (what : string)
  | Diverges.
Arguments Returns {A} a.
Arguments Throws {A} what.
Arguments Diverges {A}.

Definition MAP_SHARED : Z := 0x01.
Definition MAP_HUGETLB : Z := 0x40000.
Definition MAP_HUGE_2MB : Z := Z.shiftl 21 26.
Definition PROT_READ : Z := 0x1.
Definition PROT_WRITE : Z := 0x2.

Record t := mk {
  meta : Z;                         (* address of the meta block *)
  fd : Z;
  num_blocks_local_copy : Z;
  meta_num_blocks : Z;              (* meta->num_blocks *)
  table : gmap Z Z                  (* LogicalBlockIdx -> address *)
}.

Section Init.

Variable params : LayoutParams.
Variable options : BuildOptions.
Variable host : Host.

Definition NUM_BLOCKS_PER_GROW : Z := grow_unit_size params / Layout.BLOCK_SIZE.

(** The loop that initialises the mapping: one grow unit per iteration. *)
Fixpoint init_mapping (fuel : nat) (idx num_blocks blocks : Z)
    (table : gmap Z Z) : option (gmap Z Z) :=
  if idx <? num_blocks then
    match fuel with
    | O => None
    | S fuel' =>
        let table' :=
          match table !! idx with
          | Some _ => table              (* emplace keeps an existing key *)
          | None => <[idx := blocks + idx * Layout.BLOCK_SIZE]> table
          end in
        init_mapping fuel' (wrap32 (idx + NUM_BLOCKS_PER_GROW)) num_blocks
          blocks table'
    end
  else Some table.

(** [pmem::MetaBlock* init(int fd, off_t file_size)]: the host calls issued
    and the outcome. *)
Definition init (fd file_size : Z) : list Syscall * outcome t :=
  if negb (IS_ALIGNED file_size Layout.BLOCK_SIZE) then
    ([], Throws "Invalid layout: non-block-aligned file size!")
  else
    let grow :=
      (file_size =? 0) || negb (IS_ALIGNED file_size (grow_unit_size params)) in
    let file_size' :=
      if grow then
        if file_size =? 0 then prealloc_size params
        else Z.shiftl (Z.shiftr file_size (grow_unit_shift params) + 1)
                      (grow_unit_shift params)
      else file_size in
    let truncates := if grow then [Ftruncate fd file_size'] else [] in
    if grow && negb (ftruncate_ret host fd file_size' =? 0) then
      (truncates, Throws "Fail to ftruncate!")
    else
      let mmap_flags :=
        if use_hugepage options
        then Z.lor MAP_SHARED (Z.lor MAP_HUGETLB MAP_HUGE_2MB)
        else MAP_SHARED in
      let prot := Z.lor PROT_READ PROT_WRITE in
      let calls := truncates ++ [Mmap file_size' prot mmap_flags fd 0] in
      let addr := mmap_ret host file_size' prot mmap_flags fd 0 in
      if addr =? -1 then (calls, Throws "Fail to mmap!")
      else
        let blocks := addr in
        let num_blocks := wrap32 (Z.shiftr file_size' Layout.BLOCK_SHIFT) in
        match init_mapping (Z.to_nat num_blocks) 0 num_blocks blocks ∅ with
        | Some table' =>
            (calls, Returns (mk blocks fd num_blocks num_blocks table'))
        | None => (calls, Diverges)
        end.

(** What [validate] and [get_addr] do, in order: host calls and the taking
    and releasing of the meta lock. *)
Inductive Action : Type :=
  | HostCall (c : Syscall)
  | MetaLock
  | MetaUnlock.

Definition GROW_UNIT_IN_BLOCK_SHIFT : Z :=
  wrap32 (grow_unit_shift params - Layout.BLOCK_SHIFT).

Definition GROW_UNIT_IN_BLOCK_MASK : Z :=
  wrap32 (Z.shiftl 1 GROW_UNIT_IN_BLOCK_SHIFT - 1).

(** [void grow_no_lock(pmem::LogicalBlockIdx idx)]. *)
Definition grow_no_lock (m : t) (idx : Z) : list Action * outcome t :=
  if idx <? meta_num_blocks m then ([], Returns m)
  else
    let new_num_blocks :=
      wrap32 (Z.shiftl (wrap32 (Z.shiftr idx (grow_unit_shift params) + 1))
                       (grow_unit_shift params)) in
    let length := Z.shiftl new_num_blocks Layout.BLOCK_SHIFT in
    let ret := ftruncate_ret host (fd m) length in
    if negb (ret =? 0) then
      ([HostCall (Ftruncate (fd m) length)], Throws "Fail to ftruncate!")
    else
      ([HostCall (Ftruncate (fd m) length)],
       Returns (mk (meta m) (fd m) (num_blocks_local_copy m) new_num_blocks
                   (table m))).

(** [void validate(pmem::LogicalBlockIdx idx)]. *)
Definition validate (m : t) (idx : Z) : list Action * outcome t :=
  if idx <? num_blocks_local_copy m then ([], Returns m)
  else
    let m1 := mk (meta m) (fd m) (meta_num_blocks m) (meta_num_blocks m)
                 (table m) in
    if idx <? num_blocks_local_copy m1 then ([], Returns m1)
    else
      match grow_no_lock m1 idx with
      | (acts, Returns m2) => (MetaLock :: acts ++ [MetaUnlock], Returns m2)
      | (acts, Throws what) => (MetaLock :: acts, Throws what)
      | (acts, Diverges) => (MetaLock :: acts, Diverges)
      end.

(** [pmem::Block* get_addr(pmem::LogicalBlockIdx idx)]: the actions, and the
    table and the address returned.  Adding [n] to a [Block*] moves it by [n]
    blocks. *)
Definition get_addr (m : t) (idx : Z) : list Action * outcome (t * Z) :=
  let hugepage_idx := Z.land idx (wrap32 (Z.lnot GROW_UNIT_IN_BLOCK_MASK)) in
  let offset :=
    wrap32 (Z.shiftl (Z.land idx GROW_UNIT_IN_BLOCK_MASK) Layout.BLOCK_SHIFT) in
  match table m !! hugepage_idx with
  | Some base => ([], Returns (m, base + offset * Layout.BLOCK_SIZE))
  | None =>
      match validate m idx with
      | (acts, Returns m1) =>
          let hugepage_size := Z.shiftl hugepage_idx Layout.BLOCK_SHIFT in
          let mmap_flags :=
            if use_hugepage options
            then Z.lor MAP_SHARED (Z.lor MAP_HUGETLB MAP_HUGE_2MB)
            else MAP_SHARED in
          let prot := Z.lor PROT_READ PROT_WRITE in
          let call :=
            Mmap (prealloc_size params) prot mmap_flags (fd m1) hugepage_size in
          let addr :=
            mmap_ret host (prealloc_size params) prot mmap_flags (fd m1)
              hugepage_size in
          if addr =? -1 then (acts ++ [HostCall call], Throws "Fail to mmap!")
          else
            let hugepage_blocks := addr in
            (acts ++ [HostCall call],
             Returns (mk (meta m1) (fd m1) (num_blocks_local_copy m1)
                         (meta_num_blocks m1)
                         (<[hugepage_idx := hugepage_blocks]> (table m1)),
                      hugepage_blocks + offset * Layout.BLOCK_SIZE))
      | (acts, Throws what) => (acts, Throws what)
      | (acts, Diverges) => (acts, Diverges)
      end
  end.

End Init.

End MemTable.

(** ** class File (file.h part of tools/from_ulayfs.cpp) *)

Module File.

(** The file as one mapping that starts at address 0, so that an address is a
    byte offset into the backing file and logical block [lidx] is at
    [lidx * BLOCK_SIZE].  The addresses that [MemTable::get_addr] of mtable.h
    returns, its host calls and its exceptions are in [MappedFile] below,
    which runs the same methods over [MemTable.get_addr].

    What a call leaves behind, in program order: *)
Inductive Event : Type :=
  | EvBeginTx (start_virtual_idx num_blocks : Z)
  | EvAlloc (num_blocks lidx : Z)
  | EvCopy (dst src len : Z)                  (* memcpy between blocks *)
  | EvStore (dst : Z) (bytes : list Z)        (* memcpy from the user buffer *)
  | EvPersistFenced (addr len : Z)
  | EvWriteLogEntry (start_virtual_idx start_logical_idx num_blocks last_remaining : Z)
  | EvCommitTx (tx_begin_idx log_entry_idx : Z)
  | EvUpdate.

(** The four fields of the log entry that [write_log_entry] receives. *)
Record LogEntry := mkLogEntry {
  file_offset : Z;
  block_offset : Z;
  size : Z;
  last_remaining : Z
}.

Record t := mk {
  mem : gmap Z Z;                      (* bytes of the blocks; absent is 0.
                                          The bitmaps, log entries and tx
                                          entries of the same mapping are the
                                          three fields below *)
  blk_table : BlkTable.t;
  allocator : Allocator.t;
  log_entries : list LogEntry;         (* tx_mgr: the log entries written *)
  tx_log : list BlkTable.TxEntry;      (* tx_mgr: the transaction log *)
  trace : list Event
}.

Definition emit (f : t) (e : Event) : t :=
  mk (mem f) (blk_table f) (allocator f) (log_entries f) (tx_log f)
     (trace f ++ [e]).

Definition set_mem (f : t) (m : gmap Z Z) : t :=
  mk m (blk_table f) (allocator f) (log_entries f) (tx_log f) (trace f).

(** [mem_table.get_addr(lidx)->data] for the file as one mapping at address
    0: the byte offset of the block.  [MemTable.get_addr] is the method of
    mtable.h, which [MappedFile.get_addr] calls; the two agree on the bytes
    of one block, not on where the next block is. *)
Definition get_addr (lidx : Z) : Z := lidx * Layout.BLOCK_SIZE.

Definition load (m : gmap Z Z) (addr : Z) : Z := default 0 (m !! addr).

Definition read_bytes (m : gmap Z Z) (addr : Z) (n : nat) : list Z :=
  (λ k, load m (addr + Z.of_nat k)) <$> seq 0 n.

(** [memcpy(dst, buf, |buf|)] from a buffer outside the mapping. *)
Fixpoint store_bytes (m : gmap Z Z) (dst : Z) (bytes : list Z) : gmap Z Z :=
  match bytes with
  | [] => m
  | b :: rest => store_bytes (<[dst := b]> m) (dst + 1) rest
  end.

(** [memcpy(dst, src, len)] inside the mapping (the ranges do not overlap). *)
Definition memcpy (m : gmap Z Z) (dst src : Z) (len : nat) : gmap Z Z :=
  store_bytes m dst (read_bytes m src len).

(** [void write_data(buf, count, local_offset, start_virtual_idx,
    start_logical_idx)]; [buf] is the list of its [count] bytes. *)
Definition write_data (f : t) (buf : list Z) (count local_offset
    start_virtual_idx start_logical_idx : Z) : t :=
  let dst := get_addr start_logical_idx in
  let f1 :=
    if negb (local_offset =? 0) then
      let src_idx := BlkTable.get (blk_table f) start_virtual_idx in
      let src := get_addr src_idx in
      emit (set_mem f (memcpy (mem f) dst src (Z.to_nat local_offset)))
           (EvCopy dst src local_offset)
    else f in
  let f2 :=
    emit (set_mem f1 (store_bytes (mem f1) (dst + local_offset) buf))
         (EvStore (dst + local_offset) buf) in
  emit f2 (EvPersistFenced dst (wrap64 (count + local_offset))).

(** [char* get_data_block_ptr(VirtualBlockIdx virtual_block_idx)]. *)
Definition get_data_block_ptr (f : t) (virtual_block_idx : Z) : result Z :=
  let logical_block_idx := BlkTable.get (blk_table f) virtual_block_idx in
  if logical_block_idx =? 0 then AssertionFailed "logical_block_idx != 0"
  else Ok (get_addr logical_block_idx).

(** Modelled from the spec: [TxMgr::begin_tx], [write_log_entry] and
    [commit_tx] of this version are declared in [tx.h], which is not part of
    the sources.  A transaction is begun, its log entry written, and the
    commit entry that makes it visible is stored into the transaction log;
    the committed mapping is replayed by the block table as one run. *)
Definition begin_tx (f : t) (start_virtual_idx num_blocks : Z) : t * Z :=
  (emit f (EvBeginTx start_virtual_idx num_blocks),
   Z.of_nat (length (tx_log f))).

Definition write_log_entry (f : t) (start_virtual_idx start_logical_idx
    num_blocks last_remaining : Z) : t * Z :=
  let e := mkLogEntry start_virtual_idx start_logical_idx num_blocks
             last_remaining in
  let f' := mk (mem f) (blk_table f) (allocator f) (log_entries f ++ [e])
              (tx_log f) (trace f) in
  (emit f' (EvWriteLogEntry start_virtual_idx start_logical_idx num_blocks
              last_remaining),
   Z.of_nat (length (log_entries f))).

Definition commit_tx (f : t) (tx_begin_idx log_entry_idx : Z) : t :=
  let entry :=
    match log_entries f !! Z.to_nat log_entry_idx with
    | Some e => BlkTable.TxCommitInline (size e) (file_offset e) (block_offset e)
    | None => BlkTable.TxInvalid
    end in
  let f' := mk (mem f) (blk_table f) (allocator f) (log_entries f)
              (tx_log f ++ [entry]) (trace f) in
  emit f' (EvCommitTx tx_begin_idx log_entry_idx).

Section WithBody.

Variable MAX_BLOCKS_PER_BODY : Z.

(** [ssize_t overwrite(const void* buf, size_t count, size_t offset)]: the
    file after the call and the value returned; when the call does not return,
    the file is the one that it had reached. *)
Definition overwrite (f : t) (buf : list Z) (count offset : Z) : t * result Z :=
  let start_virtual_idx := wrap32 (ALIGN_DOWN offset Layout.BLOCK_SIZE) in
  let local_offset :=
    wrap64 (offset - wrap32 (start_virtual_idx * Layout.BLOCK_SIZE)) in
  let num_blocks :=
    wrap32 (Z.shiftr (ALIGN_UP (wrap64 (count + local_offset)) Layout.BLOCK_SIZE)
                     Layout.BLOCK_SHIFT) in
  let '(f1, tx_begin_idx) := begin_tx f start_virtual_idx num_blocks in
  match Allocator.alloc (allocator f1) num_blocks with
  | Ok (a', start_logical_idx) =>
      let f2 :=
        emit (mk (mem f1) (blk_table f1) a' (log_entries f1) (tx_log f1)
                 (trace f1))
             (EvAlloc num_blocks start_logical_idx) in
      let f3 :=
        write_data f2 buf count local_offset start_virtual_idx
          start_logical_idx in
      let last_remaining :=
        wrap16 (wrap32 (num_blocks * Layout.BLOCK_SIZE) - count - local_offset) in
      let '(f4, log_entry_idx) :=
        write_log_entry f3 start_virtual_idx start_logical_idx num_blocks
          last_remaining in
      let f5 := commit_tx f4 tx_begin_idx log_entry_idx in
      let f6 := emit f5 EvUpdate in
      match BlkTable.update MAX_BLOCKS_PER_BODY (tx_log f6) (blk_table f6) false
      with
      | Some bt =>
          (mk (mem f6) bt (allocator f6) (log_entries f6) (tx_log f6) (trace f6),
           Ok count)
      | None => (f6, Undefined)
      end
  | AssertionFailed what => (f1, AssertionFailed what)
  | Undefined => (f1, Undefined)
  end.

End WithBody.

(** The [for] loop of [pread], [n] iterations from [i] on; the result is what
    the loop appends to [buf]. *)
Fixpoint pread_loop (f : t) (n : nat) (i : Z) (start_virtual_idx local_offset
    num_blocks last_remaining : Z) : result (list Z) :=
  match n with
  | O => Ok []
  | S n' =>
      let num_bytes := Layout.BLOCK_SIZE in
      let num_bytes :=
        if i =? 0 then wrap64 (num_bytes - local_offset) else num_bytes in
      let num_bytes :=
        if i =? wrap32 (num_blocks - 1) then wrap64 (num_bytes - last_remaining)
        else num_bytes in
      match get_data_block_ptr f (wrap32 (start_virtual_idx + i)) with
      | Ok ptr =>
          let src := if i =? 0 then ptr + local_offset else ptr in
          let chunk := read_bytes (mem f) src (Z.to_nat num_bytes) in
          match pread_loop f n' (i + 1) start_virtual_idx local_offset
                  num_blocks last_remaining with
          | Ok rest => Ok (chunk ++ rest)
          | AssertionFailed w => AssertionFailed w
          | Undefined => Undefined
          end
      | AssertionFailed w => AssertionFailed w
      | Undefined => Undefined
      end
  end.

(** [ssize_t pread(void* buf, size_t count, off_t offset)]: the bytes left in
    [buf]. *)
Definition pread (f : t) (count offset : Z) : result (list Z) :=
  let start_virtual_idx := wrap32 (ALIGN_DOWN offset Layout.BLOCK_SIZE) in
  let local_offset :=
    wrap64 (offset - wrap32 (start_virtual_idx * Layout.BLOCK_SIZE)) in
  let num_blocks :=
    wrap32 (Z.shiftr (ALIGN_UP (wrap64 (count + local_offset)) Layout.BLOCK_SIZE)
                     Layout.BLOCK_SHIFT) in
  let last_remaining :=
    wrap16 (wrap32 (num_blocks * Layout.BLOCK_SIZE) - count - local_offset) in
  pread_loop f (Z.to_nat num_blocks) 0 start_virtual_idx local_offset
    num_blocks last_remaining.

(** A file as [open] leaves a new one: block 0 holds the meta block, with the
    signature at its start and bit 0 of the first inline bitmap, two cache
    lines further, set ([MetaBlock::init]); nothing is committed. *)
Definition fresh : t :=
  mk (store_bytes (store_bytes ∅ 0 [85; 76; 65; 89; 70; 83; 0])
        (2 * Layout.CACHELINE_SIZE) [1])
     BlkTable.init
     (Allocator.mk [] 0 (1 :: replicate 15 0))
     [] [] [].

End File.

(** ** class File over the memory table (file.h with mtable.h)

    [File::write_data], [File::overwrite] and [File::pread] with the
    addresses that [MemTable::get_addr] returns, the mappings that it makes
    and the exceptions that it throws, and with the bytes that have become
    durable: a computation takes the file from state to state, lists the
    states that it goes through, and either returns or ends in an assertion,
    an exception, undefined behaviour or a wait that never ends. *)

Module MappedFile.

Record t := mk {
  mem_table : MemTable.t;
  regions : list (Z * Z);            (* the mappings: address and length *)
  mem : gmap Z Z;                    (* bytes by address; absent is 0 *)
  durable : gmap Z Z;                (* bytes known to be in persistent memory *)
  (* the bitmaps, log entries and tx entries, which the code keeps in the
     same mappings, are the fields below and not bytes of [mem] *)
  blk_table : BlkTable.t;
  allocator : Allocator.t;
  log_entries : list File.LogEntry;  (* tx_mgr: the log entries written *)
  tx_log : list BlkTable.TxEntry     (* tx_mgr: the transaction log *)
}.

(** How a call ends when it does not return. *)
Inductive Ending : Type :=
  | Asserted (what : string)         (* an [assert] whose condition is false *)
  | Thrown (what : string)           (* a [std::runtime_error] *)
  | UndefinedBehaviour               (* an access outside the mappings and the like *)
  | Diverged.

(** A computation on the file: the states that it goes through, one after
    each effect and in order, and its value with the last state, or how it
    ended. *)
Definition M (A : Type) : Type := t -> list t * (A * t + Ending).

#[export] Instance M_ret : MRet M := fun A a f => ([], inl (a, f)).

#[export] Instance M_bind : MBind M := fun A B k m f =>
  match m f with
  | (states, inl (a, f')) =>
      let '(states', r) := k a f' in (states ++ states', r)
  | (states, inr e) => (states, inr e)
  end.

Definition gets {A : Type} (g : t -> A) : M A := fun f => ([], inl (g f, f)).
Definition modify (g : t -> t) : M unit := fun f => ([g f], inl (tt, g f)).
Definition stop {A : Type} (e : Ending) : M A := fun _ => ([], inr e).

(** The range [addr, addr + len) lies in one of the mappings; an empty range
    is not accessed. *)
Definition accessible (rs : list (Z * Z)) (addr len : Z) : bool :=
  (len <=? 0) ||
  existsb (fun r => (r.1 <=? addr) && (addr + len <=? r.1 + r.2)) rs.

Definition set_mem_table (mt : MemTable.t) (rs : list (Z * Z)) (f : t) : t :=
  mk mt rs (mem f) (durable f) (blk_table f) (allocator f) (log_entries f)
     (tx_log f).

Definition set_bytes (m d : gmap Z Z) (f : t) : t :=
  mk (mem_table f) (regions f) m d (blk_table f) (allocator f) (log_entries f)
     (tx_log f).

(** A store makes the byte's durable value unknown until it is persisted. *)
Fixpoint forget (d : gmap Z Z) (addr : Z) (n : nat) : gmap Z Z :=
  match n with
  | O => d
  | S n' => forget (delete addr d) (addr + 1) n'
  end.

Fixpoint flush (m d : gmap Z Z) (addr : Z) (n : nat) : gmap Z Z :=
  match n with
  | O => d
  | S n' => flush m (<[addr := File.load m addr]> d) (addr + 1) n'
  end.

(** [memcpy(dst, bytes, |bytes|)] from a buffer outside the mappings. *)
Definition store (dst : Z) (bytes : list Z) : M unit :=
  f ← gets id;
  if negb (accessible (regions f) dst (Z.of_nat (length bytes)))
  then stop UndefinedBehaviour
  else modify (set_bytes (File.store_bytes (mem f) dst bytes)
                         (forget (durable f) dst (length bytes))).

(** [memcpy(dst, src, len)] between mapped blocks; ranges that overlap are
    undefined. *)
Definition memcpy (dst src len : Z) : M unit :=
  f ← gets id;
  if negb (accessible (regions f) src len) then stop UndefinedBehaviour
  else if (0 <? len) && (src <? dst + len) && (dst <? src + len)
  then stop UndefinedBehaviour
  else store dst (File.read_bytes (mem f) src (Z.to_nat len)).

(** Modelled from the spec: [pmem::persist_fenced] is declared in a header
    that is not part of the sources.  Stores are made durable by a cache-line
    flush and a fence: when it returns, the bytes of the range are in
    persistent memory. *)
Definition persist_fenced (addr len : Z) : M unit :=
  f ← gets id;
  if negb (accessible (regions f) addr len) then stop UndefinedBehaviour
  else modify (set_bytes (mem f) (flush (mem f) (durable f) addr (Z.to_nat len))).

Section WithConfig.

Variable params : MemTable.LayoutParams.
Variable options : MemTable.BuildOptions.
Variable host : MemTable.Host.
Variable MAX_BLOCKS_PER_BODY : Z.

(** The mappings that the host calls of [get_addr] have made. *)
Definition mapped_by (acts : list MemTable.Action) : list (Z * Z) :=
  flat_map (fun a =>
              match a with
              | MemTable.HostCall (MemTable.Mmap len prot flags fd off) =>
                  [(MemTable.mmap_ret host len prot flags fd off, len)]
              | _ => []
              end) acts.

(** [mem_table.get_addr(lidx)->data]. *)
Definition get_addr (lidx : Z) : M Z := fun f =>
  match MemTable.get_addr params options host (mem_table f) lidx with
  | (acts, MemTable.Returns (mt, addr)) =>
      let f' := set_mem_table mt (regions f ++ mapped_by acts) f in
      ([f'], inl (addr, f'))
  | (_, MemTable.Throws what) => ([], inr (Thrown what))
  | (_, MemTable.Diverges) => ([], inr Diverged)
  end.

(** [void write_data(buf, count, local_offset, start_virtual_idx,
    start_logical_idx)]; [buf] holds the bytes of the caller's buffer, and
    reading more of them than there are is undefined. *)
Definition write_data (buf : list Z) (count local_offset start_virtual_idx
    start_logical_idx : Z) : M unit :=
  dst ← get_addr start_logical_idx;
  (if negb (local_offset =? 0) then
     src_idx ← gets (fun f => BlkTable.get (blk_table f) start_virtual_idx);
     src ← get_addr src_idx;
     memcpy dst src local_offset
   else mret tt);;
  (if Z.of_nat (length buf) <? count then stop UndefinedBehaviour
   else store (dst + local_offset) (take (Z.to_nat count) buf));;
  persist_fenced dst (wrap64 (count + local_offset)).

(** [allocator.alloc(num_blocks)]. *)
Definition alloc (num_blocks : Z) : M Z := fun f =>
  match Allocator.alloc (allocator f) num_blocks with
  | Ok (a, lidx) =>
      let f' := mk (mem_table f) (regions f) (mem f) (durable f) (blk_table f)
                   a (log_entries f) (tx_log f) in
      ([f'], inl (lidx, f'))
  | AssertionFailed what => ([], inr (Asserted what))
  | Undefined => ([], inr UndefinedBehaviour)
  end.

(** Modelled from the spec: [TxMgr::begin_tx], [write_log_entry] and
    [commit_tx] of this version are declared in [tx.h], which is not part of
    the sources.  A transaction is begun, its log entry written, and the
    commit entry that makes it visible is stored into the transaction log;
    the committed mapping is replayed by the block table as one run. *)
Definition begin_tx (start_virtual_idx num_blocks : Z) : M Z :=
  gets (fun f => Z.of_nat (length (tx_log f))).

Definition write_log_entry (start_virtual_idx start_logical_idx num_blocks
    last_remaining : Z) : M Z :=
  idx ← gets (fun f => Z.of_nat (length (log_entries f)));
  modify (fun f =>
            mk (mem_table f) (regions f) (mem f) (durable f) (blk_table f)
               (allocator f)
               (log_entries f ++
                [File.mkLogEntry start_virtual_idx start_logical_idx num_blocks
                   last_remaining])
               (tx_log f));;
  mret idx.

Definition commit_tx (tx_begin_idx log_entry_idx : Z) : M unit :=
  modify (fun f =>
            let entry :=
              match log_entries f !! Z.to_nat log_entry_idx with
              | Some e =>
                  BlkTable.TxCommitInline (File.size e) (File.file_offset e)
                    (File.block_offset e)
              | None => BlkTable.TxInvalid
              end in
            mk (mem_table f) (regions f) (mem f) (durable f) (blk_table f)
               (allocator f) (log_entries f) (tx_log f ++ [entry])).

(** [blk_table.update()]. *)
Definition update : M unit := fun f =>
  match BlkTable.update MAX_BLOCKS_PER_BODY (tx_log f) (blk_table f) false with
  | Some bt =>
      let f' := mk (mem_table f) (regions f) (mem f) (durable f) bt
                   (allocator f) (log_entries f) (tx_log f) in
      ([f'], inl (tt, f'))
  | None => ([], inr UndefinedBehaviour)
  end.

(** [ssize_t overwrite(const void* buf, size_t count, size_t offset)]. *)
Definition overwrite (buf : list Z) (count offset : Z) : M Z :=
  let start_virtual_idx := wrap32 (ALIGN_DOWN offset Layout.BLOCK_SIZE) in
  let local_offset :=
    wrap64 (offset - wrap32 (start_virtual_idx * Layout.BLOCK_SIZE)) in
  let num_blocks :=
    wrap32 (Z.shiftr (ALIGN_UP (wrap64 (count + local_offset)) Layout.BLOCK_SIZE)
                     Layout.BLOCK_SHIFT) in
  tx_begin_idx ← begin_tx start_virtual_idx num_blocks;
  start_logical_idx ← alloc num_blocks;
  write_data buf count local_offset start_virtual_idx start_logical_idx;;
  let last_remaining :=
    wrap16 (wrap32 (num_blocks * Layout.BLOCK_SIZE) - count - local_offset) in
  log_entry_idx ← write_log_entry start_virtual_idx start_logical_idx
                    num_blocks last_remaining;
  commit_tx tx_begin_idx log_entry_idx;;
  update;;
  mret (to_int64 count).

(** [char* get_data_block_ptr(VirtualBlockIdx virtual_block_idx)]. *)
Definition get_data_block_ptr (virtual_block_idx : Z) : M Z :=
  logical_block_idx ← gets (fun f => BlkTable.get (blk_table f) virtual_block_idx);
  if logical_block_idx =? 0 then stop (Asserted "logical_block_idx != 0")
  else get_addr logical_block_idx.

(** [memcpy(dst, src, num_bytes)] into the caller's buffer: the bytes read. *)
Definition load_bytes (src num_bytes : Z) : M (list Z) :=
  f ← gets id;
  if negb (accessible (regions f) src num_bytes) then stop UndefinedBehaviour
  else mret (File.read_bytes (mem f) src (Z.to_nat num_bytes)).

(** The [for] loop of [pread], [n] iterations from [i] on; the result is what
    the loop appends to [buf]. *)
Fixpoint pread_loop (n : nat) (i : Z) (start_virtual_idx local_offset
    num_blocks last_remaining : Z) : M (list Z) :=
  match n with
  | O => mret []
  | S n' =>
      let num_bytes := Layout.BLOCK_SIZE in
      let num_bytes :=
        if i =? 0 then wrap64 (num_bytes - local_offset) else num_bytes in
      let num_bytes :=
        if i =? wrap32 (num_blocks - 1) then wrap64 (num_bytes - last_remaining)
        else num_bytes in
      ptr ← get_data_block_ptr (wrap32 (start_virtual_idx + i));
      let src := if i =? 0 then ptr + local_offset else ptr in
      chunk ← load_bytes src num_bytes;
      rest ← pread_loop n' (i + 1) start_virtual_idx local_offset num_blocks
               last_remaining;
      mret (chunk ++ rest)
  end.

(** [ssize_t pread(void* buf, size_t count, off_t offset)]: the bytes left in
    [buf]. *)
Definition pread (count offset : Z) : M (list Z) :=
  let start_virtual_idx := wrap32 (ALIGN_DOWN offset Layout.BLOCK_SIZE) in
  let local_offset :=
    wrap64 (offset - wrap32 (start_virtual_idx * Layout.BLOCK_SIZE)) in
  let num_blocks :=
    wrap32 (Z.shiftr (ALIGN_UP (wrap64 (count + local_offset)) Layout.BLOCK_SIZE)
                     Layout.BLOCK_SHIFT) in
  let last_remaining :=
    wrap16 (wrap32 (num_blocks * Layout.BLOCK_SIZE) - count - local_offset) in
  pread_loop (Z.to_nat num_blocks) 0 start_virtual_idx local_offset
    num_blocks last_remaining.

End WithConfig.

End MappedFile.

(** ** class TxMgr (src/tx/mgr.cpp) *)

Module TxMgr.

(** The transaction classes are declared in headers that are not part of the
    sources; a transaction is the class that is run and its arguments. *)
Inductive TxClass : Type := ReadTx | AlignedTx | SingleBlockTx | MultiBlockTx.

Record Tx := mkTx {
  tx_class : TxClass;
  tx_count : Z;
  tx_offset : Z;
  tx_ticket : option Z
}.

(** What [file->update_with_offset] hands back: the ticket and the offset. *)
Record OffsetGrant := mkGrant { ticket : Z; offset : Z }.

(** [ssize_t TxMgr::do_read(char* buf, size_t count)]. *)
Definition do_read (grant : OffsetGrant) (count : Z) : Tx :=
  mkTx ReadTx count (offset grant) (Some (ticket grant)).

(** [ssize_t TxMgr::do_write(const char* buf, size_t count)]. *)
Definition do_write (grant : OffsetGrant) (count : Z) : Tx :=
  let offset := offset grant in
  if (count mod Layout.BLOCK_SIZE =? 0) && (offset mod Layout.BLOCK_SIZE =? 0)
  then mkTx AlignedTx count offset (Some (ticket grant))
  else if BLOCK_SIZE_TO_IDX offset =? BLOCK_SIZE_TO_IDX (wrap64 (offset + count - 1))
  then mkTx SingleBlockTx count offset (Some (ticket grant))
  else mkTx MultiBlockTx count offset (Some (ticket grant)).

(** [ssize_t TxMgr::do_pread(char* buf, size_t count, size_t offset)]. *)
Definition do_pread (count offset : Z) : Tx :=
  mkTx ReadTx count offset None.

(** [ssize_t TxMgr::do_pwrite(const char* buf, size_t count, size_t offset)]. *)
Definition do_pwrite (count offset : Z) : Tx :=
  if (count mod Layout.BLOCK_SIZE =? 0) && (offset mod Layout.BLOCK_SIZE =? 0)
  then mkTx AlignedTx count offset None
  else if BLOCK_SIZE_TO_IDX offset =? BLOCK_SIZE_TO_IDX (wrap64 (offset + count - 1))
  then mkTx SingleBlockTx count offset None
  else mkTx MultiBlockTx count offset None.

End TxMgr.

(** ** The library entry points (lib.cpp) *)

Module Lib.

(** Where an entry point sends a request. *)
Inductive Callee : Type :=
  | PosixWrite (fd : Z) (buf : list Z) (count : Z)
  | PosixRead (fd : Z) (count : Z)
  | RunTx (fd : Z) (tx : TxMgr.Tx).

Record Call := mkCall {
  printed : list (string * Z);     (* debug output: format and argument *)
  callee : Callee
}.

(** The line feed that ends the two format strings. *)
Definition newline : string := String (Ascii.ascii_of_nat 10) EmptyString.

(** [ssize_t write(int fd, const void *buf, size_t count)]. *)
Definition write (debug : bool) (fd : Z) (buf : list Z) (count : Z) : Call :=
  mkCall (if debug
          then [(String.append "write:count:%lu" newline, count)] else [])
         (PosixWrite fd buf count).

(** [ssize_t read(int fd, void *buf, size_t count)]. *)
Definition read (debug : bool) (fd : Z) (count : Z) : Call :=
  mkCall (if debug
          then [(String.append "read:count:%lu" newline, count)] else [])
         (PosixRead fd count).

End Lib.

(** ** class PerThreadData and class ShmMgr (shm.h) *)

Module Shm.

Inductive State : Type := UNINITIALIZED | INITIALIZING | INITIALIZED.

(** The fields of a slot; [mutex_initialized] records whether
    [pthread_mutex_init] has been called on [mutex] and not yet
    [pthread_mutex_destroy]. *)
Record PerThreadData := mkPerThreadData {
  state : State;
  mutex_initialized : bool;
  index : Z;
  tx_block_idx : Z
}.

(** [state.compare_exchange_strong(expected, desired)]. *)
Definition compare_exchange_strong (d : PerThreadData) (expected desired : State)
    : PerThreadData * bool :=
  match state d, expected with
  | UNINITIALIZED, UNINITIALIZED
  | INITIALIZING, INITIALIZING
  | INITIALIZED, INITIALIZED =>
      (mkPerThreadData desired (mutex_initialized d) (index d) (tx_block_idx d),
       true)
  | _, _ => (d, false)
  end.

(** [bool try_init(size_t i)]. *)
Definition try_init (d : PerThreadData) (i : Z) : PerThreadData * bool :=
  let '(d1, ok) := compare_exchange_strong d UNINITIALIZED INITIALIZING in
  if negb ok then (d1, false)
  else
    let d2 := mkPerThreadData (state d1) (mutex_initialized d1) i 0 in
    let d3 := mkPerThreadData (state d2) true (index d2) (tx_block_idx d2) in
    (mkPerThreadData INITIALIZED (mutex_initialized d3) (index d3)
       (tx_block_idx d3), true).

(** [void reset()]. *)
Definition reset (d : PerThreadData) : PerThreadData :=
  mkPerThreadData UNINITIALIZED false (index d) (tx_block_idx d).

(** What [alloc_per_thread_data] does with the meta lock, and how it ends. *)
Inductive LockEvent : Type := Lock | Unlock.

Inductive Ending : Type :=
  | Returned (slot : Z)
  | Panic (what : string).

(** The [for] loop of [alloc_per_thread_data] from slot [i] on. *)
Fixpoint alloc_loop (slots : list PerThreadData) (i : Z)
    : list PerThreadData * option Z :=
  match slots with
  | [] => ([], None)
  | d :: rest =>
      let '(d', success) := try_init d i in
      if success then (d' :: rest, Some i)
      else
        let '(rest', r) := alloc_loop rest (i + 1) in (d' :: rest', r)
  end.

(** [PerThreadData* alloc_per_thread_data() const] over the slots of the
    shared region, whose number stands for the bound [MAX_NUM_THREADS] of the
    loop ([const.h] is not part of the sources): the lock events in order,
    the slots afterwards, and the slot returned or the panic. *)
Definition alloc_per_thread_data (slots : list PerThreadData)
    : list LockEvent * list PerThreadData * Ending :=
  let '(slots', r) := alloc_loop slots 0 in
  match r with
  | Some i => ([Lock], slots', Returned i)
  | None => ([Lock; Unlock], slots', Panic "No empty per-thread data")
  end.

End Shm.

(** * Vocabulary of the properties *)

Definition uint32 (x : Z) : Prop := 0 <= x < 2 ^ 32.

(** ** Bitmap *)

(** The lowest free (zero) bit of a bitmap word, and the word and index that
    allocating it yields. *)
Definition lowest_free_bit (b : Z) : Z := countr_zero (not64 b).

Definition alloc_lowest_free (b : Z) : Z * Z :=
  (Z.lor b (Z.shiftl 1 (lowest_free_bit b)), lowest_free_bit b).

(** ** Allocator *)

Definition entry_typed (p : Z * Z) : Prop := uint32 p.1 /\ uint32 p.2.

(** The free list is sorted and holds 32-bit values. *)
Definition well_formed (a : Allocator.t) : Prop :=
  Sorted Allocator.pair_le (Allocator.free_list a) /\
  Forall entry_typed (Allocator.free_list a).

(** The operations that modify the free list. *)
Inductive Op : Type :=
  | OpAlloc (num_blocks : Z)
  | OpFree (block_idx num_blocks : Z)
  | OpFreeImage (recycle_image : list Z).

Definition op_typed (op : Op) : Prop :=
  match op with
  | OpAlloc n => uint32 n
  | OpFree lidx n => uint32 lidx /\ uint32 n
  | OpFreeImage image => Forall uint32 image
  end.

Definition step (a : Allocator.t) (op : Op) : result Allocator.t :=
  match op with
  | OpAlloc n =>
      match Allocator.alloc a n with
      | Ok (a', _) => Ok a'
      | AssertionFailed what => AssertionFailed what
      | Undefined => Undefined
      end
  | OpFree lidx n => Ok (Allocator.free a lidx n)
  | OpFreeImage image => Ok (Allocator.free_image a image)
  end.

(** The operations in turn, as long as they return. *)
Fixpoint run (a : Allocator.t) (ops : list Op) : result Allocator.t :=
  match ops with
  | [] => Ok a
  | op :: rest =>
      match step a op with
      | Ok a' => run a' rest
      | AssertionFailed what => AssertionFailed what
      | Undefined => Undefined
      end
  end.

(** Word [k] is the first free (zero) word at or after word [start]. *)
Definition first_free_word (bitmap : list Z) (start k : nat) : Prop :=
  (start <= k)%nat /\ bitmap !! k = Some 0 /\
  forall j, (start <= j < k)%nat -> bitmap !! j <> Some 0.

(** [alloc] when the free list has an entry of at least [n] blocks: [(c, s)]
    is the least such entry (a run of data blocks: [s] is not block 0). *)
Definition alloc_hit (a : Allocator.t) (n : Z) : Prop :=
  forall c s,
    (c, s) ∈ Allocator.free_list a -> n <= c -> s <> 0 ->
    (forall p, p ∈ Allocator.free_list a -> n <= p.1 ->
               Allocator.pair_le (c, s) p) ->
    exists a' i,
      Allocator.alloc a n = Ok (a', s) /\
      Allocator.bitmap a' = Allocator.bitmap a /\
      Allocator.recent_bitmap_idx a' = Allocator.recent_bitmap_idx a /\
      Allocator.free_list a !! i = Some (c, s) /\
      (c = n -> Allocator.free_list a' = delete i (Allocator.free_list a)) /\
      (n < c ->
         Sorted Allocator.pair_le (Allocator.free_list a') /\
         Allocator.free_list a' ≡ₚ
           <[i := (c - n, wrap32 (s + n))]> (Allocator.free_list a)).

(** No entry is large enough and word [k] of the bitmap is the first free one
    from the cursor on. *)
Definition miss_condition (a : Allocator.t) (n : Z) (k : nat) : Prop :=
  (forall p, p ∈ Allocator.free_list a -> p.1 < n) /\
  first_free_word (Allocator.bitmap a)
    (Z.to_nat (Z.shiftr (Allocator.recent_bitmap_idx a) 6)) k /\
  64 * Z.of_nat k + Allocator.BITMAP_CAPACITY <= 2 ^ 32.

(** [alloc] returns the first block of the run of word [k], which it has
    claimed, and has moved the cursor past it. *)
Definition claims_fresh_run (a : Allocator.t) (n : Z) (k : nat)
    (a' : Allocator.t) : Prop :=
  Allocator.alloc a n = Ok (a', 64 * Z.of_nat k) /\
  Allocator.bitmap a' = <[k := Bitmap.BITMAP_ALL_USED]> (Allocator.bitmap a) /\
  Allocator.recent_bitmap_idx a' = 64 * Z.of_nat k + 1.

(** [alloc] on a miss: the remainder is pushed when there is one. *)
Definition alloc_miss (a : Allocator.t) (n : Z) : Prop :=
  forall k, miss_condition a n k ->
    exists a',
      claims_fresh_run a n k a' /\
      (n < Allocator.BITMAP_CAPACITY ->
         Sorted Allocator.pair_le (Allocator.free_list a') /\
         Allocator.free_list a' ≡ₚ
           Allocator.free_list a ++
           [(Allocator.BITMAP_CAPACITY - n, 64 * Z.of_nat k + n)]) /\
      (n = Allocator.BITMAP_CAPACITY ->
         Allocator.free_list a' = Allocator.free_list a).

(** [alloc] on a miss as the specification words it: the remainder
    [(BITMAP_CAPACITY - n, lidx + n)] is pushed whatever [n] is. *)
Definition alloc_miss_always_pushes (a : Allocator.t) (n : Z) : Prop :=
  forall k, miss_condition a n k ->
    exists a',
      claims_fresh_run a n k a' /\
      Allocator.free_list a' ≡ₚ
        Allocator.free_list a ++
        [(Allocator.BITMAP_CAPACITY - n, 64 * Z.of_nat k + n)].

(** ** Block table *)

(** [table[v]], zero past the end of the table. *)
Definition cell (tbl : list Z) (v : Z) : Z := default 0 (tbl !! Z.to_nat v).

(** The virtual blocks that a committed transaction covers. *)
Definition covers (e : BlkTable.TxEntry) (v : Z) : Prop :=
  match e with
  | BlkTable.TxInvalid => False
  | BlkTable.TxCommitInline n bv _ => bv <= v < bv + n
  | BlkTable.TxCommitIndirect bv n _ => bv <= v < bv + n
  end.

(** A run of up to [MAX] logical blocks starting at [l] that stays clear of
    block 0 (the meta block). *)
Definition run_ok (MAX : Z) (l : Z) : Prop := 0 < l /\ l + MAX <= 2 ^ 32.

(** A committed transaction as the allocator and the log produce them: its
    virtual range is small, its logical blocks are data blocks, and an
    indirect entry has a run for every chunk. *)
Definition entry_ok (MAX : Z) (e : BlkTable.TxEntry) : Prop :=
  match e with
  | BlkTable.TxInvalid => False
  | BlkTable.TxCommitInline n bv bl =>
      0 <= n /\ 0 <= bv /\ bv + n < 2 ^ 30 /\ 0 < bl /\ bl + n <= 2 ^ 32
  | BlkTable.TxCommitIndirect bv n ls =>
      0 <= n /\ 0 <= bv /\ bv + n < 2 ^ 30 /\
      n <= Z.of_nat (length ls) * MAX /\ Forall (run_ok MAX) ls
  end.

(** ** File *)

(** The values that [overwrite] and [pread] compute from their arguments. *)
Definition first_block (offset : Z) : Z :=
  wrap32 (ALIGN_DOWN offset Layout.BLOCK_SIZE).

Definition offset_in_block (offset : Z) : Z :=
  wrap64 (offset - wrap32 (first_block offset * Layout.BLOCK_SIZE)).

Definition block_count (count offset : Z) : Z :=
  wrap32 (Z.shiftr (ALIGN_UP (wrap64 (count + offset_in_block offset))
                             Layout.BLOCK_SIZE) Layout.BLOCK_SHIFT).



(** ** Memory table *)

(** A mapping of the first [len] bytes of the file. *)
Definition is_mmap_of (len : Z) (c : MemTable.Syscall) : Prop :=
  match c with
  | MemTable.Mmap l _ _ _ off => l = len /\ off = 0
  | _ => False
  end.

(** ** Concrete inputs *)

(** An allocator with four free runs whose cursor is past the first two
    bitmap words; the third word is free. *)
Definition demo_allocator : Allocator.t :=
  Allocator.mk [(3, 100); (5, 200); (5, 300); (9, 50)] 65
     [1; Bitmap.BITMAP_ALL_USED; 0].

(** A sequence of operations on it, and the allocator that they leave. *)
Definition demo_ops : list Op :=
  [OpAlloc 4; OpFree 7 2; OpFreeImage [5; 6; 0; 9]; OpAlloc 64; OpAlloc 9].

Definition demo_allocator_after : Allocator.t :=
  Allocator.mk [(1, 9); (1, 204); (2, 5); (2, 7); (3, 100); (5, 300)] 129
     [1; Bitmap.BITMAP_ALL_USED; Bitmap.BITMAP_ALL_USED].

(** A log of two committed transactions: an inline one over the blocks 0 and
    1 and an indirect one over 70 blocks from block 3 on, in two runs. *)
Definition demo_log : list BlkTable.TxEntry :=
  [BlkTable.TxCommitInline 2 0 64; BlkTable.TxCommitIndirect 3 70 [128; 192]].

(** Grow units of 2 MiB, and a host on which every call succeeds. *)
Definition demo_params : MemTable.LayoutParams :=
  MemTable.mkLayoutParams 21 (2 ^ 21) (2 ^ 21).
Definition demo_options : MemTable.BuildOptions :=
  MemTable.mkBuildOptions false.
Definition demo_host : MemTable.Host :=
  MemTable.mkHost (λ _ _, 0) (λ _ _ _ _ _, 0x7f0000000000).

(** ** Further vocabulary *)

(** A bit of a bitmap block that has a block index: the bits of the inline
    bitmaps of the meta block ([bitmap_block_idx = 0]) and those of the bitmap
    blocks whose blocks have a 32-bit index. *)
Definition bit_in_range (bitmap_block_idx in_bitmap_idx : Z) : Prop :=
  (bitmap_block_idx = 0 /\ 0 <= in_bitmap_idx < 64 * Layout.NUM_INLINE_BITMAP) \/
  (1 <= bitmap_block_idx <= 131071 /\ 0 <= in_bitmap_idx < 64 * Layout.NUM_BITMAP).

(** Word [k] holds [w], the first word with a free bit at or after word
    [start]. *)
Definition first_word_with_room (bitmap : list Z) (start k : nat) (w : Z) : Prop :=
  (start <= k)%nat /\ bitmap !! k = Some w /\ w <> Bitmap.BITMAP_ALL_USED /\
  forall j, (start <= j < k)%nat -> bitmap !! j = Some Bitmap.BITMAP_ALL_USED.

(** The blocks of a free run [(count, start)], and of a free list. *)
Definition run_blocks (p : Z * Z) : list Z := seqZ p.2 p.1.

Definition free_blocks (fl : list (Z * Z)) : list Z := concat (run_blocks <$> fl).

(** The tail of [free(recycle_image, image_size)]: an open group is pushed. *)
Definition close_group (image_size gb gbl : Z) (fl : list (Z * Z)) : list (Z * Z) :=
  if negb (gbl =? 0) then fl ++ [(wrap32 (image_size - gb), gbl)] else fl.

(** The logical block that a committed transaction gives virtual block [v],
    if it covers it: the blocks of an inline entry are one run, those of an
    indirect entry a run per chunk of [MAX] blocks. *)
Definition written_by (MAX : Z) (e : BlkTable.TxEntry) (v : Z) : option Z :=
  match e with
  | BlkTable.TxInvalid => None
  | BlkTable.TxCommitInline n bv bl =>
      if (bv <=? v) && (v <? bv + n) then Some (bl + (v - bv)) else None
  | BlkTable.TxCommitIndirect bv n ls =>
      if (bv <=? v) && (v <? bv + n)
      then Some (default 0 (ls !! Z.to_nat ((v - bv) / MAX)) + (v - bv) mod MAX)
      else None
  end.

(** What the last transaction of the log that covers [v] gave it; [old] when
    there is none. *)
Definition last_writer (MAX : Z) (log : list BlkTable.TxEntry) (old v : Z) : Z :=
  fold_left (fun acc e => default acc (written_by MAX e v)) log old.

(** Whether the meta lock is held once the actions have run. *)
Definition lock_held_after (acts : list MemTable.Action) : bool :=
  fold_left (fun held a =>
               match a with
               | MemTable.MetaLock => true
               | MemTable.MetaUnlock => false
               | MemTable.HostCall _ => held
               end) acts false.

(** The key under which [get_addr] looks a block up: the first block of its
    grow unit. *)
Definition grow_unit_of (params : MemTable.LayoutParams) (idx : Z) : Z :=
  Z.land idx (wrap32 (Z.lnot (MemTable.GROW_UNIT_IN_BLOCK_MASK params))).

(** The host refuses one of the calls of [init]. *)
Definition host_refuses (host : MemTable.Host) (fd : Z) : Prop :=
  (exists length, MemTable.ftruncate_ret host fd length <> 0) \/
  (exists length prot flags, MemTable.mmap_ret host length prot flags fd 0 = -1).

(** A memory table over a file of one 2 MiB grow unit that is not mapped yet,
    and what [get_addr] makes of it for block 512. *)
Definition demo_mem_table : MemTable.t := MemTable.mk 0 3 512 512 ∅.

Definition demo_mem_table_grown : MemTable.t :=
  MemTable.mk 0 3 512 2097152 {[512 := 0x7f0000000000]}.

(** The memory table that [init] builds for a file of one block. *)
Definition demo_mem_table_init : MemTable.t :=
  MemTable.mk 0x7f0000000000 3 512 512 {[0 := 0x7f0000000000]}.

(** An allocator with nothing on its free list and no free word in its
    bitmap. *)
Definition demo_full_allocator : Allocator.t :=
  Allocator.mk [] 0 [1; Bitmap.BITMAP_ALL_USED].

(** The allocator of a new file once a run has been claimed for one block. *)
Definition demo_fresh_allocator_after : Allocator.t :=
  Allocator.mk [(63, 65)] 65 (1 :: Bitmap.BITMAP_ALL_USED :: replicate 14 0).

(** Slot [k] is the first one in the state [UNINITIALIZED]. *)
Definition first_uninitialized (slots : list Shm.PerThreadData) (k : nat) : Prop :=
  (exists d, slots !! k = Some d /\ Shm.state d = Shm.UNINITIALIZED) /\
  forall j d, (j < k)%nat -> slots !! j = Some d ->
              Shm.state d <> Shm.UNINITIALIZED.

(** Three slots of which the first is taken. *)
Definition demo_slots : list Shm.PerThreadData :=
  [Shm.mkPerThreadData Shm.INITIALIZED true 0 7;
   Shm.mkPerThreadData Shm.UNINITIALIZED false 0 0;
   Shm.mkPerThreadData Shm.UNINITIALIZED false 0 0].

(** ** The write path over the memory table *)

(** The bytes of [buf] are at [addr] both in memory and in persistent
    memory. *)
Definition holds_payload (f : MappedFile.t) (addr : Z) (buf : list Z) : Prop :=
  forall (k : nat) (b : Z), buf !! k = Some b ->
    File.load (MappedFile.mem f) (addr + Z.of_nat k) = b /\
    MappedFile.durable f !! (addr + Z.of_nat k) = Some b.

(** What one step of [overwrite(buf, count, offset)] on the file [f] may do to
    the transaction log: in the state [s] that the step leaves, either the
    log is that of [f], or it has gained the commit entry of the transaction,
    and then the payload was at the address that [get_addr] returned for the
    entry's first block, in memory and durably, already in the state [prev]
    in which the step began, and it still is. *)
Definition commit_step (params : MemTable.LayoutParams)
    (options : MemTable.BuildOptions) (host : MemTable.Host)
    (f : MappedFile.t) (buf : list Z) (count offset : Z)
    (prev s : MappedFile.t) : Prop :=
  MappedFile.tx_log s = MappedFile.tx_log f \/
  exists lidx acts mt dst,
    MappedFile.tx_log s =
      MappedFile.tx_log f ++
      [BlkTable.TxCommitInline (block_count count offset) (first_block offset)
         lidx] /\
    MemTable.get_addr params options host (MappedFile.mem_table f) lidx =
      (acts, MemTable.Returns (mt, dst)) /\
    holds_payload prev (dst + offset_in_block offset) buf /\
    holds_payload s (dst + offset_in_block offset) buf.

(** [R] relates every state of the run to the one before it. *)
Fixpoint chain (R : MappedFile.t -> MappedFile.t -> Prop) (s : MappedFile.t)
    (states : list MappedFile.t) : Prop :=
  match states with
  | [] => True
  | s' :: rest => R s s' /\ chain R s' rest
  end.

(** The state that a store leaves, and the one that a persist leaves. *)
Definition stored (dst : Z) (bytes : list Z) (f : MappedFile.t) : MappedFile.t :=
  MappedFile.set_bytes (File.store_bytes (MappedFile.mem f) dst bytes)
    (MappedFile.forget (MappedFile.durable f) dst (length bytes)) f.

Definition persisted (addr len : Z) (f : MappedFile.t) : MappedFile.t :=
  MappedFile.set_bytes (MappedFile.mem f)
    (MappedFile.flush (MappedFile.mem f) (MappedFile.durable f) addr
       (Z.to_nat len)) f.

(** A host that maps the file at one place: offset [off] at
    [0x7f0000000000 + off]. *)
Definition demo_host_by_offset : MemTable.Host :=
  MemTable.mkHost (λ _ _, 0) (λ _ _ _ _ off, 0x7f0000000000 + off).

(** A host that refuses every [mmap]. *)
Definition demo_host_without_memory : MemTable.Host :=
  MemTable.mkHost (λ _ _, 0) (λ _ _ _ _ _, -1).

(** A file of one grow unit as [init] maps it, with the signature and the
    first bitmap of its meta block and nothing committed; the allocator has
    the first block of the next grow unit on its free list. *)
Definition demo_mapped_file : MappedFile.t :=
  MappedFile.mk
    (MemTable.mk 0x7f0000000000 3 512 512 {[0 := 0x7f0000000000]})
    [(0x7f0000000000, 2097152)]
    (File.store_bytes
       (File.store_bytes ∅ 0x7f0000000000 [85; 76; 65; 89; 70; 83; 0])
       (0x7f0000000000 + 2 * Layout.CACHELINE_SIZE) [1])
    ∅ BlkTable.init
    (Allocator.mk [(1, 512)] 0 (1 :: replicate 15 0))
    [] [].

(** The same file when the allocator hands out block 64, which is not the
    first block of its grow unit. *)
Definition demo_mapped_file_64 : MappedFile.t :=
  MappedFile.mk
    (MemTable.mk 0x7f0000000000 3 512 512 {[0 := 0x7f0000000000]})
    [(0x7f0000000000, 2097152)]
    (File.store_bytes
       (File.store_bytes ∅ 0x7f0000000000 [85; 76; 65; 89; 70; 83; 0])
       (0x7f0000000000 + 2 * Layout.CACHELINE_SIZE) [1])
    ∅ BlkTable.init
    (Allocator.mk [] 0 (1 :: replicate 15 0))
    [] [].

(** A specification of a computation: from a state that satisfies [P],
    every step that it takes is in [R], and when it returns [a] in the state
    [s], which is the last that it went through, [Q a s]. *)
Definition triple {A : Type} (P : MappedFile.t -> Prop) (m : MappedFile.M A)
    (R : MappedFile.t -> MappedFile.t -> Prop)
    (Q : A -> MappedFile.t -> Prop) : Prop :=
  forall f, P f ->
    chain R f (m f).1 /\
    match (m f).2 with
    | inl (a, s) => Q a s /\ s = List.last (m f).1 f
    | inr _ => True
    end.


(** The transaction log and the block table are those of [f0]. *)
Definition same_logs (f0 s : MappedFile.t) : Prop :=
  MappedFile.tx_log s = MappedFile.tx_log f0 /\
  MappedFile.blk_table s = MappedFile.blk_table f0.

(** What a write leaves for a later read of the block [lidx]: the block is in
    the table of mappings, the bytes of [buf] are in memory from [off] on in
    it, and that range is mapped. *)
Definition reads_back (params : MemTable.LayoutParams)
    (options : MemTable.BuildOptions) (host : MemTable.Host)
    (lidx : Z) (buf : list Z) (off count : Z) (s : MappedFile.t) : Prop :=
  exists dst,
    MemTable.get_addr params options host (MappedFile.mem_table s) lidx =
      ([], MemTable.Returns (MappedFile.mem_table s, dst)) /\
    (forall (k : nat) (b : Z), buf !! k = Some b ->
       File.load (MappedFile.mem s) (dst + off + Z.of_nat k) = b) /\
    MappedFile.accessible (MappedFile.regions s) (dst + off) count = true.

(** [demo_mapped_file] after [overwrite] has written the byte 65 at offset
    0. *)
Definition demo_mapped_file_written : MappedFile.t :=
  match (MappedFile.overwrite demo_params demo_options demo_host_by_offset 64
           [65] 1 0 demo_mapped_file).2 with
  | inl (_, s) => s
  | inr _ => demo_mapped_file
  end.


(** * Properties *)

(** ** Fixed-width arithmetic *)

Lemma wrap32_range x : uint32 (wrap32 x).
Proof. unfold uint32, wrap32. apply Z.mod_pos_bound. lia. Qed.

Lemma wrap32_small x : uint32 x -> wrap32 x = x.
Proof. unfold uint32, wrap32. intros. apply Z.mod_small. lia. Qed.

Lemma wrap32_le x : 0 <= x -> wrap32 x <= x.
Proof. unfold wrap32. intros. apply Z.mod_le; lia. Qed.

Lemma shl_int_one k : 0 <= k <= 30 -> shl_int 1 k = Some (2 ^ k).
Proof.
  intros Hk. unfold shl_int.
  destruct ((0 <=? k) && (k <? 32)) eqn:E;
    [|apply andb_false_iff in E as [E|E]; lia].
  f_equal. rewrite Z.shiftl_1_l. unfold to_int32, wrap32.
  assert (2 ^ k <= 2 ^ 30) by (apply Z.pow_le_mono_r; lia).
  assert (0 < 2 ^ k) by (apply Z.pow_pos_nonneg; lia).
  rewrite Z.mod_small by lia.
  destruct (2 ^ k <? 2 ^ 31) eqn:E'; [done|lia].
Qed.

(** The bit length [32 - countl_zero(idx)] of a small index, and the power of
    two that it gives. *)
Lemma bit_length_bound idx :
  0 <= idx < 2 ^ 30 ->
  0 <= 32 - countl_zero32 idx <= 30 /\ idx < 2 ^ (32 - countl_zero32 idx).
Proof.
  intros Hidx. unfold countl_zero32.
  destruct (idx =? 0) eqn:E.
  - apply Z.eqb_eq in E. subst. simpl. lia.
  - apply Z.eqb_neq in E.
    assert (0 <= Z.log2 idx) by apply Z.log2_nonneg.
    assert (Z.log2 idx < 30) by (apply Z.log2_lt_pow2; lia).
    split; [lia|].
    replace (32 - (32 - (Z.log2 idx + 1))) with (Z.succ (Z.log2 idx)) by lia.
    apply Z.log2_spec. lia.
Qed.

(** ** Bitmap *)

Section BitmapFacts.

Lemma land_not64_self b x : 0 <= b < 2 ^ 64 -> Z.land b (Z.land (not64 b) x) = 0.
Proof.
  intros Hb. apply Z.bits_inj'. intros i Hi.
  rewrite !Z.land_spec, Z.bits_0. unfold not64. rewrite Z.lxor_spec.
  destruct (Z.testbit b i) eqn:Hbi; [|reflexivity].
  simpl. destruct (Z_lt_ge_dec i 64) as [Hlt|Hge].
  - change (2 ^ 64 - 1) with (Z.pred (2 ^ 64)). rewrite <- Z.ones_equiv.
    rewrite Z.ones_spec_low by lia. reflexivity.
  - exfalso.
    assert (Z.testbit b i = false); [|congruence].
    destruct (Z.eq_dec b 0) as [->|Hne]; [apply Z.bits_0|].
    apply Z.bits_above_log2; [lia|].
    assert (Z.log2 b < 64); [|lia]. apply Z.log2_lt_pow2; lia.
Qed.

(** Whatever the word, [alloc_one] stores zero: [b & allocated] is empty
    because [allocated] is a bit that [b] does not have. *)
Lemma alloc_one_stores_zero b :
  0 <= b < 2 ^ 64 -> b <> Bitmap.BITMAP_ALL_USED ->
  Bitmap.alloc_one b = Some (0, countr_zero b).
Proof.
  intros Hb Hne. unfold Bitmap.alloc_one. simpl.
  destruct (b =? Bitmap.BITMAP_ALL_USED) eqn:E; [lia|].
  unfold compare_exchange. rewrite Z.eqb_refl. simpl.
  rewrite land_not64_self by lia. reflexivity.
Qed.

Lemma alloc_one_all_used :
  Bitmap.alloc_one Bitmap.BITMAP_ALL_USED = Some (Bitmap.BITMAP_ALL_USED, -1).
Proof. reflexivity. Qed.

(** On the empty word nothing is marked and the index is out of range. *)
Example alloc_one_empty_word : Bitmap.alloc_one 0 = Some (0, 64).
Proof. reflexivity. Qed.

(** C4: on the word 1 (bit 0 used, bit 1 the lowest free bit) [alloc_one]
    returns, but it stores 0 and returns 0, where allocating the lowest free
    bit gives the word 3 and the index 1: the stored word is [b & allocated]
    instead of [b | allocated] and the index is that of the lowest set bit. *)
Theorem alloc_one_clears_the_word :
  Bitmap.alloc_one 1 = Some (0, 0) /\ alloc_lowest_free 1 = (3, 1).
Proof. split; reflexivity. Qed.

(** Up to bit 30 the mask [1 << idx] is the bit [idx]. *)
Lemma set_allocated_low b idx :
  0 <= idx <= 30 -> Bitmap.set_allocated b idx = Some (Z.lor b (2 ^ idx)).
Proof.
  intros Hidx. unfold Bitmap.set_allocated. rewrite shl_int_one by done.
  do 2 f_equal. unfold wrap64. apply Z.mod_small.
  assert (2 ^ idx <= 2 ^ 30) by (apply Z.pow_le_mono_r; lia).
  assert (0 < 2 ^ idx) by (apply Z.pow_pos_nonneg; lia). lia.
Qed.

(** C10: for [idx = 31] the [int] mask [1 << 31] is negative and its
    conversion to 64 bits sets the bits 31 to 63 of the empty word, not the
    bit 31 alone; from [idx = 32] on the shift is undefined. *)
Theorem set_allocated_31_sets_the_upper_half :
  Bitmap.set_allocated 0 31 = Some 0xFFFFFFFF80000000 /\
  Z.lor 0 (2 ^ 31) = 0x80000000 /\
  Bitmap.set_allocated 0 32 = None.
Proof. repeat split; reflexivity. Qed.

End BitmapFacts.

(** ** Transaction log block *)

Section TxLogBlockFacts.

Lemma try_commit_loop_full n idx (entries : list Z) e :
  0 <= idx ->
  (TxLogBlock.try_commit_loop n idx entries e).2 = -1 <->
  forall i, idx <= i < idx + Z.of_nat n -> default 0 (entries !! Z.to_nat i) <> 0.
Proof.
  revert idx. induction n as [|n IH]; intros idx Hidx; simpl.
  - split; [intros _ i Hi; lia|done].
  - destruct (default 0 (entries !! Z.to_nat idx) =? 0) eqn:E; simpl.
    + apply Z.eqb_eq in E. rewrite E. simpl. split; [lia|].
      intros H. exfalso. apply (H idx); [lia|done].
    + apply Z.eqb_neq in E. rewrite IH by lia. split.
      * intros H i Hi. destruct (decide (i = idx)) as [->|Hne]; [done|].
        apply H. lia.
      * intros H i Hi. apply H. lia.
Qed.

(** [try_commit] reports a full block exactly when the slots from the hint up
    to [NUM_LOG_ENTRY] are taken. *)
Lemma try_commit_full_iff (entries : list Z) e hint :
  0 <= hint <= Layout.NUM_LOG_ENTRY ->
  (TxLogBlock.try_commit entries e hint).2 = -1 <->
  forall i, hint <= i < Layout.NUM_LOG_ENTRY ->
    default 0 (entries !! Z.to_nat i) <> 0.
Proof.
  intros Hh. unfold TxLogBlock.try_commit.
  rewrite try_commit_loop_full by lia.
  rewrite Z2Nat.id by lia.
  replace (hint + (Layout.NUM_LOG_ENTRY - hint)) with Layout.NUM_LOG_ENTRY by lia.
  done.
Qed.

Example try_commit_takes_the_first_free_slot :
  TxLogBlock.try_commit (replicate 5 1 ++ replicate 506 0) 7 0 =
    (replicate 5 1 ++ [7] ++ replicate 505 0, 5).
Proof. vm_compute. reflexivity. Qed.

(** C3: a block of [NUM_TX_ENTRY] = 511 slots whose first 256 slots are taken
    and whose other 255 are free: [try_commit] from the hint 0 changes nothing
    and returns -1, although slot 256 is zero.  The loop stops at
    [NUM_LOG_ENTRY] = 256. *)
Theorem try_commit_gives_up_at_num_log_entry :
  let block := replicate 256 1 ++ replicate 255 0 in
  Z.of_nat (length block) = Layout.NUM_TX_ENTRY /\
  block !! 256%nat = Some 0 /\
  TxLogBlock.try_commit block 7 0 = (block, -1).
Proof. vm_compute. repeat split; reflexivity. Qed.

End TxLogBlockFacts.

(** ** Allocator *)

Section PairOrder.

Import Allocator.

Lemma pair_le_alt x y : pair_le x y <-> x.1 < y.1 \/ (x.1 = y.1 /\ x.2 <= y.2).
Proof. unfold pair_le, pair_lt. destruct x, y; simpl. lia. Qed.

Lemma pair_lt_alt x y : pair_lt x y <-> x.1 < y.1 \/ (x.1 = y.1 /\ x.2 < y.2).
Proof. unfold pair_lt. destruct x, y; simpl. lia. Qed.

#[local] Instance pair_le_total : Total pair_le.
Proof. intros x y. rewrite !pair_le_alt. destruct x, y; simpl. lia. Qed.

#[local] Instance pair_le_trans : Transitive pair_le.
Proof. intros x y z. rewrite !pair_le_alt. destruct x, y, z; simpl. lia. Qed.

#[local] Instance pair_le_antisymm : AntiSymm (=) pair_le.
Proof.
  intros x y. rewrite !pair_le_alt. destruct x, y; simpl. intros.
  f_equal; lia.
Qed.

#[local] Instance pair_le_refl : Reflexive pair_le.
Proof. intros x. rewrite pair_le_alt. lia. Qed.

Lemma std_sort_Sorted l : Sorted pair_le (std_sort l).
Proof. apply (Sorted_merge_sort pair_le). Qed.

Lemma std_sort_Permutation l : std_sort l ≡ₚ l.
Proof. apply (merge_sort_Permutation pair_le). Qed.

Lemma std_sort_typed l : Forall entry_typed l -> Forall entry_typed (std_sort l).
Proof. intros H. by rewrite std_sort_Permutation. Qed.

Lemma Sorted_lookup_le (l : list (Z * Z)) i j x y :
  Sorted pair_le l -> (i <= j)%nat -> l !! i = Some x -> l !! j = Some y ->
  pair_le x y.
Proof.
  intros H Hij Hx Hy. apply Sorted_StronglySorted in H; [|apply _].
  destruct (decide (i = j)) as [->|Hne].
  { rewrite Hx in Hy. inversion Hy. reflexivity. }
  rewrite <- (take_drop j l) in H.
  apply StronglySorted_app in H as (H1 & _ & _).
  apply H1.
  - apply elem_of_take. exists i. split; [done|lia].
  - apply list_elem_of_lookup. exists 0%nat. rewrite lookup_drop.
    by rewrite Nat.add_0_r.
Qed.

(** [erase(it)] keeps the list sorted. *)
Lemma Sorted_delete (l : list (Z * Z)) i :
  Sorted pair_le l -> Sorted pair_le (delete i l).
Proof.
  intros H. apply Sorted_StronglySorted in H; [|apply _].
  apply StronglySorted_Sorted.
  rewrite delete_take_drop.
  assert (Hd : drop (S i) l = drop 1 (drop i l)).
  { rewrite drop_drop. f_equal. lia. }
  rewrite <- (take_drop i l) in H.
  apply StronglySorted_app in H as (H1 & H2 & H3).
  rewrite Hd. apply StronglySorted_app. split_and!; [|done|].
  - intros x1 x2 Hx1 Hx2. apply H1; [done|].
    destruct (drop i l) as [|y k]; simpl in Hx2; [done|].
    rewrite drop_0 in Hx2. by right.
  - destruct (drop i l) as [|y k]; simpl; [constructor|].
    rewrite drop_0. by inversion H3.
Qed.

(** The split path: an entry that got smaller is back in order once the
    prefix up to it is sorted again. *)
Lemma Sorted_shrink (l : list (Z * Z)) it old new :
  Sorted pair_le l -> l !! it = Some old -> pair_le new old ->
  Sorted pair_le (std_sort (take (S it) (<[it := new]> l)) ++
                  drop (S it) (<[it := new]> l)).
Proof.
  intros H Hold Hnew.
  pose proof H as HS. apply Sorted_StronglySorted in HS; [|apply _].
  apply StronglySorted_Sorted, StronglySorted_app. split_and!.
  - intros x1 x2 Hx1 Hx2.
    rewrite drop_insert_lt in Hx2 by lia.
    apply list_elem_of_lookup in Hx2 as [k Hk]. rewrite lookup_drop in Hk.
    assert (pair_le old x2) as Hox.
    { eapply (Sorted_lookup_le l it); [done| |done|done]. lia. }
    rewrite std_sort_Permutation in Hx1.
    apply elem_of_take in Hx1 as (i & Hi & Hlt).
    destruct (decide (i = it)) as [->|Hne].
    + rewrite list_lookup_insert_eq in Hi by (by eapply lookup_lt_Some).
      inversion Hi; subst. by etrans.
    + rewrite list_lookup_insert_ne in Hi by done.
      etrans; [|exact Hox].
      eapply (Sorted_lookup_le l i it); [done|lia|done|done].
  - apply Sorted_StronglySorted; [apply _|]. apply std_sort_Sorted.
  - rewrite drop_insert_lt by lia.
    rewrite <- (take_drop (S it) l) in HS.
    by apply StronglySorted_app in HS as (_ & _ & ?).
Qed.

Lemma shrunk_le first second n :
  entry_typed (first, second) -> 0 <= n -> n < first ->
  pair_le (wrap32 (first - n), wrap32 (second + n)) (first, second).
Proof.
  intros [H1 H2] Hn Hlt. simpl in *. apply pair_le_alt. simpl.
  destruct (Z.eq_dec n 0) as [->|Hne].
  - right. rewrite Z.sub_0_r, Z.add_0_r, !wrap32_small by done. lia.
  - left. pose proof (wrap32_le (first - n)). lia.
Qed.

(** *** [std::lower_bound] with the key [(n, 0)] *)

Lemma lower_bound_before l val j x :
  (j < lower_bound l val)%nat -> l !! j = Some x -> pair_lt x val.
Proof.
  revert j. induction l as [|y l IH]; simpl; intros j Hj Hx; [lia|].
  case_decide; [|lia].
  destruct j as [|j]; simpl in Hx.
  - by inversion Hx; subst.
  - apply (IH j); [lia|done].
Qed.

Lemma lower_bound_at l val x :
  l !! lower_bound l val = Some x -> ~ pair_lt x val.
Proof.
  induction l as [|y l IH]; simpl; [done|].
  case_decide; simpl; [done|]. intros [= ->]. done.
Qed.

Lemma not_lt_key (x : Z * Z) n : 0 <= x.2 -> ~ pair_lt x (n, 0) -> n <= x.1.
Proof. rewrite pair_lt_alt. simpl. lia. Qed.

Lemma lt_key (x : Z * Z) n : 0 <= x.2 -> pair_lt x (n, 0) -> x.1 < n.
Proof. rewrite pair_lt_alt. simpl. lia. Qed.

(** The position that [lower_bound] finds is that of the least entry with at
    least [n] blocks. *)
Lemma lower_bound_best_fit (fl : list (Z * Z)) n c s :
  Sorted pair_le fl -> Forall entry_typed fl ->
  (c, s) ∈ fl -> n <= c ->
  (forall p, p ∈ fl -> n <= p.1 -> pair_le (c, s) p) ->
  fl !! lower_bound fl (n, 0) = Some (c, s).
Proof.
  intros Hs Ht Hin Hc Hmin.
  assert (forall i x, fl !! i = Some x -> 0 <= x.2) as Hty.
  { intros i x Hx. eapply Forall_lookup in Ht; [|exact Hx]. apply Ht. }
  apply list_elem_of_lookup in Hin as [j Hj].
  set (it := lower_bound fl (n, 0)).
  assert (it <= j)%nat as Hij.
  { destruct (decide (it <= j)%nat) as [|Hgt]; [done|].
    assert (pair_lt (c, s) (n, 0)) as Hlt.
    { apply (lower_bound_before fl _ j); [unfold it in *; lia|done]. }
    apply lt_key in Hlt; simpl in *; [lia|]. apply (Hty _ _ Hj). }
  destruct (fl !! it) as [x|] eqn:Hx.
  - f_equal. apply (anti_symm pair_le).
    + eapply (Sorted_lookup_le fl it j); eauto.
    + apply Hmin; [by apply (list_elem_of_lookup_2 fl it)|].
      apply not_lt_key; [by apply (Hty it)|by apply (lower_bound_at fl)].
  - apply lookup_ge_None in Hx. apply lookup_lt_Some in Hj. lia.
Qed.

Lemma lower_bound_miss (fl : list (Z * Z)) n :
  Forall entry_typed fl -> (forall p, p ∈ fl -> p.1 < n) ->
  fl !! lower_bound fl (n, 0) = None.
Proof.
  intros Ht Hall. destruct (fl !! _) as [x|] eqn:Hx; [|done].
  exfalso. pose proof (Hall x (list_elem_of_lookup_2 _ _ _ Hx)).
  assert (0 <= x.2).
  { eapply Forall_lookup in Ht; [|exact Hx]. apply Ht. }
  apply lower_bound_at in Hx. apply not_lt_key in Hx; lia.
Qed.

End PairOrder.

Section AllocatorFacts.

Import Allocator.

(** *** The free list stays sorted *)

Lemma well_formed_init recent bitmap : well_formed (mk [] recent bitmap).
Proof. split; constructor. Qed.

Lemma alloc_from_bitmap_well_formed a n a' ret :
  well_formed a -> alloc_from_bitmap a n = Ok (a', ret) -> well_formed a'.
Proof.
  intros [Hs Ht]. unfold alloc_from_bitmap.
  destruct (Bitmap_alloc_batch _ _) as [bitmap' r].
  destruct (negb (0 <=? r)); [done|]. intros [= <- _].
  destruct (n <? BITMAP_CAPACITY); split; simpl; auto using std_sort_Sorted.
  apply std_sort_typed, Forall_app. split; [done|].
  constructor; [|constructor]. split; apply wrap32_range.
Qed.

Lemma alloc_well_formed a n a' ret :
  well_formed a -> uint32 n -> alloc a n = Ok (a', ret) -> well_formed a'.
Proof.
  intros Hwf Hn. pose proof Hwf as [Hs Ht]. unfold alloc.
  destruct (negb (n <=? BITMAP_CAPACITY)); [done|].
  destruct (free_list a !! lower_bound (free_list a) (n, 0))
    as [[first second]|] eqn:Hit;
    [|by apply alloc_from_bitmap_well_formed].
  destruct (second =? 0); [done|].
  destruct (first =? n) eqn:Heq.
  { intros [= <- _]. split; simpl;
      [by apply Sorted_delete|by apply Forall_delete]. }
  destruct (n <? first) eqn:Hlt; [|by apply alloc_from_bitmap_well_formed].
  apply Z.ltb_lt in Hlt. intros [= <- _].
  assert (entry_typed (first, second)) as Hty.
  { eapply Forall_lookup in Ht; eauto. }
  split; simpl.
  - eapply Sorted_shrink; [done|done|].
    apply shrunk_le; [done|apply Hn|done].
  - apply Forall_app. split.
    + apply std_sort_typed, Forall_take, Forall_insert; [done|].
      split; apply wrap32_range.
    + apply Forall_drop, Forall_insert; [done|].
      split; apply wrap32_range.
Qed.

Lemma free_well_formed a lidx n :
  well_formed a -> uint32 lidx -> uint32 n -> well_formed (free a lidx n).
Proof.
  intros [Hs Ht] Hl Hn. unfold free. destruct (lidx =? 0); [done|].
  split; simpl; [apply std_sort_Sorted|].
  apply std_sort_typed, Forall_app. split; [done|].
  constructor; [|constructor]. by split.
Qed.

Lemma free_image_loop_typed image curr gb gbl fl :
  Forall uint32 image -> uint32 gbl -> Forall entry_typed fl ->
  let '(_, gbl', fl') := free_image_loop image curr gb gbl fl in
  uint32 gbl' /\ Forall entry_typed fl'.
Proof.
  revert curr gb gbl fl.
  induction image as [|x rest IH]; intros curr gb gbl fl Him Hg Hfl; simpl;
    [done|].
  apply Forall_cons in Him as [Hx Hrest].
  destruct (gbl =? 0).
  - destruct (x =? 0); by apply IH.
  - destruct (x =? _); [by apply IH|].
    apply IH; [done|done|].
    apply Forall_app. split; [done|].
    constructor; [|constructor]. split; [apply wrap32_range|done].
Qed.

Lemma free_image_well_formed a image :
  well_formed a -> Forall uint32 image -> well_formed (free_image a image).
Proof.
  intros [Hs Ht] Him. unfold free_image.
  destruct (Z.of_nat (length image) =? 0); [done|].
  pose proof (free_image_loop_typed image 0 0 0 (free_list a) Him) as H.
  destruct (free_image_loop image 0 0 0 (free_list a)) as [[gb gbl] fl].
  destruct H as [Hg Hfl]; [unfold uint32; lia|done|].
  split; simpl; [apply std_sort_Sorted|].
  apply std_sort_typed. destruct (negb (gbl =? 0)); [|done].
  apply Forall_app. split; [done|].
  constructor; [|constructor]. split; [apply wrap32_range|done].
Qed.

Lemma step_well_formed a op a' :
  well_formed a -> op_typed op -> step a op = Ok a' -> well_formed a'.
Proof.
  intros Hwf Hop. destruct op; simpl in *.
  - destruct (alloc a num_blocks) as [[a1 ret]| |] eqn:Ha; try done.
    intros [= <-]. by eapply alloc_well_formed.
  - destruct Hop. intros [= <-]. by apply free_well_formed.
  - intros [= <-]. by apply free_image_well_formed.
Qed.

(** C9: from an allocator whose free list is sorted, after any sequence of
    [alloc(n)], [free(lidx, n)] and [free(image, size)] on 32-bit arguments
    the free list is sorted by (count, start_lidx); the empty free list of a
    new allocator is sorted ([well_formed_init]). *)
Theorem free_list_kept_sorted (a a' : Allocator.t) (ops : list Op) :
  well_formed a -> Forall op_typed ops -> run a ops = Ok a' ->
  Sorted pair_le (free_list a').
Proof.
  intros Hwf Hops Hrun.
  enough (well_formed a') as [? _] by done.
  revert a Hwf Hrun.
  induction Hops as [|op ops Hop Hops IH]; intros a Hwf; simpl.
  - by intros [= <-].
  - destruct (step a op) as [a1| |] eqn:Hstep; try done.
    apply IH. by eapply step_well_formed.
Qed.

(** *** What [alloc] returns *)

Lemma alloc_all_nonzero w : w <> 0 -> Bitmap.alloc_all w = (w, -1).
Proof.
  intros Hw. unfold Bitmap.alloc_all.
  destruct (w =? 0) eqn:E; [lia|]. reflexivity.
Qed.

Lemma alloc_batch_from_spec (ws : list Z) idx k :
  ws !! k = Some 0 -> (forall j, (j < k)%nat -> ws !! j <> Some 0) ->
  BitmapBlock.alloc_batch_from ws idx =
    (<[k := Bitmap.BITMAP_ALL_USED]> ws, Z.shiftl (idx + Z.of_nat k) 6).
Proof.
  revert ws idx. induction k as [|k IH]; intros [|w ws] idx Hk Hbefore;
    simpl in *; try done.
  - inversion Hk; subst. rewrite Z.add_0_r. reflexivity.
  - assert (w <> 0) as Hw.
    { intros ->. by apply (Hbefore 0%nat); [lia|]. }
    rewrite alloc_all_nonzero by done. simpl.
    rewrite (IH ws (idx + 1)); [|done|].
    + do 2 f_equal. lia.
    + intros j Hj. apply (Hbefore (S j)). lia.
Qed.

(** The batch allocator claims the first free word at or after the hint. *)
Lemma alloc_batch_spec (bitmap : list Z) hint k :
  0 <= hint -> first_free_word bitmap (Z.to_nat (Z.shiftr hint 6)) k ->
  BitmapBlock.alloc_batch bitmap hint =
    (<[k := Bitmap.BITMAP_ALL_USED]> bitmap, 64 * Z.of_nat k).
Proof.
  intros Hh (Hle & Hk & Hbefore). unfold BitmapBlock.alloc_batch.
  set (start := Z.to_nat (Z.shiftr hint 6)) in *.
  assert (0 <= Z.shiftr hint 6) as Hs by (by apply Z.shiftr_nonneg).
  rewrite (alloc_batch_from_spec _ _ (k - start)).
  - f_equal.
    + rewrite <- (take_drop start bitmap) at 3.
      assert (length (take start bitmap) = start) as Hlen.
      { rewrite length_take. apply lookup_lt_Some in Hk. lia. }
      rewrite insert_app_r_alt by lia. by rewrite Hlen.
    + rewrite Z.shiftl_mul_pow2 by lia.
      replace (Z.shiftr hint 6 + Z.of_nat (k - start)) with (Z.of_nat k) by lia.
      change (2 ^ 6) with 64. lia.
  - rewrite lookup_drop. by replace (start + (k - start))%nat with k by lia.
  - intros j Hj. rewrite lookup_drop. apply Hbefore. lia.
Qed.

Lemma alloc_hit_holds a n :
  well_formed a -> 0 <= n <= BITMAP_CAPACITY -> alloc_hit a n.
Proof.
  intros [Hs Ht] Hn c s Hin Hc Hs0 Hmin.
  pose proof (lower_bound_best_fit _ _ _ _ Hs Ht Hin Hc Hmin) as Hit.
  assert (entry_typed (c, s)) as [Hc32 Hs32].
  { eapply Forall_lookup in Ht; [|exact Hit]. done. }
  simpl in *. unfold alloc. rewrite Hit.
  destruct (n <=? BITMAP_CAPACITY) eqn:Hcap; [|lia]. simpl.
  destruct (s =? 0) eqn:Hz; [lia|].
  destruct (c =? n) eqn:Heq.
  { apply Z.eqb_eq in Heq. eexists _, _. split; [reflexivity|]. simpl.
    split_and!; [done|done|exact Hit|done|lia]. }
  apply Z.eqb_neq in Heq.
  destruct (n <? c) eqn:Hlt; [|apply Z.ltb_ge in Hlt; lia].
  apply Z.ltb_lt in Hlt.
  eexists _, _. split; [reflexivity|]. simpl.
  split_and!; [done|done|exact Hit|lia|]. intros _.
  assert (wrap32 (c - n) = c - n) as Hw.
  { apply wrap32_small. unfold uint32 in *. lia. }
  rewrite Hw. split.
  - eapply Sorted_shrink; [done|done|].
    rewrite <- Hw. apply shrunk_le; [done|lia|done].
  - rewrite std_sort_Permutation. by rewrite take_drop.
Qed.

Lemma alloc_miss_holds a n :
  well_formed a -> 0 <= n <= BITMAP_CAPACITY -> 0 <= recent_bitmap_idx a ->
  alloc_miss a n.
Proof.
  intros [Hs Ht] Hn Hrecent k (Hall & Hk & Hfit).
  unfold claims_fresh_run, alloc.
  destruct (n <=? BITMAP_CAPACITY) eqn:Hcap; [|lia]. simpl.
  rewrite lower_bound_miss by done.
  unfold alloc_from_bitmap, Bitmap_alloc_batch.
  rewrite (alloc_batch_spec _ _ k) by done.
  destruct (0 <=? 64 * Z.of_nat k) eqn:Hpos; [|lia]. simpl.
  unfold BITMAP_CAPACITY in *.
  assert (wrap32 (64 * Z.of_nat k) = 64 * Z.of_nat k) as Hl.
  { apply wrap32_small. unfold uint32. lia. }
  rewrite Hl. eexists. split; [split; [reflexivity|by simpl]|]. simpl. split.
  - intros Hlt. destruct (n <? 64) eqn:E; [|lia].
    split; [apply std_sort_Sorted|].
    rewrite std_sort_Permutation.
    rewrite !wrap32_small by (unfold uint32; lia). done.
  - intros ->. reflexivity.
Qed.

(** C5, as the code has it: for [n <= BITMAP_CAPACITY], [alloc(n)] returns
    the start index of the least free-list entry with [count >= n] when there
    is one, erasing the entry on an exact match and otherwise shrinking it
    ([count -= n], [start_lidx += n]) and sorting again; when there is none it
    claims the first free 64-block word at or after [recent_bitmap_idx],
    returns its first block, moves the cursor past it, and pushes the
    remainder [(BITMAP_CAPACITY - n, lidx + n)] when [n < BITMAP_CAPACITY];
    for [n = BITMAP_CAPACITY] the free list is left as it is. *)
Theorem alloc_best_fit_or_fresh_run (a : Allocator.t) (n : Z) :
  well_formed a -> 0 <= n <= BITMAP_CAPACITY -> 0 <= recent_bitmap_idx a ->
  alloc_hit a n /\ alloc_miss a n.
Proof.
  intros Hwf Hn Hrecent. split.
  - by apply alloc_hit_holds.
  - by apply alloc_miss_holds.
Qed.

End AllocatorFacts.

Section AllocatorExamples.

Import Allocator.

Ltac solve_range := unfold uint32; simpl; lia.
Ltac solve_pair_le := apply pair_le_alt; simpl; lia.

Lemma demo_allocator_well_formed : well_formed demo_allocator.
Proof.
  split; unfold demo_allocator; simpl.
  - repeat (constructor; try solve_pair_le).
  - repeat (constructor; try solve_range).
Defined.

Lemma demo_ops_typed : Forall op_typed demo_ops.
Proof.
  unfold demo_ops.
  repeat (constructor; simpl; try solve_range).
Defined.

Lemma demo_ops_run : run demo_allocator demo_ops = Ok demo_allocator_after.
Proof. vm_compute. reflexivity. Defined.

Example alloc_exact_match :
  alloc demo_allocator 5 =
    Ok (mk [(3, 100); (5, 300); (9, 50)] 65 [1; Bitmap.BITMAP_ALL_USED; 0],
        200).
Proof. reflexivity. Qed.

Example alloc_split :
  alloc demo_allocator 4 =
    Ok (mk [(1, 204); (3, 100); (5, 300); (9, 50)] 65
           [1; Bitmap.BITMAP_ALL_USED; 0], 200).
Proof. vm_compute. reflexivity. Qed.

Example alloc_from_the_bitmap :
  alloc demo_allocator 10 =
    Ok (mk [(3, 100); (5, 200); (5, 300); (9, 50); (54, 138)] 129
           [1; Bitmap.BITMAP_ALL_USED; Bitmap.BITMAP_ALL_USED], 128).
Proof. vm_compute. reflexivity. Qed.

Example alloc_more_than_a_word :
  alloc demo_allocator 65 = AssertionFailed "num_blocks <= BITMAP_CAPACITY".
Proof. reflexivity. Qed.

Example free_image_groups_adjacent_runs :
  free_list (free_image (mk [] 0 [0]) [5; 6; 7; 0; 9; 10; 3]) =
    [(1, 3); (2, 9); (3, 5)].
Proof. vm_compute. reflexivity. Qed.

Lemma alloc_best_fit_or_fresh_run_witness :
  well_formed demo_allocator /\ 0 <= 4 <= BITMAP_CAPACITY /\
  0 <= recent_bitmap_idx demo_allocator /\
  alloc_hit demo_allocator 4 /\ alloc_miss demo_allocator 4.
Proof.
  assert (0 <= 4 <= BITMAP_CAPACITY) as Hn by (unfold BITMAP_CAPACITY; lia).
  assert (0 <= recent_bitmap_idx demo_allocator) as Hr by (simpl; lia).
  split_and!; try done; try apply demo_allocator_well_formed;
    apply (alloc_best_fit_or_fresh_run demo_allocator 4
             demo_allocator_well_formed Hn Hr).
Defined.

Lemma free_list_kept_sorted_witness :
  well_formed demo_allocator /\ Forall op_typed demo_ops /\
  run demo_allocator demo_ops = Ok demo_allocator_after /\
  Sorted pair_le (free_list demo_allocator_after).
Proof.
  split_and!;
    [apply demo_allocator_well_formed | apply demo_ops_typed
    | apply demo_ops_run |].
  apply (free_list_kept_sorted demo_allocator demo_allocator_after demo_ops
           demo_allocator_well_formed demo_ops_typed demo_ops_run).
Defined.

(** C5 as stated fails for a whole word: with an empty free list, block 0
    marked in the first word and the second word free, [alloc(64)] returns
    block 64 and leaves the free list empty; no remainder [(0, 128)] is
    pushed. *)
Lemma alloc_of_a_whole_word_pushes_nothing :
  ~ alloc_miss_always_pushes (mk [] 0 [1; 0]) 64.
Proof.
  intros H. destruct (H 1%nat) as (a' & (Halloc & _) & Hperm).
  { split_and!.
    - intros p Hp. by apply elem_of_nil in Hp.
    - change (first_free_word [1; 0] 0 1). split_and!; [lia|done|].
      intros j Hj. assert (j = 0%nat) as -> by lia. done.
    - unfold BITMAP_CAPACITY. simpl. lia. }
  vm_compute in Halloc. inversion Halloc; subst a'.
  apply Permutation_length in Hperm. vm_compute in Hperm. discriminate.
Qed.

End AllocatorExamples.

(** ** Block table *)

Section BlkTableFacts.

Import BlkTable.

#[local] Instance covers_dec e v : Decision (covers e v).
Proof. destruct e; simpl; apply _. Defined.

Lemma get_cell st v : 0 <= v -> get st v = cell (table st) v.
Proof. intros Hv. unfold get, cell. destruct (0 <=? v) eqn:E; [done|lia]. Qed.

Lemma cell_app_zeros (tbl : list Z) m v :
  cell (tbl ++ replicate m 0) v = cell tbl v.
Proof.
  unfold cell. destruct (decide (Z.to_nat v < length tbl)%nat) as [Hlt|Hge].
  - by rewrite lookup_app_l.
  - rewrite lookup_app_r by lia. rewrite (lookup_ge_None_2 tbl) by lia.
    destruct (replicate m 0 !! _) as [x|] eqn:Hx; [|done].
    apply lookup_replicate in Hx as [-> _]. done.
Qed.

(** The [for] loop writes the run and nothing else. *)
Lemma write_run_spec n i (tbl : list Z) vidx lidx :
  0 <= vidx -> 0 <= i ->
  vidx + i + Z.of_nat n <= Z.of_nat (length tbl) ->
  vidx + i + Z.of_nat n <= 2 ^ 32 ->
  exists tbl',
    write_run n i tbl vidx lidx = Some tbl' /\
    length tbl' = length tbl /\
    forall j : nat,
      tbl' !! j =
        if decide (vidx + i <= Z.of_nat j < vidx + i + Z.of_nat n)
        then Some (wrap32 (lidx + (Z.of_nat j - vidx)))
        else tbl !! j.
Proof.
  revert i tbl. induction n as [|n IH]; intros i tbl Hv Hi Hlen Hfit; simpl.
  - exists tbl. split_and!; try done. intros j. case_decide; [lia|done].
  - unfold store. rewrite wrap32_small by (unfold uint32; lia).
    destruct ((0 <=? vidx + i) && (vidx + i <? Z.of_nat (length tbl))) eqn:E;
      [|apply andb_false_iff in E as [E|E]; lia].
    simpl.
    destruct (IH (i + 1) (<[Z.to_nat (vidx + i) := wrap32 (lidx + i)]> tbl))
      as (tbl' & Hrun & Hlen' & Hlook); try lia.
    { rewrite length_insert. lia. }
    exists tbl'. split_and!; [done|by rewrite Hlen', length_insert|].
    intros j. rewrite Hlook.
    destruct (decide (j = Z.to_nat (vidx + i))) as [->|Hne].
    + rewrite list_lookup_insert_eq by lia.
      repeat case_decide; try lia. do 2 f_equal. lia.
    + rewrite list_lookup_insert_ne by done.
      repeat case_decide; try lia; done.
Qed.

(** [resize_to_fit] makes room for the index and adds only zeros. *)
Lemma resize_to_fit_spec (tbl : list Z) idx :
  0 <= idx < 2 ^ 30 ->
  exists tbl',
    resize_to_fit tbl idx = Some tbl' /\
    idx < Z.of_nat (length tbl') /\
    forall v, cell tbl' v = cell tbl v.
Proof.
  intros Hidx. unfold resize_to_fit.
  destruct (idx <? Z.of_nat (length tbl)) eqn:E.
  { exists tbl. split_and!; [done|lia|done]. }
  apply Z.ltb_ge in E.
  destruct (bit_length_bound idx Hidx) as [Hk Hpow].
  rewrite shl_int_one by done. simpl.
  assert (0 < 2 ^ (32 - countl_zero32 idx)) by (apply Z.pow_pos_nonneg; lia).
  destruct (2 ^ (32 - countl_zero32 idx) <? 0) eqn:E'; [lia|].
  eexists. split_and!; [done| |].
  - unfold resize. rewrite length_app, length_take, length_replicate. lia.
  - intros v. unfold resize. rewrite take_ge by lia. apply cell_app_zeros.
Qed.

Lemma apply_tx_inline_spec st n bv bl ib :
  0 <= n -> 0 <= bv -> bv + n < 2 ^ 30 -> 0 < bl -> bl + n <= 2 ^ 32 ->
  exists st',
    apply_tx_inline st n bv bl ib = Some st' /\
    tail_tx_idx st' = tail_tx_idx st /\
    forall v, 0 <= v ->
      cell (table st') v =
        if decide (bv <= v < bv + n) then bl + (v - bv) else cell (table st) v.
Proof.
  intros Hn Hbv Hend Hbl Hfit. unfold apply_tx_inline.
  rewrite (wrap32_small (bv + n)) by (unfold uint32; lia).
  destruct (resize_to_fit_spec (table st) (bv + n)) as (tbl & -> & Hlen & Hcell);
    [lia|]. simpl.
  destruct (write_run_spec (Z.to_nat n) 0 tbl bv bl) as (tbl' & -> & _ & Hlook);
    try lia. simpl.
  eexists. split_and!; [done|done|]. simpl. intros v Hv.
  unfold cell at 1. rewrite Hlook.
  rewrite Z2Nat.id, Z.add_0_r by lia. rewrite Z2Nat.id by lia.
  case_decide; simpl.
  - apply wrap32_small. unfold uint32. lia.
  - apply Hcell.
Qed.





End BlkTableFacts.

(** ** File *)

Section FileFacts.

Import File.

Ltac split_elem H :=
  repeat first
    [ apply elem_of_app in H as [H|H]
    | apply elem_of_cons in H as [->|H]
    | apply elem_of_nil in H; destruct H ].





Example demo_log_replayed :
  BlkTable.table <$> BlkTable.update 64 demo_log BlkTable.init false =
    Some ([64; 65; 0] ++ ((λ i, 128 + Z.of_nat i) <$> seq 0 64) ++
          ((λ i, 192 + Z.of_nat i) <$> seq 0 6) ++ replicate 55 0).
Proof. vm_compute. reflexivity. Qed.



Example first_write_events :
  trace (overwrite 64 fresh [65] 1 0).1 =
    [EvBeginTx 0 1; EvAlloc 1 64; EvStore 262144 [65];
     EvPersistFenced 262144 1; EvWriteLogEntry 0 64 1 4095; EvCommitTx 0 0;
     EvUpdate].
Proof. vm_compute. reflexivity. Qed.

(** After one write to block 0 the table has an entry for block 1, which is
    zero: a read that runs into block 1 stops at the assertion. *)
Example pread_past_the_written_block :
  let f0 := (overwrite 64 fresh [65] 1 0).1 in
  BlkTable.table (blk_table f0) = [64; 0] /\
  pread f0 4097 0 = AssertionFailed "logical_block_idx != 0".
Proof. vm_compute. split; reflexivity. Qed.


End FileFacts.

(** ** Memory table *)

Section MemTableFacts.

Import MemTable.

Lemma IS_ALIGNED_pow2 x k :
  0 <= k -> IS_ALIGNED x (2 ^ k) = (x mod 2 ^ k =? 0).
Proof.
  intros Hk. unfold IS_ALIGNED.
  replace (2 ^ k - 1) with (Z.ones k) by (rewrite Z.ones_equiv; lia).
  by rewrite Z.land_ones.
Qed.

Lemma IS_ALIGNED_block x :
  IS_ALIGNED x Layout.BLOCK_SIZE = (x mod Layout.BLOCK_SIZE =? 0).
Proof. apply (IS_ALIGNED_pow2 x 12). lia. Qed.

(** [((x >> k) + 1) << k] is the next multiple of [2^k] after [x]. *)
Lemma next_grow_unit x k :
  0 <= k ->
  let y := Z.shiftl (Z.shiftr x k + 1) k in
  y mod 2 ^ k = 0 /\ x < y <= x + 2 ^ k.
Proof.
  intros Hk y. unfold y.
  rewrite Z.shiftl_mul_pow2, Z.shiftr_div_pow2 by lia.
  assert (0 < 2 ^ k) by (apply Z.pow_pos_nonneg; lia).
  split; [apply Z.mod_mul; lia|].
  pose proof (Z.div_mod x (2 ^ k)). pose proof (Z.mod_pos_bound x (2 ^ k)).
  nia.
Qed.

Variable params : LayoutParams.
Variable options : BuildOptions.
Variable host : Host.

(** The grow unit is the power of two of its shift (the mask
    [GROW_UNIT_IN_BLOCK_MASK] of [get_addr] is built from the shift and keys
    the table that [init] fills in steps of [grow_unit_size / BLOCK_SIZE]),
    and a new file is preallocated one grow unit ([get_addr] maps a grow unit
    with the length [prealloc_size]). *)
Hypothesis shift_nonneg : 0 <= grow_unit_shift params.
Hypothesis unit_is_pow2 : grow_unit_size params = 2 ^ grow_unit_shift params.
Hypothesis prealloc_is_unit : prealloc_size params = grow_unit_size params.

(** C7: [init] throws, before any host call, for every file size that is not
    a multiple of the block size; for a block-aligned size that is zero or
    not a multiple of [grow_unit_size] its first host call is the [ftruncate]
    of the file to the next multiple of [grow_unit_size], and the only call
    that can follow is the [mmap] of that many bytes.  ([file_size] is the
    size of a file: not negative and with room for a grow unit in [off_t].) *)
Theorem init_checks_alignment_and_grows_before_mapping (fd file_size : Z) :
  0 <= file_size -> file_size + grow_unit_size params < 2 ^ 63 ->
  (file_size mod Layout.BLOCK_SIZE <> 0 ->
     exists what, init params options host fd file_size = ([], Throws what)) /\
  (file_size mod Layout.BLOCK_SIZE = 0 ->
   file_size = 0 \/ file_size mod grow_unit_size params <> 0 ->
     exists new_size rest result,
       init params options host fd file_size =
         (Ftruncate fd new_size :: rest, result) /\
       new_size mod grow_unit_size params = 0 /\
       file_size < new_size <= file_size + grow_unit_size params /\
       Forall (is_mmap_of new_size) rest).
Proof.
  intros _ _. split.
  - intros Hna. unfold init. rewrite IS_ALIGNED_block.
    destruct (file_size mod Layout.BLOCK_SIZE =? 0) eqn:E; [lia|].
    simpl. eauto.
  - intros Hal Hgrow. unfold init. rewrite IS_ALIGNED_block.
    destruct (file_size mod Layout.BLOCK_SIZE =? 0) eqn:E; [|lia].
    simpl. rewrite unit_is_pow2, IS_ALIGNED_pow2 by done.
    rewrite <- unit_is_pow2.
    assert ((file_size =? 0) || negb (file_size mod grow_unit_size params =? 0)
            = true) as ->.
    { destruct Hgrow as [->|Hne]; [done|].
      apply orb_true_iff. right. apply negb_true_iff. lia. }
    simpl.
    set (new_size :=
           if file_size =? 0 then prealloc_size params
           else Z.shiftl (Z.shiftr file_size (grow_unit_shift params) + 1)
                  (grow_unit_shift params)).
    assert (new_size mod grow_unit_size params = 0 /\
            file_size < new_size <= file_size + grow_unit_size params)
      as [Hmod [Hlt Hle]].
    { unfold new_size. destruct (file_size =? 0) eqn:E0.
      - apply Z.eqb_eq in E0. subst file_size.
        rewrite prealloc_is_unit, unit_is_pow2.
        assert (0 < 2 ^ grow_unit_shift params)
          by (apply Z.pow_pos_nonneg; lia).
        split; [apply Z.mod_same; lia|lia].
      - rewrite unit_is_pow2. by apply next_grow_unit. }
    exists new_size.
    destruct (negb (ftruncate_ret host fd new_size =? 0)).
    { exists [], (Throws "Fail to ftruncate!"). split_and!; try done. }
    simpl.
    destruct (mmap_ret host _ _ _ _ _ =? -1).
    { eexists _, _. split; [reflexivity|]. split_and!; try done.
      constructor; [done|constructor]. }
    destruct (init_mapping _ _ _ _ _ _);
      (eexists _, _; split; [reflexivity|]; split_and!; try done;
       constructor; [done|constructor]).
Qed.

End MemTableFacts.

Section MemTableExamples.

Import MemTable.

Example init_new_file :
  (init demo_params demo_options demo_host 3 0).1 =
    [Ftruncate 3 2097152; Mmap 2097152 3 1 3 0].
Proof. vm_compute. reflexivity. Qed.

Example init_one_block_file :
  (init demo_params demo_options demo_host 3 4096).1 =
    [Ftruncate 3 2097152; Mmap 2097152 3 1 3 0].
Proof. vm_compute. reflexivity. Qed.

Example init_aligned_file :
  (init demo_params demo_options demo_host 3 4194304).1 =
    [Mmap 4194304 3 1 3 0].
Proof. vm_compute. reflexivity. Qed.

Example init_unaligned_file :
  init demo_params demo_options demo_host 3 100 =
    ([], Throws "Invalid layout: non-block-aligned file size!").
Proof. reflexivity. Qed.

Lemma init_checks_alignment_and_grows_before_mapping_witness :
  0 <= grow_unit_shift demo_params /\
  grow_unit_size demo_params = 2 ^ grow_unit_shift demo_params /\
  prealloc_size demo_params = grow_unit_size demo_params /\
  0 <= 4096 /\ 4096 + grow_unit_size demo_params < 2 ^ 63 /\
  (4096 mod Layout.BLOCK_SIZE <> 0 ->
     exists what,
       init demo_params demo_options demo_host 3 4096 = ([], Throws what)) /\
  (4096 mod Layout.BLOCK_SIZE = 0 ->
   4096 = 0 \/ 4096 mod grow_unit_size demo_params <> 0 ->
     exists new_size rest result,
       init demo_params demo_options demo_host 3 4096 =
         (Ftruncate 3 new_size :: rest, result) /\
       new_size mod grow_unit_size demo_params = 0 /\
       4096 < new_size <= 4096 + grow_unit_size demo_params /\
       Forall (is_mmap_of new_size) rest).
Proof.
  assert (0 <= grow_unit_shift demo_params) as H1 by (simpl; lia).
  assert (grow_unit_size demo_params = 2 ^ grow_unit_shift demo_params)
    as H2 by reflexivity.
  assert (prealloc_size demo_params = grow_unit_size demo_params)
    as H3 by reflexivity.
  assert (0 <= 4096) as H4 by lia.
  assert (4096 + grow_unit_size demo_params < 2 ^ 63) as H5 by (simpl; lia).
  split; [exact H1|]. split; [exact H2|]. split; [exact H3|].
  split; [exact H4|]. split; [exact H5|].
  exact (init_checks_alignment_and_grows_before_mapping
           demo_params demo_options demo_host H1 H2 H3 3 4096 H4 H5).
Defined.

End MemTableExamples.

(** ** The library entry points *)

Section LibFacts.

(** C8: whatever the descriptor, the buffer and the count, [write] and [read]
    hand the request to [posix::write] and [posix::read]; it never becomes the
    transaction that [TxMgr::do_write] or [TxMgr::do_read] runs on the file of
    the descriptor. *)
Theorem write_and_read_go_to_the_host
    (debug : bool) (fd : Z) (buf : list Z) (count : Z)
    (grant : TxMgr.OffsetGrant) :
  Lib.callee (Lib.write debug fd buf count) = Lib.PosixWrite fd buf count /\
  Lib.callee (Lib.write debug fd buf count) <>
    Lib.RunTx fd (TxMgr.do_write grant count) /\
  Lib.callee (Lib.read debug fd count) = Lib.PosixRead fd count /\
  Lib.callee (Lib.read debug fd count) <>
    Lib.RunTx fd (TxMgr.do_read grant count).
Proof. repeat split; discriminate. Qed.

End LibFacts.

(** * Further properties of the code *)

(** ** Bitmap blocks *)

Section BitmapBlockFacts.

Lemma alloc_batch_from_none (ws : list Z) idx :
  (forall j, ws !! j <> Some 0) ->
  BitmapBlock.alloc_batch_from ws idx = (ws, -1).
Proof.
  revert idx. induction ws as [|w ws IH]; intros idx Hnone; simpl; [done|].
  assert (w <> 0) as Hw by (intros ->; by apply (Hnone 0%nat)).
  rewrite alloc_all_nonzero by done. simpl.
  rewrite IH; [done|]. intros j. apply (Hnone (S j)).
Qed.

Lemma alloc_batch_none (bitmaps : list Z) hint :
  (forall j, (Z.to_nat (Z.shiftr hint 6) <= j)%nat -> bitmaps !! j <> Some 0) ->
  BitmapBlock.alloc_batch bitmaps hint = (bitmaps, -1).
Proof.
  intros Hnone. unfold BitmapBlock.alloc_batch.
  rewrite alloc_batch_from_none.
  - by rewrite take_drop.
  - intros j. rewrite lookup_drop. apply Hnone. lia.
Qed.

Lemma first_zero_or_none (ws : list Z) :
  (exists k, ws !! k = Some 0 /\ forall j, (j < k)%nat -> ws !! j <> Some 0) \/
  (forall j, ws !! j <> Some 0).
Proof.
  induction ws as [|w ws IH]; [right; by intros []|].
  destruct (decide (w = 0)) as [->|Hw].
  { left. exists 0%nat. split; [done|]. intros j Hj. lia. }
  destruct IH as [(k & Hk & Hbefore)|Hnone].
  - left. exists (S k). split; [done|]. intros [|j] Hj; simpl.
    + by intros [= ->].
    + apply Hbefore. lia.
  - right. intros [|j]; simpl; [by intros [= ->]|apply Hnone].
Qed.

(** X1: [BitmapBlock::alloc_batch] claims the first all-free word at or after
    word [hint >> 6], setting it to all-used and returning the index of its
    first block, and when no word from there on is all-free it returns -1 and
    leaves every word as it was. *)
Theorem alloc_batch_first_free_or_none (bitmaps : list Z) (hint : Z) :
  0 <= hint ->
  let start := Z.to_nat (Z.shiftr hint 6) in
  (exists k, first_free_word bitmaps start k /\
     BitmapBlock.alloc_batch bitmaps hint =
       (<[k := Bitmap.BITMAP_ALL_USED]> bitmaps, 64 * Z.of_nat k)) \/
  ((forall j, (start <= j)%nat -> bitmaps !! j <> Some 0) /\
   BitmapBlock.alloc_batch bitmaps hint = (bitmaps, -1)).
Proof.
  intros Hh start.
  destruct (first_zero_or_none (drop start bitmaps))
    as [(k & Hk & Hbefore)|Hnone].
  - left. exists (start + k)%nat.
    assert (first_free_word bitmaps start (start + k)) as Hffw.
    { split_and!; [lia|by rewrite <- lookup_drop|].
      intros j Hj. replace j with (start + (j - start))%nat by lia.
      rewrite <- lookup_drop. apply Hbefore. lia. }
    split; [done|]. by apply alloc_batch_spec.
  - right. split.
    + intros j Hj. replace j with (start + (j - start))%nat by lia.
      rewrite <- lookup_drop. apply Hnone.
    + unfold BitmapBlock.alloc_batch. fold start.
      rewrite alloc_batch_from_none by done. by rewrite take_drop.
Qed.

Lemma alloc_batch_first_free_or_none_witness :
  0 <= 0 /\
  ((exists k, first_free_word [1; 0] (Z.to_nat (Z.shiftr 0 6)) k /\
      BitmapBlock.alloc_batch [1; 0] 0 =
        (<[k := Bitmap.BITMAP_ALL_USED]> [1; 0], 64 * Z.of_nat k)) \/
   ((forall j, (Z.to_nat (Z.shiftr 0 6) <= j)%nat -> [1; 0] !! j <> Some 0) /\
    BitmapBlock.alloc_batch [1; 0] 0 = ([1; 0], -1))).
Proof.
  assert (0 <= 0) as H0 by lia.
  split; [exact H0|]. exact (alloc_batch_first_free_or_none [1; 0] 0 H0).
Defined.

Lemma inline_loop_claims n idx (ib : list Z) k :
  0 <= idx -> (Z.to_nat idx <= k)%nat -> (k - Z.to_nat idx < n)%nat ->
  ib !! k = Some 0 ->
  (forall j, (Z.to_nat idx <= j < k)%nat -> ib !! j <> Some 0 /\ is_Some (ib !! j)) ->
  MetaBlock.inline_alloc_batch_loop n idx ib =
    Ok (<[k := Bitmap.BITMAP_ALL_USED]> ib, 64 * Z.of_nat k).
Proof.
  revert idx. induction n as [|n IH]; intros idx Hidx Hle Hn Hk Hbefore; [lia|].
  simpl. destruct (decide (Z.to_nat idx = k)) as [<-|Hne].
  - rewrite Hk. simpl. do 2 f_equal.
    rewrite Z.shiftl_mul_pow2 by lia. change (2 ^ 6) with 64. lia.
  - destruct (Hbefore (Z.to_nat idx)) as [Hnz [w Hw]]; [lia|].
    rewrite Hw. assert (w <> 0) by (intros ->; done).
    rewrite alloc_all_nonzero by done. simpl.
    rewrite list_insert_id by done.
    apply IH; try lia; [done|].
    intros j Hj. apply Hbefore. lia.
Qed.

Lemma inline_loop_overruns n idx (ib : list Z) :
  0 <= idx -> (Z.to_nat idx <= length ib)%nat ->
  (length ib - Z.to_nat idx < n)%nat ->
  (forall j, (Z.to_nat idx <= j)%nat -> ib !! j <> Some 0) ->
  MetaBlock.inline_alloc_batch_loop n idx ib = Undefined.
Proof.
  revert idx. induction n as [|n IH]; intros idx Hidx Hle Hn Hnone; [lia|].
  simpl. destruct (ib !! Z.to_nat idx) as [w|] eqn:Hw; [|done].
  assert (w <> 0) by (intros ->; by apply (Hnone (Z.to_nat idx))).
  rewrite alloc_all_nonzero by done. simpl.
  rewrite list_insert_id by done.
  apply lookup_lt_Some in Hw.
  apply IH; try lia. intros j Hj. apply Hnone. lia.
Qed.

(** X2: [MetaBlock::inline_alloc_batch] claims the first all-free inline
    bitmap word at or after word [hint >> 6]; when none of the 16 inline words
    from there on is all-free, its loop, which runs up to
    [NUM_INLINE_TX_ENTRY], reads past the end of [inline_bitmaps]. *)
Theorem inline_alloc_batch_claims_or_overruns (inline_bitmaps : list Z) (hint : Z) :
  0 <= hint ->
  Z.of_nat (length inline_bitmaps) = Layout.NUM_INLINE_BITMAP ->
  Z.shiftr hint 6 <= Layout.NUM_INLINE_BITMAP ->
  let start := Z.to_nat (Z.shiftr hint 6) in
  (forall k, first_free_word inline_bitmaps start k ->
     MetaBlock.inline_alloc_batch inline_bitmaps hint =
       Ok (<[k := Bitmap.BITMAP_ALL_USED]> inline_bitmaps, 64 * Z.of_nat k)) /\
  ((forall j, (start <= j)%nat -> inline_bitmaps !! j <> Some 0) ->
     MetaBlock.inline_alloc_batch inline_bitmaps hint = Undefined).
Proof.
  intros Hh Hlen Hs start.
  assert (0 <= Z.shiftr hint 6) by (by apply Z.shiftr_nonneg).
  unfold Layout.NUM_INLINE_BITMAP, Layout.NUM_CL_BITMAP_IN_META,
    Layout.CACHELINE_SIZE, Layout.sizeof_Bitmap in *.
  change (2 * (64 / 8)) with 16 in *.
  unfold MetaBlock.inline_alloc_batch.
  change Layout.NUM_INLINE_TX_ENTRY with 480.
  split.
  - intros k (Hle & Hk & Hbefore).
    pose proof (lookup_lt_Some _ _ _ Hk).
    apply inline_loop_claims; try done; try lia.
    intros j Hj. split; [apply Hbefore; lia|].
    apply lookup_lt_is_Some. lia.
  - intros Hnone. apply inline_loop_overruns; try done; lia.
Qed.

Lemma inline_alloc_batch_claims_or_overruns_witness :
  0 <= 0 /\
  Z.of_nat (length (1 :: replicate 15 0)) = Layout.NUM_INLINE_BITMAP /\
  Z.shiftr 0 6 <= Layout.NUM_INLINE_BITMAP /\
  (forall k, first_free_word (1 :: replicate 15 0) (Z.to_nat (Z.shiftr 0 6)) k ->
     MetaBlock.inline_alloc_batch (1 :: replicate 15 0) 0 =
       Ok (<[k := Bitmap.BITMAP_ALL_USED]> (1 :: replicate 15 0),
           64 * Z.of_nat k)) /\
  ((forall j, (Z.to_nat (Z.shiftr 0 6) <= j)%nat ->
              (1 :: replicate 15 0) !! j <> Some 0) ->
     MetaBlock.inline_alloc_batch (1 :: replicate 15 0) 0 = Undefined).
Proof.
  assert (0 <= 0) as H0 by lia.
  assert (Z.of_nat (length (1 :: replicate 15 0)) = Layout.NUM_INLINE_BITMAP)
    as H1 by reflexivity.
  assert (Z.shiftr 0 6 <= Layout.NUM_INLINE_BITMAP) as H2 by (vm_compute; discriminate).
  split; [exact H0|]. split; [exact H1|]. split; [exact H2|].
  exact (inline_alloc_batch_claims_or_overruns (1 :: replicate 15 0) 0 H0 H1 H2).
Defined.

Lemma countr_zero_from_range n i b :
  i <= countr_zero_from n i b <= i + Z.of_nat n.
Proof.
  revert i. induction n as [|n IH]; intros i; simpl; [lia|].
  destruct (Z.testbit b i); [lia|]. specialize (IH (i + 1)). lia.
Qed.

Lemma countr_zero_range b : 0 <= countr_zero b <= 64.
Proof. pose proof (countr_zero_from_range 64 0 b). unfold countr_zero. lia. Qed.

Lemma alloc_one_from_all_used (ws : list Z) idx :
  (forall j w, ws !! j = Some w -> w = Bitmap.BITMAP_ALL_USED) ->
  BitmapBlock.alloc_one_from ws idx = Some (ws, -1).
Proof.
  revert idx. induction ws as [|w ws IH]; intros idx Hall; simpl; [done|].
  rewrite (Hall 0%nat w eq_refl), alloc_one_all_used. simpl.
  rewrite IH; [|intros j w' Hj; apply (Hall (S j) w' Hj)].
  simpl. by rewrite <- (Hall 0%nat w eq_refl).
Qed.

Lemma alloc_one_from_spec (ws : list Z) idx k w :
  0 <= idx -> idx + Z.of_nat k < 2 ^ 24 ->
  ws !! k = Some w -> w <> Bitmap.BITMAP_ALL_USED -> 0 <= w < 2 ^ 64 ->
  (forall j, (j < k)%nat -> ws !! j = Some Bitmap.BITMAP_ALL_USED) ->
  BitmapBlock.alloc_one_from ws idx =
    Some (<[k := 0]> ws, 64 * (idx + Z.of_nat k) + countr_zero w).
Proof.
  revert idx k. induction ws as [|x ws IH]; intros idx k Hidx Hk Hw Hne Hr Hbefore;
    [done|].
  pose proof (countr_zero_range w) as Hc.
  destruct k as [|k]; simpl in *.
  - injection Hw as ->. rewrite alloc_one_stores_zero by done. simpl.
    destruct (countr_zero w <? 0) eqn:E; [lia|]. do 2 f_equal.
    rewrite Z.shiftl_mul_pow2 by lia. change (2 ^ 6) with 64.
    unfold to_int32. rewrite wrap32_small by (unfold uint32; lia).
    destruct (idx * 64 + countr_zero w <? 2 ^ 31) eqn:E'; lia.
  - pose proof (Hbefore 0%nat ltac:(lia)) as H0. simpl in H0. injection H0 as ->.
    rewrite alloc_one_all_used. simpl.
    rewrite (IH (idx + 1) k) by
      (try done; try lia; intros j Hj; apply (Hbefore (S j)); lia).
    simpl. do 2 f_equal. lia.
Qed.

(** X3: [BitmapBlock::alloc_one] returns -1, leaving the words as they are,
    when every word from word [hint >> 6] on is all-used; otherwise it stops
    at the first word [w] that has a free bit, stores zero into it and returns
    [64 * k + countr_zero(w)] for its position [k]. *)
Theorem alloc_one_zeroes_the_first_word_with_room (bitmaps : list Z) (hint : Z) :
  0 <= hint -> Z.of_nat (length bitmaps) <= 2 ^ 24 ->
  let start := Z.to_nat (Z.shiftr hint 6) in
  (forall k w,
     first_word_with_room bitmaps start k w -> 0 <= w < 2 ^ 64 ->
     BitmapBlock.alloc_one bitmaps hint =
       Some (<[k := 0]> bitmaps, 64 * Z.of_nat k + countr_zero w)) /\
  ((forall j w, (start <= j)%nat -> bitmaps !! j = Some w ->
                w = Bitmap.BITMAP_ALL_USED) ->
   BitmapBlock.alloc_one bitmaps hint = Some (bitmaps, -1)).
Proof.
  intros Hh Hlen start. unfold BitmapBlock.alloc_one. fold start.
  assert (0 <= Z.shiftr hint 6) as Hs by (by apply Z.shiftr_nonneg).
  split.
  - intros k w (Hle & Hw & Hne & Hbefore) Hr.
    pose proof (lookup_lt_Some _ _ _ Hw) as Hklt.
    rewrite (alloc_one_from_spec (drop start bitmaps) (Z.shiftr hint 6)
               (k - start) w); try done.
    + simpl. do 2 f_equal.
      * rewrite <- (take_drop start bitmaps) at 3.
        rewrite insert_app_r_alt by (rewrite length_take; lia).
        do 2 f_equal. rewrite length_take. lia.
      * f_equal. unfold start in *. lia.
    + unfold start in *. lia.
    + rewrite lookup_drop. by replace (start + (k - start))%nat with k by lia.
    + intros j Hj. rewrite lookup_drop. apply Hbefore. lia.
  - intros Hall. rewrite alloc_one_from_all_used.
    + simpl. by rewrite take_drop.
    + intros j w Hj. rewrite lookup_drop in Hj. eapply Hall; [|exact Hj]. lia.
Qed.

Lemma alloc_one_zeroes_the_first_word_with_room_witness :
  0 <= 0 /\
  Z.of_nat (length [Bitmap.BITMAP_ALL_USED; 6]) <= 2 ^ 24 /\
  (forall k w,
     first_word_with_room [Bitmap.BITMAP_ALL_USED; 6]
       (Z.to_nat (Z.shiftr 0 6)) k w -> 0 <= w < 2 ^ 64 ->
     BitmapBlock.alloc_one [Bitmap.BITMAP_ALL_USED; 6] 0 =
       Some (<[k := 0]> [Bitmap.BITMAP_ALL_USED; 6],
             64 * Z.of_nat k + countr_zero w)) /\
  ((forall j w, (Z.to_nat (Z.shiftr 0 6) <= j)%nat ->
                [Bitmap.BITMAP_ALL_USED; 6] !! j = Some w ->
                w = Bitmap.BITMAP_ALL_USED) ->
   BitmapBlock.alloc_one [Bitmap.BITMAP_ALL_USED; 6] 0 =
     Some ([Bitmap.BITMAP_ALL_USED; 6], -1)).
Proof.
  assert (0 <= 0) as H0 by lia.
  assert (Z.of_nat (length [Bitmap.BITMAP_ALL_USED; 6]) <= 2 ^ 24) as H1
    by (simpl; lia).
  split; [exact H0|]. split; [exact H1|].
  exact (alloc_one_zeroes_the_first_word_with_room
           [Bitmap.BITMAP_ALL_USED; 6] 0 H0 H1).
Defined.

Lemma get_block_idx_closed_form b i :
  bit_in_range b i ->
  BitmapBlock.get_block_idx b i =
    if b =? 0 then i else 1024 + (b - 1) * 32768 + i.
Proof.
  unfold bit_in_range, BitmapBlock.get_block_idx.
  change Layout.NUM_INLINE_BITMAP with 16. change Layout.NUM_BITMAP with 512.
  intros [[-> Hi]|[Hb Hi]].
  - simpl. apply wrap32_small. unfold uint32. lia.
  - destruct (b =? 0) eqn:E; [lia|].
    rewrite (wrap32_small (b - 1)) by (unfold uint32; lia).
    rewrite (wrap32_small ((b - 1) * 512)) by (unfold uint32; lia).
    rewrite (wrap32_small (16 + _)) by (unfold uint32; lia).
    rewrite Z.shiftl_mul_pow2 by lia. change (2 ^ 6) with 64.
    rewrite (wrap32_small ((16 + _) * 64)) by (unfold uint32; lia).
    rewrite wrap32_small by (unfold uint32; lia). lia.
Qed.

(** X4: [BitmapBlock::get_block_idx] gives different bits different block
    indices: two bits in range with the same block index are the same bit of
    the same bitmap block. *)
Theorem get_block_idx_injective b i b' i' :
  bit_in_range b i -> bit_in_range b' i' ->
  BitmapBlock.get_block_idx b i = BitmapBlock.get_block_idx b' i' ->
  b = b' /\ i = i'.
Proof.
  intros H H'. rewrite !get_block_idx_closed_form by done.
  unfold bit_in_range in *.
  change Layout.NUM_INLINE_BITMAP with 16 in *.
  change Layout.NUM_BITMAP with 512 in *.
  destruct (b =? 0) eqn:E, (b' =? 0) eqn:E'; lia.
Qed.

Lemma get_block_idx_injective_witness :
  bit_in_range 1 5 /\ bit_in_range 1 5 /\
  BitmapBlock.get_block_idx 1 5 = BitmapBlock.get_block_idx 1 5 /\
  1 = 1 /\ 5 = 5.
Proof.
  assert (bit_in_range 1 5) as H1 by (right; vm_compute; intuition discriminate).
  assert (BitmapBlock.get_block_idx 1 5 = BitmapBlock.get_block_idx 1 5) as H2
    by reflexivity.
  split; [exact H1|]. split; [exact H1|]. split; [exact H2|].
  exact (get_block_idx_injective 1 5 1 5 H1 H1 H2).
Defined.

End BitmapBlockFacts.

(** ** Transaction log blocks *)

Section TxLogBlockCommits.

Lemma try_commit_loop_spec n idx (entries : list Z) e r :
  0 <= idx -> idx + Z.of_nat n <= Z.of_nat (length entries) ->
  (TxLogBlock.try_commit_loop n idx entries e).2 = r -> r <> -1 ->
  idx <= r < idx + Z.of_nat n /\
  entries !! Z.to_nat r = Some 0 /\
  (forall i, idx <= i < r -> entries !! Z.to_nat i <> Some 0) /\
  (TxLogBlock.try_commit_loop n idx entries e).1 = <[Z.to_nat r := e]> entries.
Proof.
  revert idx. induction n as [|n IH]; intros idx Hidx Hlen; simpl; [congruence|].
  destruct (entries !! Z.to_nat idx) as [w|] eqn:Hw.
  2:{ apply lookup_ge_None in Hw. lia. }
  simpl. destruct (w =? 0) eqn:E; simpl.
  - apply Z.eqb_eq in E. subst w. unfold compare_exchange. simpl.
    intros <- _. split_and!; [lia|lia|done| |done].
    intros i Hi. lia.
  - apply Z.eqb_neq in E. intros Hr Hne.
    destruct (IH (idx + 1)) as (Hrange & Hz & Hbefore & Hnew); try done; try lia.
    split_and!; try done; try lia.
    intros i Hi. destruct (decide (i = idx)) as [->|Hn].
    + rewrite Hw. by intros [= ->].
    + apply Hbefore. lia.
Qed.

(** X5: when [TxLogBlock::try_commit] returns an index, that index is at or
    after [hint_tail] and below [NUM_LOG_ENTRY], the slot was zero, every slot
    from [hint_tail] up to it was taken, and the only change to the block is
    the commit entry stored in that slot. *)
Theorem try_commit_takes_the_first_zero_slot (tx_entries : list Z)
    (commit_entry hint_tail r : Z) :
  0 <= hint_tail -> Layout.NUM_LOG_ENTRY <= Z.of_nat (length tx_entries) ->
  (TxLogBlock.try_commit tx_entries commit_entry hint_tail).2 = r -> r <> -1 ->
  hint_tail <= r < Layout.NUM_LOG_ENTRY /\
  tx_entries !! Z.to_nat r = Some 0 /\
  (forall i, hint_tail <= i < r -> tx_entries !! Z.to_nat i <> Some 0) /\
  (TxLogBlock.try_commit tx_entries commit_entry hint_tail).1 =
    <[Z.to_nat r := commit_entry]> tx_entries.
Proof.
  intros Hh Hlen Hr Hne. unfold TxLogBlock.try_commit in *.
  destruct (decide (hint_tail <= Layout.NUM_LOG_ENTRY)) as [Hle|Hgt].
  - assert (hint_tail + Z.of_nat (Z.to_nat (Layout.NUM_LOG_ENTRY - hint_tail))
            <= Z.of_nat (length tx_entries)) as Hfit by lia.
    destruct (try_commit_loop_spec _ _ _ _ _ Hh Hfit Hr Hne)
      as (H1 & H2 & H3 & H4).
    split_and!; try done; lia.
  - replace (Z.to_nat (Layout.NUM_LOG_ENTRY - hint_tail)) with 0%nat in Hr by lia.
    simpl in Hr. congruence.
Qed.

Lemma try_commit_takes_the_first_zero_slot_witness :
  0 <= 0 /\
  Layout.NUM_LOG_ENTRY <= Z.of_nat (length (replicate 5 1 ++ replicate 506 0)) /\
  (TxLogBlock.try_commit (replicate 5 1 ++ replicate 506 0) 7 0).2 = 5 /\
  5 <> -1 /\
  0 <= 5 < Layout.NUM_LOG_ENTRY /\
  (replicate 5 1 ++ replicate 506 0) !! Z.to_nat 5 = Some 0 /\
  (forall i, 0 <= i < 5 ->
     (replicate 5 1 ++ replicate 506 0) !! Z.to_nat i <> Some 0) /\
  (TxLogBlock.try_commit (replicate 5 1 ++ replicate 506 0) 7 0).1 =
    <[Z.to_nat 5 := 7]> (replicate 5 1 ++ replicate 506 0).
Proof.
  assert (0 <= 0) as H0 by lia.
  assert (Layout.NUM_LOG_ENTRY <=
          Z.of_nat (length (replicate 5 1 ++ replicate 506 0))) as H1
    by (vm_compute; discriminate).
  assert ((TxLogBlock.try_commit (replicate 5 1 ++ replicate 506 0) 7 0).2 = 5)
    as H2 by (vm_compute; reflexivity).
  assert (5 <> -1) as H3 by lia.
  split; [exact H0|]. split; [exact H1|]. split; [exact H2|]. split; [exact H3|].
  exact (try_commit_takes_the_first_zero_slot
           (replicate 5 1 ++ replicate 506 0) 7 0 5 H0 H1 H2 H3).
Defined.

Lemma try_commit_loop_keeps n idx (entries : list Z) e (i : nat) w :
  entries !! i = Some w -> w <> 0 ->
  (TxLogBlock.try_commit_loop n idx entries e).1 !! i = Some w.
Proof.
  revert idx. induction n as [|n IH]; intros idx Hw Hne; simpl; [done|].
  destruct (default 0 (entries !! Z.to_nat idx) =? 0) eqn:E; simpl; [|by apply IH].
  apply Z.eqb_eq in E. rewrite E. simpl.
  destruct (decide (i = Z.to_nat idx)) as [->|Hd].
  - rewrite Hw in E. simpl in E. done.
  - by rewrite list_lookup_insert_ne.
Qed.

(** X6: [TxLogBlock::try_commit] never changes a slot that holds an entry:
    a non-zero slot has the same value after the call, whatever the call
    returns. *)
Theorem try_commit_keeps_committed_slots (tx_entries : list Z)
    (commit_entry hint_tail : Z) (i : nat) (w : Z) :
  tx_entries !! i = Some w -> w <> 0 ->
  (TxLogBlock.try_commit tx_entries commit_entry hint_tail).1 !! i = Some w.
Proof. intros. by apply try_commit_loop_keeps. Qed.

Lemma try_commit_keeps_committed_slots_witness :
  (replicate 5 1 ++ replicate 506 0) !! 2%nat = Some 1 /\ 1 <> 0 /\
  (TxLogBlock.try_commit (replicate 5 1 ++ replicate 506 0) 7 0).1 !! 2%nat =
    Some 1.
Proof.
  assert ((replicate 5 1 ++ replicate 506 0) !! 2%nat = Some 1) as H0
    by reflexivity.
  assert (1 <> 0) as H1 by lia.
  split; [exact H0|]. split; [exact H1|].
  exact (try_commit_keeps_committed_slots
           (replicate 5 1 ++ replicate 506 0) 7 0 2 1 H0 H1).
Defined.

End TxLogBlockCommits.

(** ** Allocator *)

Section AllocatorRoundTrips.

Import Allocator.

Lemma pair_le_unique (l1 l2 : list (Z * Z)) :
  Sorted pair_le l1 -> Sorted pair_le l2 -> l1 ≡ₚ l2 -> l1 = l2.
Proof.
  assert (Transitive pair_le) by (intros x y z; rewrite !pair_le_alt; lia).
  intros H1 H2 Hp. apply (Sorted_unique_strong pair_le); [|done..].
  intros [x1 y1] [x2 y2] _ _. rewrite !pair_le_alt. simpl. intros ??. f_equal; lia.
Qed.

(** X7: a run given to [Allocator::free] is what the next [Allocator::alloc]
    of that many blocks returns, and the allocator is then as it was before
    the two calls, provided that no free run fits the request better (one
    with fewer blocks, or as many and a lower start). *)
Theorem alloc_returns_the_run_just_freed (a : Allocator.t) (lidx n : Z) :
  well_formed a -> uint32 lidx -> lidx <> 0 -> 0 <= n <= BITMAP_CAPACITY ->
  (forall p, p ∈ free_list a -> n <= p.1 -> pair_le (n, lidx) p) ->
  alloc (free a lidx n) n = Ok (a, lidx).
Proof.
  intros Hwf Hl Hne Hn Hbest.
  assert (uint32 n) as Hn32 by (unfold uint32, BITMAP_CAPACITY in *; lia).
  pose proof (free_well_formed a lidx n Hwf Hl Hn32) as Hwf1.
  assert (free_list (free a lidx n) ≡ₚ (n, lidx) :: free_list a) as Hperm.
  { unfold free. destruct (lidx =? 0) eqn:E; [lia|]. simpl.
    rewrite std_sort_Permutation. by rewrite Permutation_app_comm. }
  destruct (alloc_hit_holds (free a lidx n) n Hwf1 Hn n lidx)
    as (a' & i & Halloc & Hbm & Hrec & Hi & Hexact & _).
  - rewrite Hperm. by left.
  - lia.
  - done.
  - intros p Hp Hge. rewrite Hperm in Hp.
    apply elem_of_cons in Hp as [->|Hp]; [|by apply Hbest].
    apply pair_le_alt. simpl. lia.
  - rewrite Halloc. do 2 f_equal.
    specialize (Hexact eq_refl).
    assert (free_list a' = free_list a) as Hfl.
    { apply pair_le_unique.
      - rewrite Hexact. apply Sorted_delete. apply Hwf1.
      - apply Hwf.
      - rewrite Hexact. apply (Permutation_cons_inv (a := (n, lidx))).
        by rewrite <- delete_Permutation. }
    assert (bitmap (free a lidx n) = bitmap a /\
            recent_bitmap_idx (free a lidx n) = recent_bitmap_idx a) as [Hb Hr].
    { unfold free. by destruct (lidx =? 0). }
    destruct a, a'. simpl in *. congruence.
Qed.

Lemma alloc_returns_the_run_just_freed_witness :
  well_formed demo_allocator /\ uint32 7 /\ 7 <> 0 /\
  0 <= 4 <= BITMAP_CAPACITY /\
  (forall p, p ∈ free_list demo_allocator -> 4 <= p.1 -> pair_le (4, 7) p) /\
  alloc (free demo_allocator 7 4) 4 = Ok (demo_allocator, 7).
Proof.
  assert (uint32 7) as H1 by (unfold uint32; lia).
  assert (7 <> 0) as H2 by lia.
  assert (0 <= 4 <= BITMAP_CAPACITY) as H3 by (unfold BITMAP_CAPACITY; lia).
  assert (forall p, p ∈ free_list demo_allocator -> 4 <= p.1 ->
                    pair_le (4, 7) p) as H4.
  { intros p Hp Hge. simpl in Hp.
    repeat (apply elem_of_cons in Hp as [->|Hp];
            [apply pair_le_alt; simpl in *; lia|]).
    by apply elem_of_nil in Hp. }
  split; [exact demo_allocator_well_formed|]. split; [exact H1|].
  split; [exact H2|]. split; [exact H3|]. split; [exact H4|].
  exact (alloc_returns_the_run_just_freed demo_allocator 7 4
           demo_allocator_well_formed H1 H2 H3 H4).
Defined.

Lemma free_blocks_app l1 l2 : free_blocks (l1 ++ l2) = free_blocks l1 ++ free_blocks l2.
Proof. unfold free_blocks. by rewrite fmap_app, concat_app. Qed.

Lemma free_blocks_singleton c s : free_blocks [(c, s)] = seqZ s c.
Proof. unfold free_blocks, run_blocks. simpl. by rewrite app_nil_r. Qed.

Lemma free_image_loop_groups (image : list Z) (size curr gb gbl : Z)
    (fl : list (Z * Z)) :
  0 <= curr -> curr + Z.of_nat (length image) = size -> size < 2 ^ 32 ->
  Forall (fun x => 0 <= x /\ x + size < 2 ^ 32) image ->
  gbl = 0 \/ (0 < gbl /\ 0 <= gb < curr /\ gbl + size < 2 ^ 32) ->
  exists gb' gbl' fl' pushed,
    free_image_loop image curr gb gbl fl = (gb', gbl', fl') /\
    close_group size gb' gbl' fl' = fl ++ pushed /\
    free_blocks pushed =
      (if gbl =? 0 then [] else seqZ gbl (curr - gb)) ++
      filter (fun x => x <> 0) image.
Proof.
  revert curr gb gbl fl.
  induction image as [|x image IH]; intros curr gb gbl fl Hc Hlen Hsize Hty Hst.
  - simpl in *. unfold close_group.
    destruct Hst as [->|(Hg & Hgb & Hb)].
    + exists gb, 0, fl, []. simpl. by rewrite app_nil_r.
    + eexists gb, gbl, fl, _.
      destruct (gbl =? 0) eqn:E; [lia|]. simpl. split_and!; [done|done|].
      rewrite free_blocks_singleton, app_nil_r.
      rewrite wrap32_small by (unfold uint32; lia). f_equal. lia.
  - apply Forall_cons in Hty as [[Hx0 Hx] Hty]. simpl in Hlen.
    simpl. destruct Hst as [->|(Hg & Hgb & Hb)].
    + simpl. destruct (x =? 0) eqn:Ex.
      * apply Z.eqb_eq in Ex. subst x.
        destruct (IH (curr + 1) gb 0 fl) as (gb' & gbl' & fl' & pushed & -> & Hcl & Hbl);
          [lia|lia|done|done|by left|].
        exists gb', gbl', fl', pushed. split_and!; [done|done|].
        by rewrite filter_cons_False by lia.
      * apply Z.eqb_neq in Ex.
        destruct (IH (curr + 1) curr x fl) as (gb' & gbl' & fl' & pushed & -> & Hcl & Hbl);
          [lia|lia|done|done|right; lia|].
        exists gb', gbl', fl', pushed. split_and!; [done|done|].
        rewrite Hbl. destruct (x =? 0) eqn:E; [lia|].
        rewrite filter_cons_True by done.
        replace (curr + 1 - curr) with 1 by lia. done.
    + destruct (gbl =? 0) eqn:E; [lia|].
      rewrite (wrap32_small (curr - gb)) by (unfold uint32; lia).
      rewrite (wrap32_small (gbl + _)) by (unfold uint32; lia).
      destruct (x =? gbl + (curr - gb)) eqn:Ex.
      * apply Z.eqb_eq in Ex.
        destruct (IH (curr + 1) gb gbl fl) as (gb' & gbl' & fl' & pushed & -> & Hcl & Hbl);
          [lia|lia|done|done|right; lia|].
        exists gb', gbl', fl', pushed. split_and!; [done|done|].
        rewrite Hbl, E. rewrite filter_cons_True by lia.
        replace (curr + 1 - gb) with ((curr - gb) + 1) by lia.
        rewrite seqZ_app by lia. rewrite <- app_assoc. f_equal.
        rewrite <- Ex. done.
      * apply Z.eqb_neq in Ex.
        destruct (x =? 0) eqn:Ex0; simpl.
        -- apply Z.eqb_eq in Ex0. subst x.
           destruct (IH (curr + 1) gb 0 (fl ++ [(curr - gb, gbl)]))
             as (gb' & gbl' & fl' & pushed & -> & Hcl & Hbl);
             [lia|lia|done|done|by left|].
           exists gb', gbl', fl', ((curr - gb, gbl) :: pushed).
           split_and!; [done|by rewrite Hcl, <- app_assoc|].
           change ((curr - gb, gbl) :: pushed) with ([(curr - gb, gbl)] ++ pushed).
           rewrite free_blocks_app, free_blocks_singleton, Hbl. simpl.
           by rewrite filter_cons_False by lia.
        -- apply Z.eqb_neq in Ex0.
           destruct (IH (curr + 1) curr x (fl ++ [(curr - gb, gbl)]))
             as (gb' & gbl' & fl' & pushed & -> & Hcl & Hbl);
             [lia|lia|done|done|right; lia|].
           exists gb', gbl', fl', ((curr - gb, gbl) :: pushed).
           split_and!; [done|by rewrite Hcl, <- app_assoc|].
           change ((curr - gb, gbl) :: pushed) with ([(curr - gb, gbl)] ++ pushed).
           rewrite free_blocks_app, free_blocks_singleton, Hbl.
           destruct (x =? 0) eqn:E'; [lia|].
           rewrite filter_cons_True by done.
           replace (curr + 1 - curr) with 1 by lia. done.
Qed.

(** X8: [Allocator::free(recycle_image, image_size)] adds runs to the free
    list whose blocks, laid out run after run in the order in which they are
    found, are exactly the non-zero entries of the image in image order; the
    entries already in the list stay. *)
Theorem free_image_frees_the_blocks_of_the_image (a : Allocator.t)
    (recycle_image : list Z) :
  Forall (fun x => 0 <= x /\ x + Z.of_nat (length recycle_image) < 2 ^ 32)
    recycle_image ->
  exists pushed,
    free_list (free_image a recycle_image) ≡ₚ free_list a ++ pushed /\
    free_blocks pushed = filter (fun x => x <> 0) recycle_image.
Proof.
  intros Hty. unfold free_image.
  destruct (Z.of_nat (length recycle_image) =? 0) eqn:E.
  - exists []. destruct recycle_image; [|simpl in E; lia].
    split; [by rewrite app_nil_r|done].
  - assert (Z.of_nat (length recycle_image) < 2 ^ 32) as Hsize.
    { destruct recycle_image as [|x l]; [simpl in E; lia|].
      apply Forall_cons in Hty as [[? ?] _]. lia. }
    destruct (free_image_loop_groups recycle_image
                (Z.of_nat (length recycle_image)) 0 0 0 (free_list a))
      as (gb' & gbl' & fl' & pushed & -> & Hcl & Hbl);
      [lia|lia|done|done|by left|].
    exists pushed. simpl. split; [|done].
    rewrite std_sort_Permutation. unfold close_group in Hcl. by rewrite Hcl.
Qed.

Lemma free_image_frees_the_blocks_of_the_image_witness :
  Forall (fun x => 0 <= x /\ x + Z.of_nat (length [5; 6; 0; 9]) < 2 ^ 32)
    [5; 6; 0; 9] /\
  exists pushed,
    free_list (free_image demo_allocator [5; 6; 0; 9]) ≡ₚ
      free_list demo_allocator ++ pushed /\
    free_blocks pushed = filter (fun x => x <> 0) [5; 6; 0; 9].
Proof.
  assert (Forall (fun x => 0 <= x /\ x + Z.of_nat (length [5; 6; 0; 9]) < 2 ^ 32)
            [5; 6; 0; 9]) as H0 by (repeat constructor; simpl; lia).
  split; [exact H0|].
  exact (free_image_frees_the_blocks_of_the_image demo_allocator [5; 6; 0; 9] H0).
Defined.

(** X9: when no free run is large enough and no bitmap word from the cursor
    on is all-free, [Allocator::alloc] stops at its assertion
    [recent_bitmap_idx >= 0]; it returns no block. *)
Theorem alloc_asserts_when_the_bitmap_is_exhausted (a : Allocator.t) (n : Z) :
  Forall entry_typed (free_list a) -> 0 <= n <= BITMAP_CAPACITY ->
  (forall p, p ∈ free_list a -> p.1 < n) ->
  (forall j, (Z.to_nat (Z.shiftr (recent_bitmap_idx a) 6) <= j)%nat ->
             bitmap a !! j <> Some 0) ->
  alloc a n = AssertionFailed "recent_bitmap_idx >= 0".
Proof.
  intros Hty Hn Hsmall Hnone. unfold alloc.
  destruct (negb (n <=? BITMAP_CAPACITY)) eqn:E.
  { apply negb_true_iff in E. lia. }
  rewrite (lower_bound_miss _ _ Hty Hsmall).
  unfold alloc_from_bitmap, Bitmap_alloc_batch.
  by rewrite (alloc_batch_none _ _ Hnone).
Qed.

Lemma alloc_asserts_when_the_bitmap_is_exhausted_witness :
  Forall entry_typed (free_list demo_full_allocator) /\
  0 <= 4 <= BITMAP_CAPACITY /\
  (forall p, p ∈ free_list demo_full_allocator -> p.1 < 4) /\
  (forall j,
     (Z.to_nat (Z.shiftr (recent_bitmap_idx demo_full_allocator)
                  6) <= j)%nat ->
     bitmap demo_full_allocator !! j <> Some 0) /\
  alloc demo_full_allocator 4 =
    AssertionFailed "recent_bitmap_idx >= 0".
Proof.
  assert (Forall entry_typed (free_list demo_full_allocator))
    as H0 by constructor.
  assert (0 <= 4 <= BITMAP_CAPACITY) as H1 by (unfold BITMAP_CAPACITY; lia).
  assert (forall p, p ∈ free_list demo_full_allocator ->
                    p.1 < 4) as H2.
  { intros p Hp. by apply elem_of_nil in Hp. }
  assert (forall j,
            (Z.to_nat (Z.shiftr
               (recent_bitmap_idx demo_full_allocator) 6)
             <= j)%nat ->
            bitmap demo_full_allocator !! j <> Some 0) as H3.
  { intros [|[|j]] _; done. }
  split; [exact H0|]. split; [exact H1|]. split; [exact H2|]. split; [exact H3|].
  exact (alloc_asserts_when_the_bitmap_is_exhausted
           demo_full_allocator 4 H0 H1 H2 H3).
Defined.

End AllocatorRoundTrips.

(** ** Block table *)

Section BlkTableValues.

Import BlkTable.

Lemma apply_chunks_values MAX ls now end_ (tbl : list Z) :
  0 < MAX < 2 ^ 16 -> 0 <= now -> end_ < 2 ^ 30 ->
  end_ <= Z.of_nat (length tbl) ->
  end_ - now <= Z.of_nat (length ls) * MAX ->
  Forall (run_ok MAX) ls ->
  exists tbl',
    apply_chunks MAX ls now end_ tbl = Some tbl' /\
    length tbl' = length tbl /\
    forall v, 0 <= v ->
      cell tbl' v =
        if (now <=? v) && (v <? end_)
        then default 0 (ls !! Z.to_nat ((v - now) / MAX)) + (v - now) mod MAX
        else cell tbl v.
Proof.
  intros HM. revert now tbl.
  induction ls as [|l rest IH]; intros now tbl Hnow Hend Hlen Hcover Hok; simpl.
  - simpl in Hcover. destruct (now <? end_) eqn:E; [lia|].
    exists tbl. split_and!; try done. intros v Hv.
    destruct ((now <=? v) && (v <? end_)) eqn:E'; [lia|done].
  - destruct (now <? end_) eqn:E.
    2:{ exists tbl. split_and!; try done. intros v Hv.
        destruct ((now <=? v) && (v <? end_)) eqn:E'; [lia|done]. }
    apply Z.ltb_lt in E. apply Forall_cons in Hok as [[Hl Hlfit] Hrest].
    rewrite (wrap32_small (now + MAX)) by (unfold uint32; lia).
    rewrite (wrap32_small (end_ - now)) by (unfold uint32; lia).
    set (chunk := if now + MAX <? end_ then MAX else end_ - now).
    assert (0 < chunk <= MAX /\ now + chunk <= end_ /\
            (chunk = MAX \/ now + chunk = end_)) as (Hc & Hce & Hcases).
    { unfold chunk. destruct (now + MAX <? end_) eqn:E'; lia. }
    assert (wrap16 chunk = chunk) as ->.
    { unfold wrap16. apply Z.mod_small. lia. }
    destruct (write_run_spec (Z.to_nat chunk) 0 tbl now l)
      as (tbl1 & -> & Hlen1 & Hlook1); try lia. simpl.
    rewrite (wrap32_small (now + chunk)) by (unfold uint32; lia).
    destruct (IH (now + chunk) tbl1) as (tbl' & -> & Hlen' & Hcells);
      try done; try lia.
    { rewrite length_cons in Hcover. nia. }
    exists tbl'. split_and!; [done|congruence|].
    intros v Hv. rewrite (Hcells v Hv).
    assert (cell tbl1 v =
            if decide (now <= v < now + chunk) then l + (v - now)
            else cell tbl v) as Hcell1.
    { unfold cell. rewrite Hlook1.
      rewrite Z2Nat.id, Z.add_0_r by lia. rewrite Z2Nat.id by lia.
      case_decide; simpl; [|done].
      apply wrap32_small. unfold uint32. lia. }
    destruct ((now + chunk <=? v) && (v <? end_)) eqn:E1.
    + assert (chunk = MAX) as HcM by lia.
      destruct ((now <=? v) && (v <? end_)) eqn:E2; [|lia].
      rewrite HcM.
      replace (v - now) with ((v - (now + MAX)) + 1 * MAX) by lia.
      rewrite Z.div_add, Z.mod_add by lia.
      assert (0 <= (v - (now + MAX)) / MAX) by (apply Z.div_pos; lia).
      replace (Z.to_nat ((v - (now + MAX)) / MAX + 1))
        with (S (Z.to_nat ((v - (now + MAX)) / MAX))) by lia.
      done.
    + rewrite Hcell1. case_decide.
      * destruct ((now <=? v) && (v <? end_)) eqn:E2; [|lia].
        rewrite Z.div_small, Z.mod_small by lia. simpl. done.
      * destruct ((now <=? v) && (v <? end_)) eqn:E2; [lia|done].
Qed.

Lemma apply_entry_values MAX st e ib :
  0 < MAX < 2 ^ 16 -> entry_ok MAX e ->
  exists st',
    match e with
    | TxCommitInline n v l => apply_tx_inline st n v l ib
    | TxCommitIndirect v n ls => apply_tx_indirect MAX st v n ls
    | TxInvalid => Some st
    end = Some st' /\
    forall v, 0 <= v ->
      cell (table st') v = default (cell (table st) v) (written_by MAX e v).
Proof.
  intros HM Hok. destruct e as [|n bv bl|bv n ls]; simpl in *; [done| |].
  - destruct Hok as (Hn & Hbv & Hend & Hbl & Hfit).
    destruct (apply_tx_inline_spec st n bv bl ib) as (st' & -> & Htail & Hcell);
      try done.
    exists st'. split; [done|]. intros v Hv. rewrite Hcell by done.
    case_decide; destruct ((bv <=? v) && (v <? bv + n)) eqn:E; try lia; done.
  - destruct Hok as (Hn & Hbv & Hend & Hcover & Hruns).
    unfold apply_tx_indirect.
    rewrite (wrap32_small (bv + n)) by (unfold uint32; lia).
    destruct (resize_to_fit_spec (table st) (bv + n))
      as (tbl & -> & Hlen & Hcell); [lia|]. simpl.
    destruct (apply_chunks_values MAX ls bv (bv + n) tbl)
      as (tbl' & -> & _ & Hcells); try done; try lia. simpl.
    eexists. split; [done|]. simpl. intros v Hv.
    rewrite (Hcells v Hv).
    destruct ((bv <=? v) && (v <? bv + n)); [done|]. apply Hcell.
Qed.

Lemma replay_values MAX entries st ib :
  0 < MAX < 2 ^ 16 -> Forall (entry_ok MAX) entries ->
  exists st',
    replay MAX entries st ib = Some st' /\
    forall v, 0 <= v ->
      cell (table st') v = last_writer MAX entries (cell (table st) v) v.
Proof.
  intros HM Hok. revert st.
  induction Hok as [|e entries He Hok IH]; intros st; simpl.
  - by exists st.
  - assert (is_valid e = true) as -> by (by destruct e).
    simpl.
    destruct (apply_entry_values MAX st e ib HM He) as (st1 & Happ & Hcell).
    assert ((match e with
             | TxInvalid => Some st
             | TxCommitInline n v l => apply_tx_inline st n v l ib
             | TxCommitIndirect v n ls => apply_tx_indirect MAX st v n ls
             end) = Some st1) as -> by (by destruct e).
    simpl.
    destruct (IH (mk (table st1) (S (tail_tx_idx st1)) (marked st1)))
      as (st' & -> & Hcells).
    exists st'. split; [done|].
    intros v Hv. rewrite Hcells by done. simpl. unfold last_writer. simpl.
    by rewrite Hcell.
Qed.

(** X10: [BlkTable::update] from a new block table over a log of committed
    transactions maps every virtual block to the logical block that the last
    transaction covering it gave it, and to 0 when none covers it. *)
Theorem update_maps_each_block_to_its_last_writer
    (MAX : Z) (log : list TxEntry) (init_bitmap : bool) :
  0 < MAX < 2 ^ 16 -> Forall (entry_ok MAX) log ->
  exists bt,
    update MAX log init init_bitmap = Some bt /\
    forall v, 0 <= v -> get bt v = last_writer MAX log 0 v.
Proof.
  intros HM Hok. unfold update. simpl. rewrite drop_0.
  destruct (replay_values MAX log init init_bitmap HM Hok) as (st' & -> & Hcells).
  simpl. eexists. split; [done|].
  intros v Hv. rewrite get_cell by done.
  assert (table (if init_bitmap
                 then mk (table st') (tail_tx_idx st') (marked st' ++ table st')
                 else st') = table st') as -> by (by destruct init_bitmap).
  rewrite Hcells by done.
  assert (cell (table init) v = 0) as ->; [|done].
  unfold cell, init. simpl. by destruct (Z.to_nat v).
Qed.

Lemma update_maps_each_block_to_its_last_writer_witness :
  0 < 64 < 2 ^ 16 /\ Forall (entry_ok 64) demo_log /\
  exists bt,
    update 64 demo_log init false = Some bt /\
    forall v, 0 <= v -> get bt v = last_writer 64 demo_log 0 v.
Proof.
  assert (0 < 64 < 2 ^ 16) as H0 by lia.
  assert (Forall (entry_ok 64) demo_log) as H1.
  { unfold demo_log. constructor; [simpl; lia|].
    constructor; [|constructor]. simpl. split_and!; try lia.
    repeat constructor; simpl; lia. }
  split; [exact H0|]. split; [exact H1|].
  exact (update_maps_each_block_to_its_last_writer 64 demo_log false H0 H1).
Defined.

Lemma bit_length_tight idx :
  0 < idx < 2 ^ 30 -> 2 ^ (32 - countl_zero32 idx) <= 2 * idx.
Proof.
  intros Hidx. unfold countl_zero32.
  destruct (idx =? 0) eqn:E; [lia|].
  replace (32 - (32 - (Z.log2 idx + 1))) with (Z.succ (Z.log2 idx)) by lia.
  assert (0 <= Z.log2 idx) by apply Z.log2_nonneg.
  rewrite Z.pow_succ_r by done.
  pose proof (Z.log2_spec idx ltac:(lia)). lia.
Qed.

(** X11: [BlkTable::resize_to_fit] leaves a table that reaches the index as
    it is; otherwise, for an index below [2^30], it appends zeros up to the
    least power of two above the index; for a larger index the shift
    [1 << ...] does not give a size. *)
Theorem resize_to_fit_grows_to_the_next_power_of_two (table : list Z) (idx : Z) :
  0 <= idx < 2 ^ 32 ->
  (idx < Z.of_nat (length table) -> resize_to_fit table idx = Some table) /\
  (Z.of_nat (length table) <= idx -> idx < 2 ^ 30 ->
     exists k, 0 <= k <= 30 /\ idx < 2 ^ k <= 2 * idx + 1 /\
       resize_to_fit table idx =
         Some (table ++ replicate (Z.to_nat (2 ^ k) - length table) 0)) /\
  (Z.of_nat (length table) <= idx -> 2 ^ 30 <= idx ->
     resize_to_fit table idx = None).
Proof.
  intros Hidx. unfold resize_to_fit. split_and!.
  - intros Hlt. destruct (idx <? Z.of_nat (length table)) eqn:E; [done|lia].
  - intros Hge Hsmall.
    destruct (idx <? Z.of_nat (length table)) eqn:E; [lia|].
    destruct (bit_length_bound idx ltac:(lia)) as [Hk Hpow].
    exists (32 - countl_zero32 idx). split; [done|].
    rewrite shl_int_one by done. simpl.
    assert (0 < 2 ^ (32 - countl_zero32 idx)) by (apply Z.pow_pos_nonneg; lia).
    destruct (2 ^ (32 - countl_zero32 idx) <? 0) eqn:E'; [lia|].
    split.
    + split; [done|]. destruct (decide (idx = 0)) as [->|Hnz]; [done|].
      pose proof (bit_length_tight idx ltac:(lia)). lia.
    + unfold resize. rewrite take_ge by lia. done.
  - intros Hge Hbig.
    destruct (idx <? Z.of_nat (length table)) eqn:E; [lia|].
    assert (30 <= Z.log2 idx < 32) as Hlog.
    { split; [apply Z.log2_le_pow2; lia|apply Z.log2_lt_pow2; lia]. }
    unfold countl_zero32. destruct (idx =? 0) eqn:E0; [lia|].
    unfold shl_int.
    destruct (decide (Z.log2 idx = 30)) as [H30|H31].
    + rewrite H30. reflexivity.
    + replace (Z.log2 idx) with 31 by lia. reflexivity.
Qed.

Lemma resize_to_fit_grows_to_the_next_power_of_two_witness :
  0 <= 5 < 2 ^ 32 /\
  (5 < Z.of_nat (length [7]) -> resize_to_fit [7] 5 = Some [7]) /\
  (Z.of_nat (length [7]) <= 5 -> 5 < 2 ^ 30 ->
     exists k, 0 <= k <= 30 /\ 5 < 2 ^ k <= 2 * 5 + 1 /\
       resize_to_fit [7] 5 =
         Some ([7] ++ replicate (Z.to_nat (2 ^ k) - length [7]) 0)) /\
  (Z.of_nat (length [7]) <= 5 -> 2 ^ 30 <= 5 -> resize_to_fit [7] 5 = None).
Proof.
  assert (0 <= 5 < 2 ^ 32) as H0 by lia.
  split; [exact H0|].
  exact (resize_to_fit_grows_to_the_next_power_of_two [7] 5 H0).
Defined.

Lemma replay_app MAX l1 l2 st ib :
  Forall (fun e => is_valid e = true) l1 ->
  replay MAX (l1 ++ l2) st ib = (st1 ← replay MAX l1 st ib; replay MAX l2 st1 ib).
Proof.
  intros Hv. revert st. induction Hv as [|e l1 He Hv IH]; intros st; simpl.
  - by destruct (replay MAX l2 st ib).
  - rewrite He. simpl.
    destruct (match e with
              | TxInvalid => Some st
              | TxCommitInline n v l => apply_tx_inline st n v l ib
              | TxCommitIndirect v n ls => apply_tx_indirect MAX st v n ls
              end) as [st1|]; simpl; [|done].
    apply IH.
Qed.

Lemma replay_tail MAX l st ib st' :
  Forall (fun e => is_valid e = true) l ->
  replay MAX l st ib = Some st' ->
  tail_tx_idx st' = (tail_tx_idx st + length l)%nat.
Proof.
  intros Hv. revert st. induction Hv as [|e l He Hv IH]; intros st; simpl.
  - intros [= <-]. lia.
  - rewrite He. simpl.
    destruct e as [|n v lx|v n ls]; [done| |]; simpl.
    + unfold apply_tx_inline.
      destruct (resize_to_fit _ _) as [tbl|]; simpl; [|done].
      destruct (write_run _ _ _ _ _) as [tbl'|]; simpl; [|done].
      intros H. apply IH in H. simpl in H. lia.
    + unfold apply_tx_indirect.
      destruct (resize_to_fit _ _) as [tbl|]; simpl; [|done].
      destruct (apply_chunks _ _ _ _ _) as [tbl'|]; simpl; [|done].
      intros H. apply IH in H. simpl in H. lia.
Qed.

(** X12: [BlkTable::update] resumes from its cursor: updating over a log
    whose entries up to the cursor's reach are committed, and then again once
    the log has grown, gives the block table that one update over the grown
    log gives. *)
Theorem update_resumes_from_the_cursor
    (MAX : Z) (log1 log2 : list TxEntry) (st : BlkTable.t) :
  Forall (fun e => is_valid e = true) log1 ->
  (tail_tx_idx st <= length log1)%nat ->
  update MAX (log1 ++ log2) st false =
    (bt ← update MAX log1 st false; update MAX (log1 ++ log2) bt false).
Proof.
  intros Hv Ht. unfold update.
  rewrite drop_app_le by done.
  rewrite replay_app by (by apply Forall_drop).
  destruct (replay MAX (drop (tail_tx_idx st) log1) st false) as [st1|] eqn:E;
    simpl; [|done].
  apply replay_tail in E; [|by apply Forall_drop].
  rewrite length_drop in E.
  replace (tail_tx_idx st1) with (length log1) by lia.
  by rewrite drop_app_length.
Qed.

Lemma update_resumes_from_the_cursor_witness :
  Forall (fun e => is_valid e = true) demo_log /\
  (tail_tx_idx init <= length demo_log)%nat /\
  update 64 (demo_log ++ [TxCommitInline 1 0 300]) init false =
    (bt ← update 64 demo_log init false;
     update 64 (demo_log ++ [TxCommitInline 1 0 300]) bt false).
Proof.
  assert (Forall (fun e => is_valid e = true) demo_log) as H0
    by (repeat constructor).
  assert (tail_tx_idx init <= length demo_log)%nat as H1 by (simpl; lia).
  split; [exact H0|]. split; [exact H1|].
  exact (update_resumes_from_the_cursor 64 demo_log [TxCommitInline 1 0 300]
           init H0 H1).
Defined.

End BlkTableValues.

(** ** Memory table *)

Section MemTableGrowth.

Import MemTable.

Variable params : LayoutParams.
Variable options : BuildOptions.
Variable host : Host.

(** A grow unit is at least a block and its shift is one of a 32-bit index;
    it is the power of two of its shift, and a new file is preallocated one
    grow unit. *)
Hypothesis shift_range : Layout.BLOCK_SHIFT <= grow_unit_shift params < 32.
Hypothesis unit_is_pow2 : grow_unit_size params = 2 ^ grow_unit_shift params.
Hypothesis prealloc_is_unit : prealloc_size params = grow_unit_size params.

Lemma grow_target idx :
  0 <= idx -> idx + 2 ^ grow_unit_shift params < 2 ^ 32 ->
  let n := wrap32 (Z.shiftl (wrap32 (Z.shiftr idx (grow_unit_shift params) + 1))
                     (grow_unit_shift params)) in
  n mod 2 ^ grow_unit_shift params = 0 /\
  idx < n <= idx + 2 ^ grow_unit_shift params.
Proof.
  intros Hidx Hfit n. unfold Layout.BLOCK_SHIFT in *.
  assert (0 <= grow_unit_shift params) as Hs by lia.
  assert (0 < 2 ^ grow_unit_shift params) by (apply Z.pow_pos_nonneg; lia).
  destruct (next_grow_unit idx (grow_unit_shift params) Hs) as [Hmod Hrange].
  unfold n. rewrite Z.shiftr_div_pow2 by done.
  assert (0 <= idx / 2 ^ grow_unit_shift params <= idx).
  { split; [apply Z.div_pos; lia|]. apply Z.div_le_upper_bound; nia. }
  rewrite (wrap32_small (_ + 1)) by (unfold uint32; lia).
  rewrite Z.shiftl_mul_pow2 by done.
  rewrite Z.shiftl_mul_pow2, Z.shiftr_div_pow2 in Hmod, Hrange by done.
  rewrite wrap32_small by (unfold uint32; lia). done.
Qed.

Lemma grow_no_lock_grows (m : MemTable.t) (idx : Z) :
  0 <= idx -> idx + 2 ^ grow_unit_shift params < 2 ^ 32 ->
  meta_num_blocks m <= idx ->
  exists n,
    n mod 2 ^ grow_unit_shift params = 0 /\
    idx < n <= idx + 2 ^ grow_unit_shift params /\
    grow_no_lock params host m idx =
      ([HostCall (Ftruncate (fd m) (n * Layout.BLOCK_SIZE))],
       if ftruncate_ret host (fd m) (n * Layout.BLOCK_SIZE) =? 0
       then Returns (mk (meta m) (fd m) (num_blocks_local_copy m) n (table m))
       else Throws "Fail to ftruncate!").
Proof.
  intros Hidx Hfit Hge.
  destruct (grow_target idx Hidx Hfit) as (Hmod & Hrange).
  eexists. split; [exact Hmod|]. split; [exact Hrange|].
  unfold grow_no_lock.
  destruct (idx <? meta_num_blocks m) eqn:E; [lia|].
  rewrite (Z.shiftl_mul_pow2 _ Layout.BLOCK_SHIFT) by (unfold Layout.BLOCK_SHIFT; lia).
  change (2 ^ Layout.BLOCK_SHIFT) with Layout.BLOCK_SIZE.
  by destruct (ftruncate_ret host (fd m) _ =? 0).
Qed.

(** X13: for a block index that is not below [meta->num_blocks] and for
    which [idx + 2^grow_unit_shift < 2^32], so that the [uint32_t]
    [new_num_blocks] does not wrap, [grow_no_lock] truncates the file to
    [n * BLOCK_SIZE] bytes where [n] is the next multiple of
    [2^grow_unit_shift] above the block index, counted in blocks; it records
    [n] as the number of blocks when the host accepts the call and throws
    when the host refuses it. *)
Theorem grow_no_lock_rounds_up_in_blocks (m : MemTable.t) (idx : Z) :
  0 <= idx -> idx + 2 ^ grow_unit_shift params < 2 ^ 32 ->
  meta_num_blocks m <= idx ->
  exists n,
    n mod 2 ^ grow_unit_shift params = 0 /\
    idx < n <= idx + 2 ^ grow_unit_shift params /\
    grow_no_lock params host m idx =
      ([HostCall (Ftruncate (fd m) (n * Layout.BLOCK_SIZE))],
       if ftruncate_ret host (fd m) (n * Layout.BLOCK_SIZE) =? 0
       then Returns (mk (meta m) (fd m) (num_blocks_local_copy m) n (table m))
       else Throws "Fail to ftruncate!").
Proof. apply grow_no_lock_grows. Qed.

(** X14: for a block index with [idx + 2^grow_unit_shift < 2^32] and a
    local copy of the number of blocks that does not exceed
    [meta->num_blocks], [validate] never runs forever.  When it returns, the
    block is below [meta->num_blocks], the local copy does not exceed it, the
    table of mappings is untouched and the meta lock is not held; when it
    throws, the host has refused the [ftruncate] and the meta lock is still
    held. *)
Theorem validate_outcomes (m : MemTable.t) (idx : Z) :
  0 <= idx -> idx + 2 ^ grow_unit_shift params < 2 ^ 32 ->
  num_blocks_local_copy m <= meta_num_blocks m ->
  exists acts out,
    validate params host m idx = (acts, out) /\
    match out with
    | Returns m' =>
        idx < meta_num_blocks m' /\
        num_blocks_local_copy m' <= meta_num_blocks m' /\
        meta_num_blocks m <= meta_num_blocks m' /\
        table m' = table m /\
        lock_held_after acts = false
    | Throws what =>
        what = "Fail to ftruncate!"%string /\
        lock_held_after acts = true /\
        exists length,
          acts = [MetaLock; HostCall (Ftruncate (fd m) length)] /\
          ftruncate_ret host (fd m) length <> 0
    | Diverges => False
    end.
Proof.
  intros Hidx Hfit Hinv. unfold validate.
  destruct (idx <? num_blocks_local_copy m) eqn:E1.
  { eexists _, _. split; [done|]. simpl. split_and!; try done; lia. }
  simpl. destruct (idx <? meta_num_blocks m) eqn:E2.
  { eexists _, _. split; [done|]. simpl. split_and!; try done; lia. }
  set (m1 := mk (meta m) (fd m) (meta_num_blocks m) (meta_num_blocks m) (table m)).
  destruct (grow_no_lock_grows m1 idx Hidx Hfit)
    as (n & Hmod & Hrange & ->); [simpl; lia|].
  simpl.
  destruct (ftruncate_ret host (fd m) (n * Layout.BLOCK_SIZE) =? 0) eqn:E3.
  - eexists _, _. split; [done|]. simpl. split_and!; try done; lia.
  - eexists _, _. split; [done|]. simpl. split_and!; try done.
    eexists. split; [done|]. lia.
Qed.

(** X15: once [get_addr] has returned the address of a block, a call for
    any block of the same grow unit finds the mapping in the table: it makes
    no host call, takes no lock and leaves the table as it is, and for the
    same block it returns the same address. *)
Theorem get_addr_maps_a_grow_unit_once (m m' : MemTable.t) (idx idx' : Z)
    (acts : list Action) (addr : Z) :
  get_addr params options host m idx = (acts, Returns (m', addr)) ->
  grow_unit_of params idx' = grow_unit_of params idx ->
  exists addr',
    get_addr params options host m' idx' = ([], Returns (m', addr')) /\
    (idx' = idx -> addr' = addr).
Proof.
  unfold grow_unit_of, get_addr. intros Hget Hsame. rewrite Hsame.
  destruct (table m !! _) as [base|] eqn:Hlook.
  - injection Hget as <- <- <-. rewrite Hlook.
    eexists. split; [done|]. by intros ->.
  - destruct (validate params host m idx) as [acts1 [m1| |]]; try done.
    destruct (mmap_ret host _ _ _ _ _ =? -1) eqn:E; [done|].
    injection Hget as <- <- <-. simpl. rewrite lookup_insert_eq.
    eexists. split; [done|]. by intros ->.
Qed.

Lemma blocks_per_grow :
  NUM_BLOCKS_PER_GROW params = 2 ^ (grow_unit_shift params - Layout.BLOCK_SHIFT) /\
  0 < NUM_BLOCKS_PER_GROW params <= 2 ^ 19 /\
  grow_unit_size params = NUM_BLOCKS_PER_GROW params * Layout.BLOCK_SIZE.
Proof.
  unfold NUM_BLOCKS_PER_GROW. rewrite unit_is_pow2.
  unfold Layout.BLOCK_SHIFT, Layout.BLOCK_SIZE in *.
  set (k := grow_unit_shift params - 12).
  replace (grow_unit_shift params) with (k + 12) by (unfold k; lia).
  assert (0 <= k <= 19) by (unfold k; lia).
  rewrite Z.pow_add_r by lia. change (2 ^ 12) with 4096.
  rewrite Z.div_mul by lia.
  assert (0 < 2 ^ k) by (apply Z.pow_pos_nonneg; lia).
  assert (2 ^ k <= 2 ^ 19) by (apply Z.pow_le_mono_r; lia).
  lia.
Qed.

Lemma mask_is_ones :
  GROW_UNIT_IN_BLOCK_MASK params =
    Z.ones (grow_unit_shift params - Layout.BLOCK_SHIFT).
Proof.
  unfold GROW_UNIT_IN_BLOCK_MASK, GROW_UNIT_IN_BLOCK_SHIFT.
  unfold Layout.BLOCK_SHIFT in *.
  set (k := grow_unit_shift params - 12).
  assert (0 <= k <= 19) by (unfold k; lia).
  rewrite (wrap32_small k) by (unfold uint32; lia).
  rewrite Z.shiftl_1_l, Z.ones_equiv.
  assert (0 < 2 ^ k) by (apply Z.pow_pos_nonneg; lia).
  assert (2 ^ k <= 2 ^ 19) by (apply Z.pow_le_mono_r; lia).
  rewrite wrap32_small by (unfold uint32; lia). lia.
Qed.

Lemma grow_unit_of_closed idx :
  0 <= idx < 2 ^ 32 ->
  grow_unit_of params idx = idx - idx mod NUM_BLOCKS_PER_GROW params /\
  Z.land idx (GROW_UNIT_IN_BLOCK_MASK params) = idx mod NUM_BLOCKS_PER_GROW params.
Proof.
  intros Hidx. unfold grow_unit_of. rewrite mask_is_ones.
  destruct blocks_per_grow as (-> & _ & _).
  unfold Layout.BLOCK_SHIFT in *.
  set (k := grow_unit_shift params - 12).
  assert (0 <= k <= 19) by (unfold k; lia).
  split; [|by rewrite Z.land_ones by lia].
  assert (Z.land idx (wrap32 (Z.lnot (Z.ones k))) = Z.ldiff idx (Z.ones k)) as ->.
  { apply Z.bits_inj'. intros n Hn.
    rewrite Z.land_spec, Z.ldiff_spec. unfold wrap32.
    destruct (decide (n < 32)) as [Hlt|Hge].
    - rewrite Z.mod_pow2_bits_low by lia. by rewrite Z.lnot_spec by lia.
    - rewrite Z.mod_pow2_bits_high by lia.
      assert (Z.testbit idx n = false) as ->; [|done].
      destruct (decide (idx = 0)) as [->|Hnz]; [apply Z.bits_0|].
      apply Z.bits_above_log2; [lia|].
      assert (Z.log2 idx < 32) by (apply Z.log2_lt_pow2; lia). lia. }
  rewrite Z.ldiff_ones_r by lia.
  rewrite Z.shiftl_mul_pow2, Z.shiftr_div_pow2 by lia.
  assert (0 < 2 ^ k) by (apply Z.pow_pos_nonneg; lia).
  pose proof (Z.div_mod idx (2 ^ k)). lia.
Qed.

Lemma init_mapping_spec fuel idx num_blocks blocks (table : gmap Z Z) :
  0 <= idx -> idx mod NUM_BLOCKS_PER_GROW params = 0 ->
  num_blocks + NUM_BLOCKS_PER_GROW params <= 2 ^ 32 ->
  (Z.to_nat (num_blocks - idx) <= fuel)%nat ->
  (forall key, idx <= key -> table !! key = None) ->
  exists table',
    init_mapping params fuel idx num_blocks blocks table = Some table' /\
    forall key,
      table' !! key =
        if decide (idx <= key < num_blocks /\
                   key mod NUM_BLOCKS_PER_GROW params = 0)
        then Some (blocks + key * Layout.BLOCK_SIZE)
        else table !! key.
Proof.
  destruct blocks_per_grow as (_ & HNB & _).
  set (NB := NUM_BLOCKS_PER_GROW params) in *.
  revert idx table.
  induction fuel as [|fuel IH]; intros idx table Hidx Hmod Hfit Hfuel Hfresh.
  - simpl. destruct (idx <? num_blocks) eqn:E; [lia|].
    exists table. split; [done|]. intros key. case_decide; [lia|done].
  - simpl. destruct (idx <? num_blocks) eqn:E.
    2:{ exists table. split; [done|]. intros key. case_decide; [lia|done]. }
    apply Z.ltb_lt in E. rewrite (Hfresh idx) by lia. fold NB.
    rewrite (wrap32_small (idx + NB)) by (unfold uint32; lia).
    destruct (IH (idx + NB) (<[idx := blocks + idx * Layout.BLOCK_SIZE]> table))
      as (table' & -> & Hlook); try lia.
    { rewrite <- Zplus_mod_idemp_l, Hmod. simpl. apply Z.mod_same. lia. }
    { intros key Hkey. rewrite lookup_insert_ne by lia. apply Hfresh. lia. }
    exists table'. split; [done|]. intros key. rewrite Hlook.
    destruct (decide (key = idx)) as [->|Hne].
    + rewrite lookup_insert_eq. repeat case_decide; try lia; done.
    + rewrite lookup_insert_ne by done.
      repeat case_decide; try done; try lia.
      exfalso. destruct (decide (idx + NB <= key)) as [?|Hlt]; [lia|].
      assert (0 < key - idx < NB) as Hr by lia.
      assert ((key - idx) mod NB = 0) as Hz.
      { rewrite Zminus_mod. replace (key mod NB) with 0 by lia.
        rewrite Hmod. simpl. apply Z.mod_0_l. lia. }
      rewrite Z.mod_small in Hz by lia. lia.
Qed.

Lemma init_table (fd file_size : Z) :
  0 <= file_size -> file_size mod Layout.BLOCK_SIZE = 0 ->
  file_size + 2 * grow_unit_size params <= 2 ^ 44 ->
  exists calls out,
    init params options host fd file_size = (calls, out) /\
    match out with
    | Returns m =>
        file_size <= meta_num_blocks m * Layout.BLOCK_SIZE /\
        0 < meta_num_blocks m < 2 ^ 32 /\
        num_blocks_local_copy m = meta_num_blocks m /\
        forall key,
          table m !! key =
            if decide (0 <= key < meta_num_blocks m /\
                       key mod NUM_BLOCKS_PER_GROW params = 0)
            then Some (meta m + key * Layout.BLOCK_SIZE)
            else None
    | Throws _ => host_refuses host fd
    | Diverges => False
    end.
Proof.
  intros Hsize Hal Hfit.
  destruct blocks_per_grow as (HNBpow & HNB & Hunit).
  unfold init. rewrite IS_ALIGNED_block.
  destruct (file_size mod Layout.BLOCK_SIZE =? 0) eqn:E; [|lia].
  simpl. rewrite unit_is_pow2, IS_ALIGNED_pow2 by (unfold Layout.BLOCK_SHIFT in *; lia).
  rewrite <- unit_is_pow2.
  set (grow := (file_size =? 0) || negb (file_size mod grow_unit_size params =? 0)).
  set (new_size :=
         if grow then
           if file_size =? 0 then prealloc_size params
           else Z.shiftl (Z.shiftr file_size (grow_unit_shift params) + 1)
                  (grow_unit_shift params)
         else file_size).
  assert (0 < grow_unit_size params) as Hpos
    by (rewrite Hunit; unfold Layout.BLOCK_SIZE; lia).
  assert (new_size mod grow_unit_size params = 0 /\
          0 < new_size /\
          file_size <= new_size <= file_size + grow_unit_size params)
    as (Hmod & Hnz & Hrange).
  { unfold new_size, grow.
    destruct (file_size =? 0) eqn:E0; simpl.
    - apply Z.eqb_eq in E0. rewrite prealloc_is_unit.
      split; [apply Z.mod_same; lia|lia].
    - apply Z.eqb_neq in E0.
      destruct (file_size mod grow_unit_size params =? 0) eqn:E1; simpl.
      + apply Z.eqb_eq in E1. lia.
      + rewrite unit_is_pow2.
        destruct (next_grow_unit file_size (grow_unit_shift params))
          as [? ?]; [unfold Layout.BLOCK_SHIFT in *; lia|]. lia. }
  destruct (grow && negb (ftruncate_ret host fd new_size =? 0)) eqn:Eft.
  { eexists _, _. split; [done|]. simpl. left. exists new_size.
    apply andb_true_iff in Eft as [_ Eft]. apply negb_true_iff in Eft. lia. }
  destruct (mmap_ret host new_size _ _ fd 0 =? -1) eqn:Emm.
  { eexists _, _. split; [done|]. simpl. right. eexists _, _, _.
    apply Z.eqb_eq in Emm. exact Emm. }
  set (blocks := mmap_ret host new_size _ _ fd 0).
  rewrite Z.shiftr_div_pow2 by (unfold Layout.BLOCK_SHIFT; lia).
  change (2 ^ Layout.BLOCK_SHIFT) with Layout.BLOCK_SIZE.
  assert (new_size = new_size / grow_unit_size params * grow_unit_size params)
    as Hdiv.
  { pose proof (Z.div_mod new_size (grow_unit_size params)). lia. }
  assert (new_size / Layout.BLOCK_SIZE =
          new_size / grow_unit_size params * NUM_BLOCKS_PER_GROW params) as Hnb.
  { rewrite Hdiv at 1. rewrite Hunit at 2.
    rewrite Z.mul_assoc, Z.div_mul by (unfold Layout.BLOCK_SIZE; lia). done. }
  assert (new_size = new_size / Layout.BLOCK_SIZE * Layout.BLOCK_SIZE) as Hbs.
  { rewrite Hnb. lia. }
  set (num_blocks := new_size / Layout.BLOCK_SIZE) in *.
  assert (0 < num_blocks /\ num_blocks + NUM_BLOCKS_PER_GROW params <= 2 ^ 32)
    as [Hnb0 Hnbfit].
  { unfold Layout.BLOCK_SIZE in *. lia. }
  rewrite (wrap32_small num_blocks) by (unfold uint32; lia).
  destruct (init_mapping_spec (Z.to_nat num_blocks) 0 num_blocks blocks ∅)
    as (table' & -> & Hlook); try done; try lia.
  eexists _, _. split; [done|]. simpl.
  split_and!; try lia.
  intros key. rewrite Hlook. by case_decide.
Qed.

(** X16: for a block-aligned file size with
    [file_size + 2 * grow_unit_size <= 2^44], so that the number of blocks of
    the grown file fits [uint32_t], [init] never runs forever and throws only
    when the host refuses a call; when it returns, the file has at least its
    old size, the local copy of the number of blocks is the recorded one, and
    the table maps exactly the first block of every grow unit of the file,
    each to its place in the mapping. *)
Theorem init_maps_every_grow_unit (fd file_size : Z) :
  0 <= file_size -> file_size mod Layout.BLOCK_SIZE = 0 ->
  file_size + 2 * grow_unit_size params <= 2 ^ 44 ->
  exists calls out,
    init params options host fd file_size = (calls, out) /\
    match out with
    | Returns m =>
        file_size <= meta_num_blocks m * Layout.BLOCK_SIZE /\
        0 < meta_num_blocks m < 2 ^ 32 /\
        num_blocks_local_copy m = meta_num_blocks m /\
        forall key,
          table m !! key =
            if decide (0 <= key < meta_num_blocks m /\
                       key mod NUM_BLOCKS_PER_GROW params = 0)
            then Some (meta m + key * Layout.BLOCK_SIZE)
            else None
    | Throws _ => host_refuses host fd
    | Diverges => False
    end.
Proof. apply init_table. Qed.

(** X17: for every block of the file that [init] has mapped, [get_addr]
    makes no host call and leaves the table as it is; the address it returns
    is that of the block's grow unit plus the block's index within the unit
    times [BLOCK_SIZE * BLOCK_SIZE]. *)
Theorem get_addr_finds_the_blocks_that_init_mapped
    (fd file_size : Z) (calls : list Syscall) (m : MemTable.t) (idx : Z) :
  0 <= file_size -> file_size mod Layout.BLOCK_SIZE = 0 ->
  file_size + 2 * grow_unit_size params <= 2 ^ 44 ->
  init params options host fd file_size = (calls, Returns m) ->
  0 <= idx < meta_num_blocks m ->
  let within := idx mod NUM_BLOCKS_PER_GROW params in
  get_addr params options host m idx =
    ([], Returns (m, meta m + (idx - within) * Layout.BLOCK_SIZE +
                     within * Layout.BLOCK_SIZE * Layout.BLOCK_SIZE)).
Proof.
  intros Hsize Hal Hfit Hinit Hidx within.
  destruct (init_table fd file_size Hsize Hal Hfit) as (calls' & out & Hi & Hout).
  rewrite Hinit in Hi. injection Hi as <- <-.
  destruct Hout as (_ & Hnb & _ & Hlook).
  destruct blocks_per_grow as (HNBpow & HNB & Hunit).
  destruct (grow_unit_of_closed idx) as [Hunit_of Hland]; [lia|].
  unfold get_addr. unfold grow_unit_of in Hunit_of. rewrite Hunit_of, Hland.
  fold within.
  assert (0 <= within < NUM_BLOCKS_PER_GROW params) as Hw
    by (apply Z.mod_pos_bound; lia).
  assert (within <= idx) by (apply Z.mod_le; lia).
  rewrite Hlook. rewrite decide_True.
  - rewrite Z.shiftl_mul_pow2 by (unfold Layout.BLOCK_SHIFT; lia).
    change (2 ^ Layout.BLOCK_SHIFT) with Layout.BLOCK_SIZE.
    rewrite wrap32_small by (unfold uint32, Layout.BLOCK_SIZE; lia).
    do 3 f_equal; lia.
  - split; [lia|]. unfold within.
    rewrite Zminus_mod, Z.mod_mod by lia. rewrite Z.sub_diag. apply Z.mod_0_l. lia.
Qed.

End MemTableGrowth.

Section MemTableGrowthExamples.

Import MemTable.

Lemma demo_shift_range :
  Layout.BLOCK_SHIFT <= grow_unit_shift demo_params < 32.
Proof. unfold Layout.BLOCK_SHIFT. simpl. lia. Defined.

Lemma demo_unit_is_pow2 :
  grow_unit_size demo_params = 2 ^ grow_unit_shift demo_params.
Proof. reflexivity. Defined.

Lemma demo_prealloc_is_unit :
  prealloc_size demo_params = grow_unit_size demo_params.
Proof. reflexivity. Defined.

(** Past these bounds the 32-bit block counts wrap: for the last block index
    [grow_no_lock] truncates the file to nothing, [validate] returns with no
    block recorded, and [init] maps a file of [2^44] bytes and holds no block
    of it. *)
Example grow_no_lock_wraps_at_the_last_index :
  grow_no_lock demo_params demo_host demo_mem_table (2 ^ 32 - 1) =
    ([HostCall (Ftruncate 3 0)], Returns (mk 0 3 512 0 ∅)).
Proof. vm_compute. reflexivity. Qed.

Example validate_of_the_last_index_records_no_block :
  validate demo_params demo_host demo_mem_table (2 ^ 32 - 1) =
    ([MetaLock; HostCall (Ftruncate 3 0); MetaUnlock],
     Returns (mk 0 3 512 0 ∅)).
Proof. vm_compute. reflexivity. Qed.

Example init_of_two_to_the_44_bytes_maps_no_block :
  init demo_params demo_options demo_host 3 (2 ^ 44) =
    ([Mmap (2 ^ 44) 3 1 3 0], Returns (mk 0x7f0000000000 3 0 0 ∅)).
Proof. vm_compute. reflexivity. Qed.

Example grow_by_a_unit_of_blocks :
  (validate demo_params demo_host demo_mem_table 512).1 =
    [MetaLock; HostCall (Ftruncate 3 8589934592); MetaUnlock].
Proof. vm_compute. reflexivity. Qed.

Lemma grow_no_lock_rounds_up_in_blocks_witness :
  Layout.BLOCK_SHIFT <= grow_unit_shift demo_params < 32 /\
  0 <= 512 /\ 512 + 2 ^ grow_unit_shift demo_params < 2 ^ 32 /\
  meta_num_blocks demo_mem_table <= 512 /\
  exists n,
    n mod 2 ^ grow_unit_shift demo_params = 0 /\
    512 < n <= 512 + 2 ^ grow_unit_shift demo_params /\
    grow_no_lock demo_params demo_host demo_mem_table 512 =
      ([HostCall (Ftruncate (fd demo_mem_table) (n * Layout.BLOCK_SIZE))],
       if ftruncate_ret demo_host (fd demo_mem_table) (n * Layout.BLOCK_SIZE) =? 0
       then Returns (mk (meta demo_mem_table) (fd demo_mem_table)
                       (num_blocks_local_copy demo_mem_table) n
                       (table demo_mem_table))
       else Throws "Fail to ftruncate!").
Proof.
  assert (0 <= 512) as H0 by lia.
  assert (512 + 2 ^ grow_unit_shift demo_params < 2 ^ 32) as H1 by (simpl; lia).
  assert (meta_num_blocks demo_mem_table <= 512) as H2 by (simpl; lia).
  split; [exact demo_shift_range|]. split; [exact H0|]. split; [exact H1|].
  split; [exact H2|].
  exact (grow_no_lock_rounds_up_in_blocks demo_params demo_host
           demo_shift_range demo_mem_table 512 H0 H1 H2).
Defined.

Lemma validate_outcomes_witness :
  Layout.BLOCK_SHIFT <= grow_unit_shift demo_params < 32 /\
  0 <= 512 /\ 512 + 2 ^ grow_unit_shift demo_params < 2 ^ 32 /\
  num_blocks_local_copy demo_mem_table <= meta_num_blocks demo_mem_table /\
  exists acts out,
    validate demo_params demo_host demo_mem_table 512 = (acts, out) /\
    match out with
    | Returns m' =>
        512 < meta_num_blocks m' /\
        num_blocks_local_copy m' <= meta_num_blocks m' /\
        meta_num_blocks demo_mem_table <= meta_num_blocks m' /\
        table m' = table demo_mem_table /\
        lock_held_after acts = false
    | Throws what =>
        what = "Fail to ftruncate!"%string /\
        lock_held_after acts = true /\
        exists length,
          acts = [MetaLock; HostCall (Ftruncate (fd demo_mem_table) length)] /\
          ftruncate_ret demo_host (fd demo_mem_table) length <> 0
    | Diverges => False
    end.
Proof.
  assert (0 <= 512) as H0 by lia.
  assert (512 + 2 ^ grow_unit_shift demo_params < 2 ^ 32) as H1 by (simpl; lia).
  assert (num_blocks_local_copy demo_mem_table <=
          meta_num_blocks demo_mem_table) as H2 by (simpl; lia).
  split; [exact demo_shift_range|]. split; [exact H0|]. split; [exact H1|].
  split; [exact H2|].
  exact (validate_outcomes demo_params demo_host demo_shift_range
           demo_mem_table 512 H0 H1 H2).
Defined.

Lemma get_addr_maps_a_grow_unit_once_witness :
  get_addr demo_params demo_options demo_host demo_mem_table 512 =
    ([MetaLock; HostCall (Ftruncate 3 8589934592); MetaUnlock;
      HostCall (Mmap 2097152 3 1 3 2097152)],
     Returns (demo_mem_table_grown, 0x7f0000000000)) /\
  grow_unit_of demo_params 515 = grow_unit_of demo_params 512 /\
  exists addr',
    get_addr demo_params demo_options demo_host demo_mem_table_grown 515 =
      ([], Returns (demo_mem_table_grown, addr')) /\
    (515 = 512 -> addr' = 0x7f0000000000).
Proof.
  assert (get_addr demo_params demo_options demo_host demo_mem_table 512 =
            ([MetaLock; HostCall (Ftruncate 3 8589934592); MetaUnlock;
              HostCall (Mmap 2097152 3 1 3 2097152)],
             Returns (demo_mem_table_grown, 0x7f0000000000))) as H0
    by (vm_compute; reflexivity).
  assert (grow_unit_of demo_params 515 = grow_unit_of demo_params 512) as H1
    by (vm_compute; reflexivity).
  split; [exact H0|]. split; [exact H1|].
  exact (get_addr_maps_a_grow_unit_once demo_params demo_options demo_host
           demo_mem_table demo_mem_table_grown 512 515 _ _ H0 H1).
Defined.

Lemma init_maps_every_grow_unit_witness :
  Layout.BLOCK_SHIFT <= grow_unit_shift demo_params < 32 /\
  grow_unit_size demo_params = 2 ^ grow_unit_shift demo_params /\
  prealloc_size demo_params = grow_unit_size demo_params /\
  0 <= 4096 /\ 4096 mod Layout.BLOCK_SIZE = 0 /\
  4096 + 2 * grow_unit_size demo_params <= 2 ^ 44 /\
  exists calls out,
    init demo_params demo_options demo_host 3 4096 = (calls, out) /\
    match out with
    | Returns m =>
        4096 <= meta_num_blocks m * Layout.BLOCK_SIZE /\
        0 < meta_num_blocks m < 2 ^ 32 /\
        num_blocks_local_copy m = meta_num_blocks m /\
        forall key,
          table m !! key =
            if decide (0 <= key < meta_num_blocks m /\
                       key mod NUM_BLOCKS_PER_GROW demo_params = 0)
            then Some (meta m + key * Layout.BLOCK_SIZE)
            else None
    | Throws _ => host_refuses demo_host 3
    | Diverges => False
    end.
Proof.
  assert (0 <= 4096) as H0 by lia.
  assert (4096 mod Layout.BLOCK_SIZE = 0) as H1 by reflexivity.
  assert (4096 + 2 * grow_unit_size demo_params <= 2 ^ 44) as H2
    by (simpl; lia).
  split; [exact demo_shift_range|]. split; [exact demo_unit_is_pow2|].
  split; [exact demo_prealloc_is_unit|].
  split; [exact H0|]. split; [exact H1|]. split; [exact H2|].
  exact (init_maps_every_grow_unit demo_params demo_options demo_host
           demo_shift_range demo_unit_is_pow2 demo_prealloc_is_unit
           3 4096 H0 H1 H2).
Defined.

Lemma get_addr_finds_the_blocks_that_init_mapped_witness :
  Layout.BLOCK_SHIFT <= grow_unit_shift demo_params < 32 /\
  grow_unit_size demo_params = 2 ^ grow_unit_shift demo_params /\
  prealloc_size demo_params = grow_unit_size demo_params /\
  0 <= 4096 /\ 4096 mod Layout.BLOCK_SIZE = 0 /\
  4096 + 2 * grow_unit_size demo_params <= 2 ^ 44 /\
  init demo_params demo_options demo_host 3 4096 =
    ([Ftruncate 3 2097152; Mmap 2097152 3 1 3 0],
     Returns demo_mem_table_init) /\
  0 <= 5 < meta_num_blocks demo_mem_table_init /\
  get_addr demo_params demo_options demo_host demo_mem_table_init 5 =
    ([], Returns (demo_mem_table_init,
                  meta demo_mem_table_init +
                  (5 - 5 mod NUM_BLOCKS_PER_GROW demo_params) * Layout.BLOCK_SIZE +
                  5 mod NUM_BLOCKS_PER_GROW demo_params *
                    Layout.BLOCK_SIZE * Layout.BLOCK_SIZE)).
Proof.
  assert (0 <= 4096) as H0 by lia.
  assert (4096 mod Layout.BLOCK_SIZE = 0) as H1 by reflexivity.
  assert (4096 + 2 * grow_unit_size demo_params <= 2 ^ 44) as H2
    by (simpl; lia).
  assert (init demo_params demo_options demo_host 3 4096 =
            ([Ftruncate 3 2097152; Mmap 2097152 3 1 3 0],
             Returns demo_mem_table_init)) as H3 by (vm_compute; reflexivity).
  assert (0 <= 5 < meta_num_blocks demo_mem_table_init) as H4 by (simpl; lia).
  split; [exact demo_shift_range|]. split; [exact demo_unit_is_pow2|].
  split; [exact demo_prealloc_is_unit|].
  split; [exact H0|]. split; [exact H1|]. split; [exact H2|].
  split; [exact H3|]. split; [exact H4|].
  exact (get_addr_finds_the_blocks_that_init_mapped demo_params demo_options
           demo_host demo_shift_range demo_unit_is_pow2 demo_prealloc_is_unit
           3 4096 _ demo_mem_table_init 5 H0 H1 H2 H3 H4).
Defined.

Example get_addr_scales_the_offset_twice :
  (get_addr demo_params demo_options demo_host demo_mem_table_init 1).2 =
    Returns (demo_mem_table_init, 0x7f0000000000 + 4096 * 4096).
Proof. vm_compute. reflexivity. Qed.

End MemTableGrowthExamples.

(** ** Transactions *)

Section TxMgrFacts.

Import TxMgr.

Lemma same_block_iff offset count :
  0 <= offset -> 0 <= count -> offset + count <= 2 ^ 64 ->
  offset mod Layout.BLOCK_SIZE <> 0 \/ 0 < count ->
  (BLOCK_SIZE_TO_IDX offset =? BLOCK_SIZE_TO_IDX (wrap64 (offset + count - 1))) =
  bool_decide (offset mod Layout.BLOCK_SIZE + count <= Layout.BLOCK_SIZE).
Proof.
  intros Ho Hc Hfit Hne. unfold BLOCK_SIZE_TO_IDX, Layout.BLOCK_SHIFT, Layout.BLOCK_SIZE in *.
  assert (0 <= offset + count - 1).
  { destruct Hne as [Hne|?]; [|lia].
    destruct (decide (offset = 0)) as [->|?]; [done|lia]. }
  unfold wrap64. rewrite Z.mod_small by lia.
  rewrite !Z.shiftr_div_pow2 by lia. change (2 ^ 12) with 4096.
  pose proof (Z.div_mod offset 4096 ltac:(lia)) as Hdm.
  pose proof (Z.mod_pos_bound offset 4096 ltac:(lia)) as Hr.
  set (q := offset / 4096) in *. set (r := offset mod 4096) in *.
  replace (offset + count - 1) with ((r + count - 1) + q * 4096) by lia.
  rewrite Z.div_add by lia.
  assert (0 <= r + count - 1) by lia.
  assert (0 <= (r + count - 1) / 4096) by (apply Z.div_pos; lia).
  destruct (decide (r + count <= 4096)) as [Hle|Hgt].
  - rewrite bool_decide_eq_true_2 by done.
    rewrite Z.div_small by lia. apply Z.eqb_eq. lia.
  - rewrite bool_decide_eq_false_2 by done.
    assert (1 <= (r + count - 1) / 4096) by (apply Z.div_le_lower_bound; lia).
    apply Z.eqb_neq. lia.
Qed.

(** X18: [TxMgr::do_pwrite] runs an [AlignedTx] when the count and the
    offset are both multiples of the block size, otherwise a [SingleBlockTx]
    when the range ends within the block in which it starts, and otherwise a
    [MultiBlockTx]; [do_write] picks the same class for the offset that it is
    granted. *)
Theorem do_pwrite_picks_the_class (count offset : Z) :
  0 <= offset -> 0 <= count -> offset + count <= 2 ^ 64 ->
  tx_class (do_pwrite count offset) =
    (if bool_decide (count mod Layout.BLOCK_SIZE = 0 /\
                     offset mod Layout.BLOCK_SIZE = 0) then AlignedTx
     else if bool_decide (offset mod Layout.BLOCK_SIZE + count <= Layout.BLOCK_SIZE)
     then SingleBlockTx else MultiBlockTx) /\
  forall grant,
    TxMgr.offset grant = offset ->
    tx_class (do_write grant count) = tx_class (do_pwrite count offset).
Proof.
  intros Ho Hc Hfit. split.
  - unfold do_pwrite.
    destruct ((count mod Layout.BLOCK_SIZE =? 0) &&
              (offset mod Layout.BLOCK_SIZE =? 0)) eqn:E.
    + rewrite bool_decide_eq_true_2 by lia. done.
    + rewrite bool_decide_eq_false_2 by lia.
      rewrite same_block_iff; try done.
      * by destruct (bool_decide _).
      * destruct (decide (offset mod Layout.BLOCK_SIZE = 0)) as [H0|?]; [|by left].
        right. destruct (decide (count = 0)) as [->|?]; [|lia].
        rewrite Z.mod_0_l in E by (unfold Layout.BLOCK_SIZE; lia). lia.
  - intros grant <-. unfold do_write, do_pwrite.
    destruct (_ && _); [done|]. by destruct (_ =? _).
Qed.

Lemma do_pwrite_picks_the_class_witness :
  0 <= 4000 /\ 0 <= 100 /\ 4000 + 100 <= 2 ^ 64 /\
  tx_class (do_pwrite 100 4000) =
    (if bool_decide (100 mod Layout.BLOCK_SIZE = 0 /\
                     4000 mod Layout.BLOCK_SIZE = 0) then AlignedTx
     else if bool_decide (4000 mod Layout.BLOCK_SIZE + 100 <= Layout.BLOCK_SIZE)
     then SingleBlockTx else MultiBlockTx) /\
  forall grant,
    TxMgr.offset grant = 4000 ->
    tx_class (do_write grant 100) = tx_class (do_pwrite 100 4000).
Proof.
  assert (0 <= 4000) as H0 by lia.
  assert (0 <= 100) as H1 by lia.
  assert (4000 + 100 <= 2 ^ 64) as H2 by lia.
  split; [exact H0|]. split; [exact H1|]. split; [exact H2|].
  exact (do_pwrite_picks_the_class 100 4000 H0 H1 H2).
Defined.

End TxMgrFacts.

(** ** File *)

Section FileRoundTrip.

Import File.

Lemma load_store_bytes m dst bytes a :
  load (store_bytes m dst bytes) a =
    if decide (dst <= a < dst + Z.of_nat (length bytes))
    then default 0 (bytes !! Z.to_nat (a - dst))
    else load m a.
Proof.
  revert m dst. induction bytes as [|b bytes IH]; intros m dst; simpl.
  - case_decide; [lia|done].
  - rewrite IH. destruct (decide (a = dst)) as [->|Hne].
    + repeat case_decide; try lia.
      unfold load. rewrite lookup_insert_eq.
      by replace (Z.to_nat (dst - dst)) with 0%nat by lia.
    + repeat case_decide; try lia.
      * replace (Z.to_nat (a - dst)) with (S (Z.to_nat (a - (dst + 1)))) by lia.
        done.
      * unfold load. by rewrite lookup_insert_ne.
Qed.

Lemma read_bytes_store_bytes m dst bytes :
  read_bytes (store_bytes m dst bytes) dst (length bytes) = bytes.
Proof.
  apply list_eq. intros i. unfold read_bytes.
  rewrite list_lookup_fmap.
  destruct (decide (i < length bytes)%nat) as [Hlt|Hge].
  - rewrite lookup_seq_lt by done. simpl. rewrite load_store_bytes.
    rewrite decide_True by lia.
    replace (Z.to_nat (dst + Z.of_nat i - dst)) with i by lia.
    destruct (bytes !! i) eqn:E; [done|].
    apply lookup_ge_None in E. lia.
  - rewrite lookup_seq_ge by lia. simpl. symmetry. apply lookup_ge_None. lia.
Qed.

Lemma read_bytes_app m a x y :
  read_bytes m a (x + y) = read_bytes m a x ++ read_bytes m (a + Z.of_nat x) y.
Proof.
  unfold read_bytes. rewrite seq_app, fmap_app. f_equal. simpl.
  assert (seq x y = Nat.add x <$> seq 0 y) as ->
    by (rewrite fmap_add_seq; f_equal; lia).
  rewrite <- list_fmap_compose.
  apply list_fmap_ext. intros _ k _. simpl. f_equal. lia.
Qed.

Lemma first_block_values count offset :
  0 < count -> 0 <= offset < Layout.BLOCK_SIZE ->
  count + offset <= 64 * Layout.BLOCK_SIZE ->
  first_block offset = 0 /\ offset_in_block offset = offset /\
  0 < block_count count offset <= 64 /\
  (block_count count offset - 1) * Layout.BLOCK_SIZE < count + offset
    <= block_count count offset * Layout.BLOCK_SIZE.
Proof.
  unfold Layout.BLOCK_SIZE. intros Hc Ho Hfit.
  assert (first_block offset = 0) as H0.
  { unfold first_block, ALIGN_DOWN, Layout.BLOCK_SIZE.
    change (4096 - 1) with (Z.ones 12).
    rewrite <- Z.ldiff_land, Z.ldiff_ones_r by lia.
    rewrite Z.shiftr_div_pow2 by lia. rewrite Z.div_small by lia. done. }
  assert (offset_in_block offset = offset) as H1.
  { unfold offset_in_block. rewrite H0. simpl.
    unfold wrap64. rewrite Z.sub_0_r. apply Z.mod_small. lia. }
  split; [done|]. split; [done|].
  unfold block_count. rewrite H1. unfold ALIGN_UP, Layout.BLOCK_SIZE, Layout.BLOCK_SHIFT.
  unfold wrap64. rewrite (Z.mod_small (count + offset)) by lia.
  change (4096 - 1) with (Z.ones 12).
  rewrite <- Z.ldiff_land, Z.ldiff_ones_r by lia.
  rewrite Z.shiftr_shiftl_l by lia. simpl (12 - 12). rewrite Z.shiftl_0_r.
  rewrite Z.shiftr_div_pow2 by lia. change (2 ^ 12) with 4096.
  replace (count + offset + 4096 - 1) with (count + offset + 4095) by lia.
  pose proof (Z.div_mod (count + offset + 4095) 4096 ltac:(lia)).
  pose proof (Z.mod_pos_bound (count + offset + 4095) 4096 ltac:(lia)).
  assert (0 < (count + offset + 4095) / 4096 <= 64) by lia.
  rewrite wrap32_small by (unfold uint32; lia). lia.
Qed.

(** X21: a write that needs more than [BITMAP_CAPACITY] blocks stops at the
    assertion of [Allocator::alloc] right after the transaction has begun:
    no block is allocated, no byte is written and nothing is committed. *)
Theorem overwrite_of_more_than_a_word_asserts
    (MAX : Z) (f : File.t) (buf : list Z) (count offset : Z) :
  Allocator.BITMAP_CAPACITY < block_count count offset ->
  overwrite MAX f buf count offset =
    (emit f (EvBeginTx (first_block offset) (block_count count offset)),
     AssertionFailed "num_blocks <= BITMAP_CAPACITY").
Proof.
  intros Hbig. unfold overwrite.
  change (wrap32 (ALIGN_DOWN offset Layout.BLOCK_SIZE)) with (first_block offset).
  change (wrap64 (offset - wrap32 (first_block offset * Layout.BLOCK_SIZE)))
    with (offset_in_block offset).
  change (wrap32 (Z.shiftr (ALIGN_UP (wrap64 (count + offset_in_block offset))
                              Layout.BLOCK_SIZE) Layout.BLOCK_SHIFT))
    with (block_count count offset).
  unfold begin_tx, Allocator.alloc. cbn [emit allocator].
  destruct (negb (block_count count offset <=? Allocator.BITMAP_CAPACITY)) eqn:E;
    [done|].
  apply negb_false_iff in E. lia.
Qed.

Lemma overwrite_of_more_than_a_word_asserts_witness :
  Allocator.BITMAP_CAPACITY < block_count 266240 0 /\
  overwrite 64 fresh [] 266240 0 =
    (emit fresh (EvBeginTx (first_block 0) (block_count 266240 0)),
     AssertionFailed "num_blocks <= BITMAP_CAPACITY").
Proof.
  assert (Allocator.BITMAP_CAPACITY < block_count 266240 0) as H0
    by (vm_compute; reflexivity).
  split; [exact H0|].
  exact (overwrite_of_more_than_a_word_asserts 64 fresh [] 266240 0 H0).
Defined.

End FileRoundTrip.

(** ** File over the memory table *)

Section MappedFileFacts.

Import MappedFile.

Variable params : MemTable.LayoutParams.
Variable options : MemTable.BuildOptions.
Variable host : MemTable.Host.
Variable MAX : Z.

Lemma flush_lookup n m d addr a :
  flush m d addr n !! a =
    if decide (addr <= a < addr + Z.of_nat n) then Some (File.load m a)
    else d !! a.
Proof.
  revert d addr. induction n as [|n IH]; intros d addr; simpl.
  - case_decide; [lia|done].
  - rewrite IH. destruct (decide (a = addr)) as [->|Hne].
    + repeat case_decide; try lia. by rewrite lookup_insert_eq.
    + repeat case_decide; try lia; try done. by rewrite lookup_insert_ne.
Qed.

Lemma chain_uncommitted R (L : list BlkTable.TxEntry) s states :
  (forall prev s', tx_log s' = L -> R prev s') ->
  Forall (fun s' => tx_log s' = L) states -> chain R s states.
Proof.
  intros HR Hall. revert s. induction Hall as [|s' rest Hs' _ IH]; intros s;
    simpl; [done|]. split; [by apply HR|apply IH].
Qed.

Lemma last_cons (x d : MappedFile.t) l : List.last (x :: l) d = List.last l x.
Proof.
  revert x d. induction l as [|y l IH]; intros x d; [done|].
  change (List.last (x :: y :: l) d) with (List.last (y :: l) d).
  by rewrite (IH y d), (IH y x).
Qed.

Lemma last_app (l1 l2 : list t) d :
  List.last (l1 ++ l2) d = List.last l2 (List.last l1 d).
Proof.
  revert d. induction l1 as [|x l1 IH]; intros d; [done|].
  rewrite <- app_comm_cons, !last_cons. apply IH.
Qed.

Lemma chain_app R s states1 states2 :
  chain R s states1 -> chain R (List.last states1 s) states2 ->
  chain R s (states1 ++ states2).
Proof.
  revert s. induction states1 as [|s1 rest IH]; intros s; [done|].
  rewrite last_cons. simpl. intros [H1 H2] H3. split; [done|]. by apply IH.
Qed.

Lemma triple_bind {A B} P (m : M A) (k : A -> M B) R Q1 Q :
  triple P m R Q1 -> (forall a, triple (Q1 a) (k a) R Q) ->
  triple P (m ≫= k) R Q.
Proof.
  intros Hm Hk f HP. destruct (Hm f HP) as [HI Hr].
  unfold mbind, M_bind. destruct (m f) as [states [[a s]|e]]; simpl in *; [|done].
  destruct Hr as [HQ1 ->]. destruct (Hk a _ HQ1) as [HI' Hr'].
  destruct (k a _) as [states' r]; simpl in *.
  split; [by apply chain_app|].
  destruct r as [[b s']|e]; [|done]. destruct Hr' as [HQ ->].
  split; [done|]. by rewrite last_app.
Qed.

Lemma triple_ret {A} (P : t -> Prop) (a : A) R (Q : A -> t -> Prop) :
  (forall f, P f -> Q a f) -> triple P (mret a) R Q.
Proof. intros H f HP. simpl. split; [done|]. split; [by apply H|done]. Qed.

Lemma triple_gets {A} (P : t -> Prop) (g : t -> A) R (Q : A -> t -> Prop) :
  (forall f, P f -> Q (g f) f) -> triple P (gets g) R Q.
Proof. intros H f HP. simpl. split; [done|]. split; [by apply H|done]. Qed.

Lemma triple_modify (P : t -> Prop) (g : t -> t) R (Q : unit -> t -> Prop) :
  (forall f, P f -> R f (g f) /\ Q tt (g f)) -> triple P (modify g) R Q.
Proof. intros H f HP. destruct (H f HP) as [HI HQ]. simpl. done. Qed.

Lemma triple_stop {A} (P : t -> Prop) e R (Q : A -> t -> Prop) :
  triple P (stop e) R Q.
Proof. intros f HP. simpl. done. Qed.

Lemma triple_pre {A} (P P' : t -> Prop) (m : M A) R Q :
  (forall f, P f -> P' f) -> triple P' m R Q -> triple P m R Q.
Proof. intros H Hm f HP. apply Hm. by apply H. Qed.

Lemma triple_post {A} (P : t -> Prop) (m : M A) R (Q Q' : A -> t -> Prop) :
  (forall a f, Q' a f -> Q a f) -> triple P m R Q' -> triple P m R Q.
Proof.
  intros H Hm f HP. destruct (Hm f HP) as [HI Hr]. split; [done|].
  destruct ((m f).2) as [[a s]|e]; [|done]. destruct Hr. split; [by apply H|done].
Qed.

Lemma triple_pure {A} (phi : Prop) (P : t -> Prop) (m : M A) R Q :
  (phi -> triple P m R Q) -> triple (fun f => phi /\ P f) m R Q.
Proof. intros H f [Hphi HP]. by apply H. Qed.

Lemma triple_get_addr (P : t -> Prop) lidx R :
  (forall f acts mt dst,
     P f ->
     MemTable.get_addr params options host (mem_table f) lidx =
       (acts, MemTable.Returns (mt, dst)) ->
     R f (set_mem_table mt (regions f ++ mapped_by host acts) f)) ->
  triple P (get_addr params options host lidx) R
    (fun dst s => exists f acts mt,
       P f /\
       MemTable.get_addr params options host (mem_table f) lidx =
         (acts, MemTable.Returns (mt, dst)) /\
       s = set_mem_table mt (regions f ++ mapped_by host acts) f).
Proof.
  intros HI f HP. unfold get_addr.
  destruct (MemTable.get_addr params options host (mem_table f) lidx)
    as [acts [[mt dst]| |]] eqn:Hga; simpl; try done.
  split; [split; [by apply (HI f acts mt dst)|done]|]. split; [|done].
  by exists f, acts, mt.
Qed.

Lemma triple_store (P : t -> Prop) dst bytes R :
  (forall f, P f -> R f (stored dst bytes f)) ->
  triple P (store dst bytes) R
    (fun _ s => exists f,
       P f /\ accessible (regions f) dst (Z.of_nat (length bytes)) = true /\
       s = stored dst bytes f).
Proof.
  intros HI f HP. unfold store, mbind, M_bind, gets. simpl.
  destruct (accessible _ _ _) eqn:E; simpl; [|done].
  split; [split; [by apply HI|done]|]. split; [by exists f|done].
Qed.

Lemma triple_memcpy (P : t -> Prop) dst src len R :
  (forall f, P f ->
     R f (stored dst (File.read_bytes (mem f) src (Z.to_nat len)) f)) ->
  triple P (memcpy dst src len) R
    (fun _ s => exists f,
       P f /\ s = stored dst (File.read_bytes (mem f) src (Z.to_nat len)) f).
Proof.
  intros HI f HP. unfold memcpy, mbind, M_bind, gets. simpl.
  destruct (negb (accessible _ src len)); simpl; [done|].
  destruct ((0 <? len) && (src <? dst + len) && (dst <? src + len)); simpl;
    [done|].
  unfold store, mbind, M_bind, gets. simpl.
  destruct (accessible _ _ _) eqn:E; simpl; [|done].
  split; [split; [by apply HI|done]|]. split; [by exists f|done].
Qed.

Lemma triple_persist_fenced (P : t -> Prop) addr len R :
  (forall f, P f -> R f (persisted addr len f)) ->
  triple P (persist_fenced addr len) R
    (fun _ s => exists f, P f /\ s = persisted addr len f).
Proof.
  intros HI f HP. unfold persist_fenced, mbind, M_bind, gets. simpl.
  destruct (negb (accessible _ _ _)); simpl; [done|].
  split; [split; [by apply HI|done]|]. split; [by exists f|done].
Qed.

Lemma wrap64_small x : 0 <= x < 2 ^ 64 -> wrap64 x = x.
Proof. intros. unfold wrap64. by apply Z.mod_small. Qed.

Lemma offset_in_block_nonneg offset : 0 <= offset_in_block offset.
Proof. unfold offset_in_block, wrap64. apply Z.mod_pos_bound. lia. Qed.

(** [write_data] commits nothing, and when it returns the payload is durable
    at the address that [get_addr] returned for the new block. *)
Lemma write_data_spec (f0 : t) (R : t -> t -> Prop) buf count lo svi lidx :
  (forall prev s, tx_log s = tx_log f0 -> R prev s) ->
  Z.of_nat (length buf) = count -> 0 <= lo -> count + lo < 2 ^ 64 ->
  triple (fun s => tx_log s = tx_log f0 /\ mem_table s = mem_table f0)
    (write_data params options host buf count lo svi lidx) R
    (fun _ s =>
       tx_log s = tx_log f0 /\
       exists acts mt dst,
         MemTable.get_addr params options host (mem_table f0) lidx =
           (acts, MemTable.Returns (mt, dst)) /\
         holds_payload s (dst + lo) buf).
Proof.
  intros HR Hlen Hlo Hfit. unfold write_data.
  eapply triple_bind.
  { apply triple_get_addr. intros f acts mt dst [Hl _] _. by apply HR. }
  intros dst. simpl.
  apply (triple_pre _
           (fun s => (exists acts mt,
                        MemTable.get_addr params options host (mem_table f0) lidx =
                          (acts, MemTable.Returns (mt, dst))) /\
                     tx_log s = tx_log f0)).
  { intros s (f & acts & mt & [Hl Hmt] & Hga & ->). rewrite Hmt in Hga.
    split; [by eexists _, _|done]. }
  apply triple_pure. intros (acts & mt & Hga).
  eapply (triple_bind _ _ _ _ (fun _ s => tx_log s = tx_log f0)).
  { destruct (negb (lo =? 0)).
    - eapply (triple_bind _ _ _ _ (fun _ s => tx_log s = tx_log f0));
        [apply triple_gets; by intros|].
      intros src_idx. simpl.
      eapply triple_bind.
      { apply triple_get_addr. intros f acts' mt' dst' Hl _. by apply HR. }
      intros src. simpl.
      eapply triple_post; [|apply triple_memcpy].
      + intros _ s (f & (f' & acts' & mt' & Hl & _ & ->) & ->). done.
      + intros f (f' & acts' & mt' & Hl & _ & ->). by apply HR.
    - by apply triple_ret. }
  intros _.
  eapply (triple_bind _ _ _ _
            (fun _ s => tx_log s = tx_log f0 /\
                        forall (k : nat) (b : Z), buf !! k = Some b ->
                          File.load (mem s) (dst + lo + Z.of_nat k) = b)).
  { destruct (Z.of_nat (length buf) <? count); [apply triple_stop|].
    eapply triple_post; [|apply triple_store].
    - intros _ s (f & Hl & _ & ->). split; [done|]. intros k b Hk. simpl.
      rewrite take_ge by lia. rewrite load_store_bytes.
      pose proof (lookup_lt_Some _ _ _ Hk).
      rewrite decide_True by lia.
      replace (Z.to_nat (dst + lo + Z.of_nat k - (dst + lo))) with k by lia.
      by rewrite Hk.
    - intros f Hl. by apply HR. }
  intros _.
  eapply triple_post; [|apply triple_persist_fenced].
  - intros _ s (f & [Hl Hmem] & ->). split; [done|].
    exists acts, mt, dst. split; [done|]. intros k b Hk. simpl.
    split; [by apply Hmem|].
    pose proof (lookup_lt_Some _ _ _ Hk).
    rewrite flush_lookup, wrap64_small by lia.
    rewrite decide_True by lia. f_equal. by apply Hmem.
  - intros f [Hl _]. by apply HR.
Qed.


Lemma triple_alloc (P : t -> Prop) num_blocks R :
  (forall f a, P f ->
     R f (mk (mem_table f) (regions f) (mem f) (durable f) (blk_table f) a
             (log_entries f) (tx_log f))) ->
  triple P (alloc num_blocks) R
    (fun lidx s => exists f a,
       P f /\ Allocator.alloc (allocator f) num_blocks = Ok (a, lidx) /\
       s = mk (mem_table f) (regions f) (mem f) (durable f) (blk_table f) a
              (log_entries f) (tx_log f)).
Proof.
  intros HR f HP. unfold alloc.
  destruct (Allocator.alloc (allocator f) num_blocks) as [[a lidx]|what|] eqn:Ha;
    simpl; try done.
  split; [split; [by apply HR|done]|]. split; [|done]. by exists f, a.
Qed.

Lemma triple_update (P : t -> Prop) R :
  (forall f bt, P f ->
     R f (mk (mem_table f) (regions f) (mem f) (durable f) bt (allocator f)
             (log_entries f) (tx_log f))) ->
  triple P (update MAX) R
    (fun _ s => exists f bt,
       P f /\ BlkTable.update MAX (tx_log f) (blk_table f) false = Some bt /\
       s = mk (mem_table f) (regions f) (mem f) (durable f) bt (allocator f)
              (log_entries f) (tx_log f)).
Proof.
  intros HR f HP. unfold update.
  destruct (BlkTable.update MAX (tx_log f) (blk_table f) false) as [bt|] eqn:Hu;
    simpl; try done.
  split; [split; [by apply HR|done]|]. split; [|done]. by exists f, bt.
Qed.

Lemma overwrite_spec (f : t) (buf : list Z) (count offset : Z) :
  Z.of_nat (length buf) = count ->
  count + offset_in_block offset < 2 ^ 64 ->
  triple (fun s => s = f) (overwrite params options host MAX buf count offset)
    (commit_step params options host f buf count offset)
    (fun n s => n = to_int64 count /\ tx_log s <> tx_log f).
Proof.
  intros Hlen Hfit. unfold overwrite.
  change (wrap32 (ALIGN_DOWN offset Layout.BLOCK_SIZE)) with (first_block offset).
  change (wrap64 (offset - wrap32 (first_block offset * Layout.BLOCK_SIZE)))
    with (offset_in_block offset).
  change (wrap32 (Z.shiftr (ALIGN_UP (wrap64 (count + offset_in_block offset))
                              Layout.BLOCK_SIZE) Layout.BLOCK_SHIFT))
    with (block_count count offset).
  set (R := commit_step params options host f buf count offset).
  assert (forall prev s, tx_log s = tx_log f -> R prev s) as HR
    by (intros prev s Hl; by left).
  eapply (triple_bind _ _ _ _ (fun _ s => s = f)).
  { unfold begin_tx. apply triple_gets. by intros. }
  intros tx_begin_idx.
  eapply (triple_bind _ _ _ _
            (fun _ s => tx_log s = tx_log f /\ mem_table s = mem_table f)).
  { eapply triple_post; [|apply triple_alloc].
    - intros lidx0 s (f' & a & Hf & Ha & Hs). by subst.
    - intros f' a Hf. apply HR. by subst. }
  intros lidx.
  eapply triple_bind.
  { apply (write_data_spec f R); try done. apply offset_in_block_nonneg. }
  intros []. simpl.
  set (Q := fun s : t =>
              exists acts mt dst,
                MemTable.get_addr params options host (mem_table f) lidx =
                  (acts, MemTable.Returns (mt, dst)) /\
                holds_payload s (dst + offset_in_block offset) buf).
  set (e := File.mkLogEntry (first_block offset) lidx (block_count count offset)
              (wrap16 (wrap32 (block_count count offset * Layout.BLOCK_SIZE) -
                       count - offset_in_block offset))).
  eapply (triple_bind _ _ _ _
            (fun idx s => tx_log s = tx_log f /\ Q s /\
                          log_entries s !! Z.to_nat idx = Some e)).
  { unfold write_log_entry.
    eapply (triple_bind _ _ _ _
              (fun idx s => (tx_log s = tx_log f /\ Q s) /\
                            idx = Z.of_nat (length (log_entries s)))).
    { apply triple_gets. by intros. }
    intros idx.
    eapply (triple_bind _ _ _ _
              (fun _ s => tx_log s = tx_log f /\ Q s /\
                          log_entries s !! Z.to_nat idx = Some e)).
    - apply triple_modify. intros f' [[Hl HQ] ->]. split; [by apply HR|].
      simpl. split; [done|]. split; [done|].
      by rewrite Nat2Z.id, list_lookup_middle.
    - intros []. by apply triple_ret. }
  intros idx.
  set (entry := BlkTable.TxCommitInline (block_count count offset)
                  (first_block offset) lidx).
  eapply (triple_bind _ _ _ _
            (fun _ s => tx_log s = tx_log f ++ [entry] /\ Q s)).
  { unfold commit_tx. apply triple_modify.
    intros f' (Hl & (acts & mt & dst & Hga & Hp) & He). rewrite He. simpl.
    split; [|split; [by rewrite Hl|by exists acts, mt, dst]].
    right. exists lidx, acts, mt, dst. by rewrite Hl. }
  intros [].
  eapply (triple_bind _ _ _ _
            (fun _ s => tx_log s = tx_log f ++ [entry] /\ Q s)).
  { eapply triple_post; [|apply triple_update].
    - by intros _ s (f' & bt & [Hl HQ] & _ & ->).
    - intros f' bt [Hl (acts & mt & dst & Hga & Hp)].
      right. by exists lidx, acts, mt, dst. }
  intros []. apply triple_ret. intros s [Hl _]. split; [done|].
  rewrite Hl. intros Heq. apply (f_equal length) in Heq.
  rewrite length_app in Heq. simpl in Heq. lia.
Qed.


(** C2: in every execution of [File::overwrite], whether it returns, throws,
    stops at an assertion or runs into undefined behaviour, the commit entry
    enters the transaction log only in a step that begins in a state in which
    the payload is already at the address that [get_addr] returned for the
    new block, both in memory and in persistent memory, and the payload stays
    there in every later state; when the call returns, it returns [count] as
    an [ssize_t] and the commit entry is in the log.  ([buf] is the [count]
    bytes written and [count + local_offset] fits [uint64_t].) *)
Theorem commit_is_stored_after_the_payload_is_durable
    (f : MappedFile.t) (buf : list Z) (count offset : Z) :
  Z.of_nat (length buf) = count ->
  count + offset_in_block offset < 2 ^ 64 ->
  chain (commit_step params options host f buf count offset) f
    (overwrite params options host MAX buf count offset f).1 /\
  forall n s,
    (overwrite params options host MAX buf count offset f).2 = inl (n, s) ->
    n = to_int64 count /\ tx_log s <> tx_log f /\
    s = List.last (overwrite params options host MAX buf count offset f).1 f.
Proof.
  intros Hlen Hfit.
  destruct (overwrite_spec f buf count offset Hlen Hfit f eq_refl) as [Hc Hr].
  split; [done|]. intros n s Hrun. rewrite Hrun in Hr.
  destruct Hr as [[-> Hl] ->]. done.
Qed.





(** A block that [get_addr] has returned is found in the table afterwards,
    and stays there when [get_addr] maps another one. *)
Lemma get_addr_again m idx acts m' addr :
  MemTable.get_addr params options host m idx = (acts, MemTable.Returns (m', addr)) ->
  MemTable.get_addr params options host m' idx = ([], MemTable.Returns (m', addr)).
Proof.
  unfold MemTable.get_addr. intros Hget.
  destruct (MemTable.table m !! _) as [base|] eqn:Hlook.
  - injection Hget as <- <- <-. by rewrite Hlook.
  - destruct (MemTable.validate params host m idx) as [acts1 [m1| |]]; try done.
    destruct (MemTable.mmap_ret host _ _ _ _ _ =? -1) eqn:E; [done|].
    injection Hget as <- <- <-. simpl. by rewrite lookup_insert_eq.
Qed.

Lemma validate_table m idx acts m1 :
  MemTable.validate params host m idx = (acts, MemTable.Returns m1) ->
  MemTable.table m1 = MemTable.table m /\ MemTable.fd m1 = MemTable.fd m.
Proof.
  unfold MemTable.validate, MemTable.grow_no_lock. simpl.
  repeat (match goal with
          | |- context [if ?b then _ else _] => destruct b
          end; simpl); intros [= <- <-]; done.
Qed.

Lemma get_addr_keeps_hits m j acts m' b i a :
  MemTable.get_addr params options host m j = (acts, MemTable.Returns (m', b)) ->
  MemTable.get_addr params options host m i = ([], MemTable.Returns (m, a)) ->
  MemTable.get_addr params options host m' i = ([], MemTable.Returns (m', a)).
Proof.
  unfold MemTable.get_addr. intros Hj Hi.
  destruct (MemTable.table m !! Z.land j _) as [basej|] eqn:Hlj.
  { injection Hj as <- <- <-. done. }
  destruct (MemTable.validate params host m j) as [acts1 [m1| |]] eqn:Hv;
    try done.
  destruct (MemTable.mmap_ret host _ _ _ _ _ =? -1) eqn:E; [done|].
  injection Hj as <- <- <-. simpl.
  destruct (validate_table _ _ _ _ Hv) as [Ht _].
  destruct (MemTable.table m !! Z.land i _) as [basei|] eqn:Hli.
  - injection Hi as <-. rewrite lookup_insert_ne, Ht, Hli; [done|].
    intros Heq. rewrite Heq in Hlj. congruence.
  - exfalso. revert Hi. generalize (MemTable.validate params host m i).
    intros [l [?| |]]; try done. match goal with |- (if ?c then _ else _) = _ -> _ => destruct c end; try done.
    intros Hi. apply (f_equal fst) in Hi. simpl in Hi. apply app_eq_nil in Hi as [_ ?]. done.
Qed.

Lemma write_data_reads (f0 : t) buf count lo svi lidx :
  Z.of_nat (length buf) = count -> 0 <= lo ->
  triple (same_logs f0)
    (write_data params options host buf count lo svi lidx) (fun _ _ => True)
    (fun _ s => same_logs f0 s /\ reads_back params options host lidx buf lo count s).
Proof.
  intros Hlen Hlo. unfold write_data.
  set (Hit := fun (dst : Z) (s : t) =>
                MemTable.get_addr params options host (mem_table s) lidx =
                  ([], MemTable.Returns (mem_table s, dst))).
  eapply triple_bind.
  { apply triple_get_addr. done. }
  intros dst. simpl.
  apply (triple_pre _ (fun s => same_logs f0 s /\ Hit dst s)).
  { intros s (f & acts & mt & HP & Hga & ->). split; [done|].
    unfold Hit. simpl. by eapply get_addr_again. }
  eapply (triple_bind _ _ _ _ (fun _ s => same_logs f0 s /\ Hit dst s)).
  { destruct (negb (lo =? 0)).
    - eapply (triple_bind _ _ _ _ (fun _ s => same_logs f0 s /\ Hit dst s));
        [apply triple_gets; by intros|].
      intros src_idx. simpl.
      eapply triple_bind.
      { apply triple_get_addr. done. }
      intros src. simpl.
      eapply triple_post; [|apply triple_memcpy].
      + intros _ s (f & (f' & acts' & mt' & [Hl Hh] & Hga & ->) & ->).
        split; [done|]. unfold Hit. simpl. by eapply get_addr_keeps_hits.
      + done.
    - by apply triple_ret. }
  intros _.
  eapply (triple_bind _ _ _ _
            (fun _ s => (same_logs f0 s /\ Hit dst s) /\
                        (forall (k : nat) (b : Z), buf !! k = Some b ->
                           File.load (mem s) (dst + lo + Z.of_nat k) = b) /\
                        accessible (regions s) (dst + lo) count = true)).
  { destruct (Z.of_nat (length buf) <? count); [apply triple_stop|].
    eapply triple_post; [|apply triple_store].
    - intros _ s (f & HP & Hacc & ->). split; [done|].
      rewrite take_ge in Hacc |- * by lia. rewrite Hlen in Hacc.
      split; [|done]. intros k b Hk. simpl.
      rewrite load_store_bytes.
      pose proof (lookup_lt_Some _ _ _ Hk).
      rewrite decide_True by lia.
      replace (Z.to_nat (dst + lo + Z.of_nat k - (dst + lo))) with k by lia.
      by rewrite Hk.
    - done. }
  intros _.
  eapply triple_post; [|apply triple_persist_fenced].
  - intros _ s (f & [[Hl Hh] [Hm Ha]] & ->). split; [done|]. by exists dst.
  - done.
Qed.

Lemma overwrite_reads (f : t) (buf : list Z) (count offset : Z) a lidx :
  Z.of_nat (length buf) = count -> 0 < count -> 0 <= offset ->
  count + offset <= Layout.BLOCK_SIZE ->
  BlkTable.tail_tx_idx (blk_table f) = length (tx_log f) ->
  Allocator.alloc (allocator f) 1 = Ok (a, lidx) ->
  0 < lidx -> lidx + 1 <= 2 ^ 32 ->
  triple (fun s => s = f) (overwrite params options host MAX buf count offset)
    (fun _ _ => True)
    (fun n s => reads_back params options host lidx buf offset count s /\
                BlkTable.get (blk_table s) 0 = lidx).
Proof.
  intros Hlen Hcount Hoff Hfit Htail Halloc Hlidx Hlidx'.
  destruct (first_block_values count offset) as (Hfb & Hlo & Hnb & Hrange);
    [done|unfold Layout.BLOCK_SIZE in *; lia..|].
  assert (block_count count offset = 1) as Hnb1
    by (unfold Layout.BLOCK_SIZE in *; lia).
  unfold overwrite.
  change (wrap32 (ALIGN_DOWN offset Layout.BLOCK_SIZE)) with (first_block offset).
  change (wrap64 (offset - wrap32 (first_block offset * Layout.BLOCK_SIZE)))
    with (offset_in_block offset).
  change (wrap32 (Z.shiftr (ALIGN_UP (wrap64 (count + offset_in_block offset))
                              Layout.BLOCK_SIZE) Layout.BLOCK_SHIFT))
    with (block_count count offset).
  rewrite Hfb, Hlo, Hnb1.
  eapply (triple_bind _ _ _ _ (fun _ s => s = f)).
  { unfold begin_tx. apply triple_gets. by intros. }
  intros tx_begin_idx.
  eapply (triple_bind _ _ _ _ (fun l s => l = lidx /\ same_logs f s)).
  { eapply triple_post; [|apply triple_alloc].
    - intros l s (f' & a' & -> & Ha & ->). rewrite Halloc in Ha.
      by simplify_eq.
    - done. }
  intros l. apply triple_pure. intros ->.
  eapply triple_bind.
  { by apply write_data_reads. }
  intros []. simpl.
  set (Q := reads_back params options host lidx buf offset count).
  set (e := File.mkLogEntry 0 lidx 1
              (wrap16 (wrap32 (1 * Layout.BLOCK_SIZE) - count - offset))).
  eapply (triple_bind _ _ _ _
            (fun idx s => same_logs f s /\ Q s /\
                          log_entries s !! Z.to_nat idx = Some e)).
  { unfold write_log_entry.
    eapply (triple_bind _ _ _ _
              (fun idx s => (same_logs f s /\ Q s) /\
                            idx = Z.of_nat (length (log_entries s)))).
    { apply triple_gets. by intros. }
    intros idx.
    eapply (triple_bind _ _ _ _
              (fun _ s => same_logs f s /\ Q s /\
                          log_entries s !! Z.to_nat idx = Some e)).
    - apply triple_modify. intros f' [[Hl HQ] ->]. split; [done|].
      simpl. split; [done|]. split; [done|].
      by rewrite Nat2Z.id, list_lookup_middle.
    - intros []. by apply triple_ret. }
  intros idx.
  set (entry := BlkTable.TxCommitInline 1 0 lidx).
  eapply (triple_bind _ _ _ _
            (fun _ s => tx_log s = tx_log f ++ [entry] /\
                        blk_table s = blk_table f /\ Q s)).
  { unfold commit_tx. apply triple_modify.
    intros f' ([Hl Hb] & HQ & He). rewrite He. simpl.
    split; [done|]. by rewrite Hl. }
  intros [].
  eapply (triple_bind _ _ _ _
            (fun _ s => Q s /\ BlkTable.get (blk_table s) 0 = lidx)).
  { eapply triple_post; [|apply triple_update].
    - intros _ s (f' & bt & (Hl & Hb & HQ) & Hu & ->). split; [done|].
      simpl. rewrite Hl, Hb in Hu. unfold entry in Hu.
      destruct (apply_tx_inline_spec (blk_table f) 1 0 lidx false)
        as (st' & Happ & Htl & Hcell); try lia.
      unfold BlkTable.update in Hu.
      rewrite Htail, drop_app_length in Hu.
      cbn [BlkTable.replay BlkTable.is_valid negb] in Hu.
      rewrite Happ in Hu.
      cbn [mbind option_bind BlkTable.replay] in Hu.
      injection Hu as <-.
      specialize (Hcell 0). rewrite decide_True in Hcell by lia.
      unfold BlkTable.get. simpl. unfold cell in Hcell.
      rewrite Hcell by lia. lia.
    - done. }
  intros []. by apply triple_ret.
Qed.

Lemma pread_of_a_block (s : t) (buf : list Z) (count offset lidx : Z) :
  Z.of_nat (length buf) = count -> 0 < count -> 0 <= offset ->
  count + offset <= Layout.BLOCK_SIZE -> 0 < lidx ->
  reads_back params options host lidx buf offset count s ->
  BlkTable.get (blk_table s) 0 = lidx ->
  exists s', (pread params options host count offset s).2 = inl (buf, s') /\ mem s' = mem s.
Proof.
  intros Hlen Hcount Hoff Hfit Hlidx (dst & Hhit & Hload & Hacc) Hget.
  destruct (first_block_values count offset) as (Hfb & Hlo & Hnb & Hrange);
    [done|unfold Layout.BLOCK_SIZE in *; lia..|].
  assert (block_count count offset = 1) as Hnb1
    by (unfold Layout.BLOCK_SIZE in *; lia).
  unfold pread.
  change (wrap32 (ALIGN_DOWN offset Layout.BLOCK_SIZE)) with (first_block offset).
  change (wrap64 (offset - wrap32 (first_block offset * Layout.BLOCK_SIZE)))
    with (offset_in_block offset).
  change (wrap32 (Z.shiftr (ALIGN_UP (wrap64 (count + offset_in_block offset))
                              Layout.BLOCK_SIZE) Layout.BLOCK_SHIFT))
    with (block_count count offset).
  rewrite Hfb, Hlo, Hnb1.
  change (Z.to_nat 1) with 1%nat. cbn [pread_loop].
  change (wrap32 (0 + 0)) with 0. change (wrap32 (1 - 1)) with 0.
  change (0 =? 0) with true. cbn iota.
  assert (wrap64 (wrap64 (Layout.BLOCK_SIZE - offset) -
                  wrap16 (wrap32 (1 * Layout.BLOCK_SIZE) - count - offset)) =
          count) as ->.
  { unfold wrap64, wrap16, wrap32, Layout.BLOCK_SIZE in *.
    rewrite (Z.mod_small (1 * 4096)), (Z.mod_small (4096 - count - offset)),
      (Z.mod_small (4096 - offset)), Z.mod_small; lia. }
  unfold get_data_block_ptr, load_bytes.
  unfold mbind, M_bind, gets, mret, M_ret. rewrite Hget.
  destruct (lidx =? 0) eqn:E; [lia|].
  unfold get_addr. rewrite Hhit. simpl.
  rewrite app_nil_r, Hacc. simpl. rewrite app_nil_r.
  assert (File.read_bytes (mem s) (dst + offset) (Z.to_nat count) = buf) as ->.
  { apply list_eq. intros k. unfold File.read_bytes. rewrite list_lookup_fmap.
    destruct (buf !! k) as [b|] eqn:Hk.
    - pose proof (lookup_lt_Some _ _ _ Hk). rewrite lookup_seq_lt by lia.
      simpl. f_equal. by apply Hload.
    - apply lookup_ge_None in Hk. rewrite lookup_seq_ge by lia. done. }
  eexists. split; [reflexivity|done].
Qed.

(** X19: a [pread] of a range that an [overwrite] of at most one block has
    just written returns the bytes of the buffer. *)
Theorem pread_returns_what_a_block_overwrite_wrote (f : t) (buf : list Z)
    (count offset : Z) (a : Allocator.t) (lidx n : Z) (s : t) :
  Z.of_nat (length buf) = count -> 0 < count -> 0 <= offset ->
  count + offset <= Layout.BLOCK_SIZE ->
  BlkTable.tail_tx_idx (blk_table f) = length (tx_log f) ->
  Allocator.alloc (allocator f) 1 = Ok (a, lidx) ->
  0 < lidx -> lidx + 1 <= 2 ^ 32 ->
  (overwrite params options host MAX buf count offset f).2 = inl (n, s) ->
  exists s',
    (pread params options host count offset s).2 = inl (buf, s') /\
    mem s' = mem s.
Proof.
  intros Hlen Hcount Hoff Hfit Htail Halloc Hlidx Hlidx' Hret.
  destruct (overwrite_reads f buf count offset a lidx Hlen Hcount Hoff Hfit
              Htail Halloc Hlidx Hlidx' f eq_refl) as [_ Hpost].
  rewrite Hret in Hpost. destruct Hpost as [[Hrb Hget] _].
  by apply (pread_of_a_block s buf count offset lidx).
Qed.

End MappedFileFacts.

Section MappedFileExamples.

Import MappedFile.

Example overwrite_commits_the_durable_payload :
  let run := overwrite demo_params demo_options demo_host_by_offset 64 [65] 1 0
               demo_mapped_file in
  length run.1 = 7%nat /\
  match run.2 with
  | inl (n, s) =>
      n = 1 /\ tx_log s = [BlkTable.TxCommitInline 1 0 512] /\
      durable s !! (0x7f0000000000 + 2097152) = Some 65 /\
      regions s = [(0x7f0000000000, 2097152); (0x7f0000000000 + 2097152, 2097152)]
  | inr _ => False
  end.
Proof. vm_compute. repeat split; reflexivity. Qed.

Example overwrite_throws_when_mmap_fails :
  overwrite demo_params demo_options demo_host_without_memory 64 [65] 1 0
    demo_mapped_file =
    ([mk (mem_table demo_mapped_file) (regions demo_mapped_file)
         (mem demo_mapped_file) (durable demo_mapped_file)
         (blk_table demo_mapped_file)
         (Allocator.mk [] 0 (1 :: replicate 15 0)) [] []],
     inr (Thrown "Fail to mmap!")).
Proof. vm_compute. reflexivity. Qed.

Example overwrite_into_block_64_leaves_the_mapping :
  (overwrite demo_params demo_options demo_host_by_offset 64 [65] 1 0
     demo_mapped_file_64).2 = inr UndefinedBehaviour.
Proof. vm_compute. reflexivity. Qed.

Lemma commit_is_stored_after_the_payload_is_durable_witness :
  Z.of_nat (length [65]) = 1 /\ 1 + offset_in_block 0 < 2 ^ 64 /\
  chain (commit_step demo_params demo_options demo_host_by_offset
           demo_mapped_file [65] 1 0) demo_mapped_file
    (overwrite demo_params demo_options demo_host_by_offset 64 [65] 1 0
       demo_mapped_file).1 /\
  forall n s,
    (overwrite demo_params demo_options demo_host_by_offset 64 [65] 1 0
       demo_mapped_file).2 = inl (n, s) ->
    n = to_int64 1 /\ tx_log s <> tx_log demo_mapped_file /\
    s = List.last (overwrite demo_params demo_options demo_host_by_offset 64
                     [65] 1 0 demo_mapped_file).1 demo_mapped_file.
Proof.
  assert (Z.of_nat (length [65]) = 1) as H0 by reflexivity.
  assert (1 + offset_in_block 0 < 2 ^ 64) as H1 by (vm_compute; reflexivity).
  split; [exact H0|]. split; [exact H1|].
  exact (commit_is_stored_after_the_payload_is_durable demo_params demo_options
           demo_host_by_offset 64 demo_mapped_file [65] 1 0 H0 H1).
Defined.

Lemma pread_returns_what_a_block_overwrite_wrote_witness :
  (overwrite demo_params demo_options demo_host_by_offset 64 [65] 1 0
     demo_mapped_file).2 = inl (1, demo_mapped_file_written) /\
  exists s',
    (pread demo_params demo_options demo_host_by_offset 1 0
       demo_mapped_file_written).2 = inl ([65], s') /\
    mem s' = mem demo_mapped_file_written.
Proof.
  assert ((overwrite demo_params demo_options demo_host_by_offset 64 [65] 1 0
             demo_mapped_file).2 = inl (1, demo_mapped_file_written)) as Hret
    by (vm_compute; reflexivity).
  split; [exact Hret|].
  apply (pread_returns_what_a_block_overwrite_wrote demo_params demo_options
           demo_host_by_offset 64 demo_mapped_file [65] 1 0
           (Allocator.mk [] 0 (1 :: replicate 15 0)) 512 1
           demo_mapped_file_written);
    [reflexivity|lia|lia|unfold Layout.BLOCK_SIZE; lia|reflexivity|
     vm_compute; reflexivity|lia|lia|exact Hret].
Defined.


End MappedFileExamples.

(** ** Shared memory *)

Section ShmFacts.

Import Shm.

Lemma try_init_uninitialized d i :
  state d = UNINITIALIZED ->
  try_init d i = (mkPerThreadData INITIALIZED true i 0, true).
Proof. intros H. unfold try_init, compare_exchange_strong. by rewrite H. Qed.

Lemma try_init_taken d i :
  state d <> UNINITIALIZED -> try_init d i = (d, false).
Proof.
  intros H. unfold try_init, compare_exchange_strong. by destruct (state d).
Qed.

Lemma alloc_loop_first slots i k :
  first_uninitialized slots k ->
  alloc_loop slots i =
    (<[k := mkPerThreadData INITIALIZED true (i + Z.of_nat k) 0]> slots,
     Some (i + Z.of_nat k)).
Proof.
  revert i k. induction slots as [|d slots IH]; intros i k [(d0 & Hk & Hs) Hbefore].
  { by rewrite lookup_nil in Hk. }
  destruct k as [|k]; simpl in *.
  - injection Hk as ->. rewrite try_init_uninitialized by done.
    by rewrite Z.add_0_r.
  - rewrite try_init_taken by (apply (Hbefore 0%nat d); [lia|done]).
    rewrite (IH (i + 1) k).
    + replace (i + 1 + Z.of_nat k) with (i + Z.of_nat (S k)) by lia. done.
    + split; [by exists d0|]. intros j dj Hj Hl. apply (Hbefore (S j) dj); [lia|done].
Qed.

Lemma alloc_loop_none slots i :
  (forall j d, slots !! j = Some d -> state d <> UNINITIALIZED) ->
  alloc_loop slots i = (slots, None).
Proof.
  revert i. induction slots as [|d slots IH]; intros i Hall; simpl; [done|].
  rewrite try_init_taken by (apply (Hall 0%nat d); done).
  rewrite IH; [done|]. intros j dj. apply (Hall (S j) dj).
Qed.

(** X22: [ShmMgr::alloc_per_thread_data] initialises the first slot whose
    state is [UNINITIALIZED], with its position as index and no pinned block,
    leaves the other slots as they are and returns with the meta lock still
    held; when no slot is [UNINITIALIZED] it releases the lock, changes no
    slot and panics. *)
Theorem alloc_per_thread_data_takes_the_first_free_slot
    (slots : list PerThreadData) :
  (forall k, first_uninitialized slots k ->
     alloc_per_thread_data slots =
       ([Lock],
        <[k := mkPerThreadData INITIALIZED true (Z.of_nat k) 0]> slots,
        Returned (Z.of_nat k))) /\
  ((forall j d, slots !! j = Some d -> state d <> UNINITIALIZED) ->
   alloc_per_thread_data slots =
     ([Lock; Unlock], slots, Panic "No empty per-thread data")).
Proof.
  unfold alloc_per_thread_data. split.
  - intros k Hk. by rewrite (alloc_loop_first slots 0 k Hk).
  - intros Hall. by rewrite (alloc_loop_none slots 0 Hall).
Qed.

Example alloc_per_thread_data_second_slot :
  alloc_per_thread_data demo_slots =
    ([Lock],
     [mkPerThreadData INITIALIZED true 0 7;
      mkPerThreadData INITIALIZED true 1 0;
      mkPerThreadData UNINITIALIZED false 0 0],
     Returned 1).
Proof. reflexivity. Qed.

(** X23: a slot that [PerThreadData::try_init] has initialised refuses a
    second [try_init], and after [reset] it can be initialised again. *)
Theorem reset_frees_the_slot (d : PerThreadData) (i j : Z) :
  (try_init d i).2 = true ->
  (try_init (try_init d i).1 j).2 = false /\
  try_init (reset (try_init d i).1) j =
    (mkPerThreadData INITIALIZED true j 0, true).
Proof.
  unfold try_init, compare_exchange_strong.
  destruct (state d); simpl; done.
Qed.

Lemma reset_frees_the_slot_witness :
  (try_init (mkPerThreadData UNINITIALIZED false 0 0) 3).2 = true /\
  (try_init (try_init (mkPerThreadData UNINITIALIZED false 0 0) 3).1 4).2 =
    false /\
  try_init (reset (try_init (mkPerThreadData UNINITIALIZED false 0 0) 3).1) 4 =
    (mkPerThreadData INITIALIZED true 4 0, true).
Proof.
  assert ((try_init (mkPerThreadData UNINITIALIZED false 0 0) 3).2 = true)
    as H0 by reflexivity.
  split; [exact H0|].
  exact (reset_frees_the_slot (mkPerThreadData UNINITIALIZED false 0 0) 3 4 H0).
Defined.

End ShmFacts.
